(** * surf-cli native host: framed JSON messages over stdin/stdout

    A shallow embedding of [src/native/test-host.py] (the native-messaging
    test stub) and [src/native/host-wrapper.py] (the launcher).

    Bytes and Unicode code points are integers ([Z]); a byte string and a
    Python [str] are lists of them.  Python exceptions are values of [exn]
    carried by the [result] monad.  The library calls the scripts make
    ([struct.pack], [struct.unpack], [read], [bytes.decode], [str.encode],
    [json.dumps], [json.loads], [dict.get]) are modelled by the functions of
    the same name below, following the documented behaviour of CPython with
    default arguments.

    The interpreter is CPython 3.11 with the C implementation of [json].  Its
    digit limit for int/str conversion and the depth to which [json] can
    nest containers are parameters of the model ([limits] below), as are
    the byte order of the machine and the text [float.__repr__] prints: a
    float read from a number literal is carried as that literal.

    Outside the model: running out of memory, and failures of the operating
    system on stdin, stdout or the log file.  The log file is taken to be
    written as UTF-8, and [str(data)] on line 32 to have the room
    [json.loads] had on line 30 (it nests one C call a container, from
    fewer frames). *)

From Stdlib Require Import ZArith List Bool Lia.
From Stdlib Require DecimalPos DecimalFacts.
Import ListNotations.
Open Scope Z_scope.

(** ** Bytes, text and exceptions *)

Definition bytes := list Z.
Definition text := list Z.

Definition len {A} (l : list A) : Z := Z.of_nat (length l).

Definition is_byte (b : Z) : Prop := 0 <= b < 256.

(** The exception classes the scripts can meet; all derive from
    [Exception], so [except Exception] catches every one of them. *)
Inductive exn :=
| StructError
| UnicodeDecodeError
| UnicodeEncodeError
| JSONDecodeError
| AttributeError
| TypeError
| ValueError           (* raised for an int beyond the digit limit *)
| RecursionError.

Inductive result (A : Type) :=
| Ok (a : A)
| Raise (e : exn).
Arguments Ok {A} a.
Arguments Raise {A} e.

Definition bind {A B} (r : result A) (k : A -> result B) : result B :=
  match r with
  | Ok a => k a
  | Raise e => Raise e
  end.

Notation "x <- r ;; k" := (bind r (fun x => k))
  (at level 61, r at next level, right associativity).

Definition of_option {A} (e : exn) (o : option A) : result A :=
  match o with
  | Some a => Ok a
  | None => Raise e
  end.

Definition omap {A B} (f : A -> B) (o : option A) : option B :=
  match o with
  | Some a => Some (f a)
  | None => None
  end.

(** ** Reading from a stream: [stream.read(n)]

    A blocking [read(n)] returns [n] bytes, or fewer when the stream closes
    first; what it returns is removed from the stream. *)

Fixpoint take (n : Z) (l : bytes) : bytes :=
  match l with
  | [] => []
  | x :: r => if n <=? 0 then [] else x :: take (n - 1) r
  end.

Fixpoint drop (n : Z) (l : bytes) : bytes :=
  match l with
  | [] => []
  | x :: r => if n <=? 0 then l else drop (n - 1) r
  end.

Definition read (n : Z) (stream : bytes) : bytes * bytes :=
  (take n stream, drop n stream).

(** ** [struct.pack('I', n)] and [struct.unpack('I', b)]

    Format ['I'] without a prefix character: an unsigned int of 4 bytes in
    the byte order of the machine, which the model takes as a parameter. *)

Inductive byte_order := LittleEndian | BigEndian.

Definition le_bytes (n : Z) : bytes :=
  [n mod 256; (n / 256) mod 256; (n / 65536) mod 256; (n / 16777216) mod 256].

Definition in_order (native : byte_order) (b : bytes) : bytes :=
  match native with
  | LittleEndian => b
  | BigEndian => rev b
  end.

Definition struct_pack_I (native : byte_order) (n : Z) : result bytes :=
  if (0 <=? n) && (n <? 4294967296)
  then Ok (in_order native (le_bytes n))
  else Raise StructError.

Definition struct_unpack_I (native : byte_order) (b : bytes) : result Z :=
  match in_order native b with
  | [b0; b1; b2; b3] => Ok (b0 + 256 * b1 + 65536 * b2 + 16777216 * b3)
  | _ => Raise StructError
  end.

(** ** UTF-8: [bytes.decode('utf-8')] and [str.encode('utf-8')] *)

Definition is_surrogate (c : Z) : bool := (55296 <=? c) && (c <=? 57343).
Definition is_high_surrogate (c : Z) : bool := (55296 <=? c) && (c <=? 56319).
Definition is_low_surrogate (c : Z) : bool := (56320 <=? c) && (c <=? 57343).

Definition is_cont (b : Z) : bool := (128 <=? b) && (b <=? 191).

(** The strict decoder: shortest forms only, no surrogates, nothing above
    U+10FFFF; any other byte sequence raises [UnicodeDecodeError]. *)
Fixpoint utf8_decode (b : bytes) : option text :=
  match b with
  | [] => Some []
  | b0 :: r =>
      if (0 <=? b0) && (b0 <? 128) then omap (cons b0) (utf8_decode r)
      else if (194 <=? b0) && (b0 <=? 223) then
        match r with
        | b1 :: r1 =>
            if is_cont b1
            then omap (cons ((b0 - 192) * 64 + (b1 - 128))) (utf8_decode r1)
            else None
        | _ => None
        end
      else if (224 <=? b0) && (b0 <=? 239) then
        match r with
        | b1 :: b2 :: r2 =>
            let c := (b0 - 224) * 4096 + (b1 - 128) * 64 + (b2 - 128) in
            if is_cont b1 && is_cont b2 && (2048 <=? c) && negb (is_surrogate c)
            then omap (cons c) (utf8_decode r2)
            else None
        | _ => None
        end
      else if (240 <=? b0) && (b0 <=? 244) then
        match r with
        | b1 :: b2 :: b3 :: r3 =>
            let c := (b0 - 240) * 262144 + (b1 - 128) * 4096
                     + (b2 - 128) * 64 + (b3 - 128) in
            if is_cont b1 && is_cont b2 && is_cont b3
               && (65536 <=? c) && (c <=? 1114111)
            then omap (cons c) (utf8_decode r3)
            else None
        | _ => None
        end
      else None
  end.

Definition bytes_decode (b : bytes) : result text :=
  of_option UnicodeDecodeError (utf8_decode b).

(** The encoder; a surrogate code point (a Python [str] may hold one)
    raises [UnicodeEncodeError]. *)
Definition utf8_encode_char (c : Z) : option bytes :=
  if (0 <=? c) && (c <? 128) then Some [c]
  else if (128 <=? c) && (c <? 2048) then Some [192 + c / 64; 128 + c mod 64]
  else if (2048 <=? c) && (c <? 65536) then
    if is_surrogate c then None
    else Some [224 + c / 4096; 128 + (c / 64) mod 64; 128 + c mod 64]
  else if (65536 <=? c) && (c <=? 1114111) then
    Some [240 + c / 262144; 128 + (c / 4096) mod 64;
          128 + (c / 64) mod 64; 128 + c mod 64]
  else None.

Fixpoint utf8_encode (s : text) : option bytes :=
  match s with
  | [] => Some []
  | c :: r =>
      match utf8_encode_char c, utf8_encode r with
      | Some b, Some br => Some (b ++ br)
      | _, _ => None
      end
  end.

Definition str_encode (s : text) : result bytes :=
  of_option UnicodeEncodeError (utf8_encode s).

(** ** Python values

    The values [json.dumps] and [json.loads] deal with.  A dict is the list
    of its items in insertion order.  [PBytes] stands for the values
    [json.dumps] refuses. *)

Inductive pyfloat :=
| FNaN
| FInf (negative : bool)
| FLit (lit : text).  (* the float that [float(lit)] builds *)

Unset Elimination Schemes.
Inductive pyval :=
| PNone
| PBool (b : bool)
| PInt (n : Z)
| PFloat (f : pyfloat)
| PStr (s : text)
| PBytes (b : bytes)
| PList (l : list pyval)
| PTuple (l : list pyval)
| PDict (d : list (pyval * pyval)).
Set Elimination Schemes.

(** The texts of the JSON literals and of the keys the host uses. *)
Definition txt_null : text := [110; 117; 108; 108].
Definition txt_true : text := [116; 114; 117; 101].
Definition txt_false : text := [102; 97; 108; 115; 101].
Definition txt_NaN : text := [78; 97; 78].
Definition txt_Infinity : text := [73; 110; 102; 105; 110; 105; 116; 121].
Definition txt_neg_Infinity : text := 45 :: txt_Infinity.
Definition txt_id : text := [105; 100].
Definition txt_success : text := [115; 117; 99; 99; 101; 115; 115].
Definition txt_type : text := [116; 121; 112; 101].
Definition txt_HOST_READY : text := [72; 79; 83; 84; 95; 82; 69; 65; 68; 89].

(** ** Limits of the interpreter

    CPython refuses to convert between int and str when the number has
    more decimal digits than [sys.get_int_max_str_digits()]: 4300 unless
    configured, 0 for no limit, and no other value below 640.  The C code
    of [json] raises [RecursionError] when it is to enter a list or dict
    and the stack has no room for one more call.

    How many containers can nest depends on the stack the caller has used,
    which is the same at every call of a line of the script, all at module
    level.  [json.dumps], called by [send_message], writes containers
    nested up to [S dumps_depth] deep, and [json.loads], called on line 30,
    reads them up to [S (dumps_depth + loads_extra)] deep: it is reached
    through fewer frames, so it has at least the same room. *)

Record limits := mk_limits {
  max_str_digits : Z;
  dumps_depth : nat;
  loads_extra : nat
}.

Definition loads_depth (lim : limits) : nat :=
  (dumps_depth lim + loads_extra lim)%nat.

(** The test of [long_to_decimal_string] and [long_from_string]: a text of
    [strlen] characters, [digits] of them digits, is refused when it is
    longer than 640 characters and has more digits than the limit. *)
Definition over_digit_limit (lim : limits) (strlen digits : Z) : bool :=
  (640 <? strlen) && (0 <? max_str_digits lim) && (max_str_digits lim <? digits).

(** ** [json.dumps] (default arguments: [ensure_ascii], [allow_nan],
    separators [", "] and [": "]) *)

Fixpoint uint_digits (u : Decimal.uint) : text :=
  match u with
  | Decimal.Nil => []
  | Decimal.D0 u => 48 :: uint_digits u
  | Decimal.D1 u => 49 :: uint_digits u
  | Decimal.D2 u => 50 :: uint_digits u
  | Decimal.D3 u => 51 :: uint_digits u
  | Decimal.D4 u => 52 :: uint_digits u
  | Decimal.D5 u => 53 :: uint_digits u
  | Decimal.D6 u => 54 :: uint_digits u
  | Decimal.D7 u => 55 :: uint_digits u
  | Decimal.D8 u => 56 :: uint_digits u
  | Decimal.D9 u => 57 :: uint_digits u
  end.

(** [int.__repr__]: decimal digits, a minus sign for a negative number. *)
Definition int_repr (n : Z) : text :=
  match n with
  | Z0 => [48]
  | Zpos p => uint_digits (Pos.to_uint p)
  | Zneg p => 45 :: uint_digits (Pos.to_uint p)
  end.

(** [int.__repr__] under the digit limit. *)
Definition int_str (lim : limits) (n : Z) : result text :=
  let t := int_repr n in
  let digits := match n with
                | Zneg _ => len t - 1
                | _ => len t
                end in
  if over_digit_limit lim (len t) digits then Raise ValueError else Ok t.

Definition hex_digit (d : Z) : Z := if d <? 10 then 48 + d else 87 + d.

Definition hex4 (n : Z) : text :=
  [hex_digit (n / 4096); hex_digit ((n / 256) mod 16);
   hex_digit ((n / 16) mod 16); hex_digit (n mod 16)].

Definition u_escape (n : Z) : text := 92 :: 117 :: hex4 n.

(** One character of [encode_basestring_ascii]: the short escapes, the
    printable ASCII characters as they are, [\uXXXX] for the rest of the
    basic plane and a surrogate pair of escapes above it. *)
Definition escape_char (c : Z) : text :=
  if c =? 34 then [92; 34]
  else if c =? 92 then [92; 92]
  else if c =? 10 then [92; 110]
  else if c =? 13 then [92; 114]
  else if c =? 9 then [92; 116]
  else if c =? 8 then [92; 98]
  else if c =? 12 then [92; 102]
  else if (32 <=? c) && (c <=? 126) then [c]
  else if c <? 65536 then u_escape c
  else u_escape (55296 + ((c - 65536) / 1024) mod 1024)
       ++ u_escape (56320 + (c - 65536) mod 1024).

Definition encode_basestring_ascii (s : text) : text :=
  34 :: flat_map escape_char s ++ [34].

(** [', '.join(items)], failing with the first item that failed. *)
Fixpoint join_items (items : list (result text)) : result text :=
  match items with
  | [] => Ok []
  | r :: rest =>
      match rest with
      | [] => r
      | _ => t <- r ;; ts <- join_items rest ;; Ok (t ++ 44 :: 32 :: ts)
      end
  end.

(** ** [json.loads] (default arguments: strict strings, the constants
    [NaN], [Infinity] and [-Infinity] accepted) *)

Definition is_ws (c : Z) : bool :=
  (c =? 32) || (c =? 9) || (c =? 10) || (c =? 13).

Fixpoint skip_ws (s : text) : text :=
  match s with
  | c :: r => if is_ws c then skip_ws r else s
  | [] => []
  end.

Definition is_digit (c : Z) : bool := (48 <=? c) && (c <=? 57).

Definition hex_value (c : Z) : option Z :=
  if is_digit c then Some (c - 48)
  else if (97 <=? c) && (c <=? 102) then Some (c - 87)
  else if (65 <=? c) && (c <=? 70) then Some (c - 55)
  else None.

Definition hex4_value (h1 h2 h3 h4 : Z) : option Z :=
  match hex_value h1, hex_value h2, hex_value h3, hex_value h4 with
  | Some a, Some b, Some c, Some d => Some (a * 4096 + b * 256 + c * 16 + d)
  | _, _, _, _ => None
  end.

(** The character a backslash and [e] stand for ([\u] apart). *)
Definition unescape (e : Z) : option Z :=
  if e =? 34 then Some 34
  else if e =? 92 then Some 92
  else if e =? 47 then Some 47
  else if e =? 98 then Some 8
  else if e =? 102 then Some 12
  else if e =? 110 then Some 10
  else if e =? 114 then Some 13
  else if e =? 116 then Some 9
  else None.

Definition push_char (c : Z) (o : option (text * text)) : option (text * text) :=
  omap (fun p => (c :: fst p, snd p)) o.

(** [scanstring], from the character after the opening quote: the decoded
    string and what follows the closing quote.  A [\uXXXX] high surrogate
    directly followed by a [\uXXXX] low surrogate is one character. *)
Fixpoint scanstring (s : text) : option (text * text) :=
  match s with
  | [] => None
  | c :: r =>
      if c =? 34 then Some ([], r)
      else if c =? 92 then
        match r with
        | [] => None
        | e :: r1 =>
            if e =? 117 then
              match r1 with
              | h1 :: h2 :: h3 :: h4 :: r2 =>
                  match hex4_value h1 h2 h3 h4 with
                  | None => None
                  | Some u =>
                      if is_high_surrogate u then
                        match r2 with
                        | b :: u' :: g1 :: g2 :: g3 :: g4 :: r3 =>
                            if (b =? 92) && (u' =? 117) then
                              match hex4_value g1 g2 g3 g4 with
                              | None => None
                              | Some u2 =>
                                  if is_low_surrogate u2
                                  then push_char
                                         (65536 + (u - 55296) * 1024 + (u2 - 56320))
                                         (scanstring r3)
                                  else push_char u (scanstring r2)
                              end
                            else push_char u (scanstring r2)
                        | _ => push_char u (scanstring r2)
                        end
                      else push_char u (scanstring r2)
                  end
              | _ => None
              end
            else
              match unescape e with
              | Some c' => push_char c' (scanstring r1)
              | None => None
              end
        end
      else if c <? 32 then None
      else push_char c (scanstring r)
  end.

Fixpoint span_digits (s : text) : text * text :=
  match s with
  | c :: r =>
      if is_digit c
      then let (ds, r') := span_digits r in (c :: ds, r')
      else ([], s)
  | [] => ([], [])
  end.

Definition digits_value (ds : text) : Z :=
  fold_left (fun a d => 10 * a + (d - 48)) ds 0.

(** The parts of a number literal: [-?], [0|[1-9][0-9]*], [(\.[0-9]+)?],
    [([eE][-+]?[0-9]+)?]; each scanner returns what it matched and the
    rest. *)
Definition scan_sign (s : text) : text * text :=
  match s with
  | c :: r => if c =? 45 then ([45], r) else ([], s)
  | [] => ([], s)
  end.

Definition scan_int (s : text) : option (text * text) :=
  match s with
  | d :: r =>
      if d =? 48 then Some ([48], r)
      else if is_digit d
      then let (ds, r') := span_digits r in Some (d :: ds, r')
      else None
  | [] => None
  end.

Definition scan_frac (s : text) : text * text :=
  match s with
  | p :: r =>
      if p =? 46 then
        match span_digits r with
        | ([], _) => ([], s)
        | (ds, r') => (p :: ds, r')
        end
      else ([], s)
  | [] => ([], s)
  end.

Definition scan_exp (s : text) : text * text :=
  match s with
  | e :: r =>
      if (e =? 101) || (e =? 69) then
        let (sg, r1) :=
          match r with
          | c :: r' => if (c =? 43) || (c =? 45) then ([c], r') else ([], r)
          | [] => ([], r)
          end in
        match span_digits r1 with
        | ([], _) => ([], s)
        | (ds, r') => (e :: sg ++ ds, r')
        end
      else ([], s)
  | [] => ([], s)
  end.

(** A number: an int when the literal has neither fraction nor exponent,
    a float otherwise.  The int is built by [int(...)], which the digit
    limit can refuse. *)
Definition match_number (lim : limits) (s : text) : result (pyval * text) :=
  let (sg, s1) := scan_sign s in
  match scan_int s1 with
  | None => Raise JSONDecodeError
  | Some (int, s2) =>
      let (frac, s3) := scan_frac s2 in
      let (exp, s4) := scan_exp s3 in
      match frac ++ exp with
      | [] =>
          if over_digit_limit lim (len int) (len int) then Raise ValueError
          else Ok (PInt (match sg with
                         | [] => digits_value int
                         | _ => - digits_value int
                         end), s4)
      | _ => Ok (PFloat (FLit (sg ++ int ++ frac ++ exp)), s4)
      end
  end.

Fixpoint strip_prefix (p s : text) : option text :=
  match p with
  | [] => Some s
  | a :: p' =>
      match s with
      | c :: r => if c =? a then strip_prefix p' r else None
      | [] => None
      end
  end.

Fixpoint text_eqb (a b : text) : bool :=
  match a, b with
  | [], [] => true
  | x :: a', y :: b' => (x =? y) && text_eqb a' b'
  | _, _ => false
  end.

(** Whether the dict key [k'] is the str [k]. *)
Definition key_is (k : text) (k' : pyval) : bool :=
  match k' with
  | PStr s => text_eqb s k
  | _ => false
  end.

(** [d[k] = v] for a str key: a key already present keeps its place and
    takes the new value. *)
Fixpoint dict_set (d : list (pyval * pyval)) (k : text) (v : pyval)
  : list (pyval * pyval) :=
  match d with
  | [] => [(PStr k, v)]
  | (k', v') :: r =>
      if key_is k k' then (k', v) :: r else (k', v') :: dict_set r k v
  end.

Definition dict_of_pairs (pairs : list (text * pyval)) : list (pyval * pyval) :=
  fold_left (fun d kv => dict_set d (fst kv) (snd kv)) pairs [].

(** The exception of a syntax error that the scanner reports through
    [raise_errmsg]: it builds the [JSONDecodeError] where it is, with
    [depth] nested calls left, and building it takes three (the call of
    the class, its [__init__], and a call inside it); [RecursionError]
    when they are not there.  The error "Expecting value" is not of this
    kind: the scanner signals it with a [StopIteration], and [raw_decode]
    raises the [JSONDecodeError] once the scanner has returned. *)
Definition errmsg (depth : nat) : exn :=
  match depth with
  | S (S (S _)) => JSONDecodeError
  | _ => RecursionError
  end.

(** One of [null], [true], [false]: the value [w] when the text starts
    with [p]. *)
Definition literal (w : pyval) (p s : text) : result (pyval * text) :=
  match strip_prefix p s with
  | Some r => Ok (w, r)
  | None => Raise JSONDecodeError
  end.

(** One of [NaN], [Infinity], [-Infinity]: the scanner gets the float from
    a call of [parse_constant], which takes one nested call. *)
Definition constant (depth : nat) (w : pyval) (r : text)
  : result (pyval * text) :=
  match depth with
  | O => Raise RecursionError
  | S _ => Ok (w, r)
  end.

(** A value that is neither an array nor an object: a string, one of the
    constants, or a number. *)
Definition scan_scalar (lim : limits) (depth : nat) (s : text)
  : result (pyval * text) :=
  match s with
  | [] => Raise JSONDecodeError
  | c :: r =>
      if c =? 34 then
        match scanstring r with
        | Some (str, r') => Ok (PStr str, r')
        | None => Raise (errmsg depth)
        end
      else if c =? 110 then literal PNone txt_null s
      else if c =? 116 then literal (PBool true) txt_true s
      else if c =? 102 then literal (PBool false) txt_false s
      else if c =? 78 then
        match strip_prefix txt_NaN s with
        | Some r' => constant depth (PFloat FNaN) r'
        | None => Raise JSONDecodeError
        end
      else if c =? 73 then
        match strip_prefix txt_Infinity s with
        | Some r' => constant depth (PFloat (FInf false)) r'
        | None => Raise JSONDecodeError
        end
      else
        match strip_prefix txt_neg_Infinity s with
        | Some r' => constant depth (PFloat (FInf true)) r'
        | None => match_number lim s
        end
  end.

(** What a scanner yields: what it read and the text after it, or the
    exception it raised; [None] when the fuel ran out. *)
Definition scanned (A : Type) := option (result (A * text)).

Definition scan_map {A B} (f : A -> B) (o : scanned A) : scanned B :=
  match o with
  | Some (Ok (a, r)) => Some (Ok (f a, r))
  | Some (Raise e) => Some (Raise e)
  | None => None
  end.

(** [scan_once]: one JSON value at the head of [s] and the text after it.
    [parse_elements] reads the elements of an array from its first element
    up to the closing bracket, [parse_members] the members of an object
    from the quote of its first key up to the closing brace.  [depth] is
    the number of nested calls left, one for each container entered: an
    opening bracket or brace met when it is 0 raises [RecursionError].
    The recursion is on [fuel], one unit a call. *)
Fixpoint scan_once (lim : limits) (fuel depth : nat) (s : text) {struct fuel}
  : scanned pyval :=
  match fuel with
  | O => None
  | S fuel =>
      match s with
      | [] => Some (Raise JSONDecodeError)
      | c :: r =>
          if c =? 123 then
            match depth with
            | O => Some (Raise RecursionError)
            | S depth =>
                match skip_ws r with
                | c' :: r' =>
                    if c' =? 125 then Some (Ok (PDict [], r'))
                    else scan_map (fun pairs => PDict (dict_of_pairs pairs))
                                  (parse_members lim fuel depth (c' :: r'))
                | [] => Some (Raise (errmsg depth))
                end
            end
          else if c =? 91 then
            match depth with
            | O => Some (Raise RecursionError)
            | S depth =>
                match skip_ws r with
                | c' :: r' =>
                    if c' =? 93 then Some (Ok (PList [], r'))
                    else scan_map PList (parse_elements lim fuel depth (c' :: r'))
                | [] => Some (Raise JSONDecodeError)
                end
            end
          else Some (scan_scalar lim depth s)
      end
  end
with parse_elements (lim : limits) (fuel depth : nat) (s : text) {struct fuel}
  : scanned (list pyval) :=
  match fuel with
  | O => None
  | S fuel =>
      match scan_once lim fuel depth s with
      | None => None
      | Some (Raise e) => Some (Raise e)
      | Some (Ok (v, r)) =>
          match skip_ws r with
          | c :: r' =>
              if c =? 93 then Some (Ok ([v], r'))
              else if c =? 44 then
                scan_map (cons v) (parse_elements lim fuel depth (skip_ws r'))
              else Some (Raise (errmsg depth))
          | [] => Some (Raise (errmsg depth))
          end
      end
  end
with parse_members (lim : limits) (fuel depth : nat) (s : text) {struct fuel}
  : scanned (list (text * pyval)) :=
  match fuel with
  | O => None
  | S fuel =>
      match s with
      | q :: r =>
          if q =? 34 then
            match scanstring r with
            | None => Some (Raise (errmsg depth))
            | Some (key, r1) =>
                match skip_ws r1 with
                | col :: r2 =>
                    if col =? 58 then
                      match scan_once lim fuel depth (skip_ws r2) with
                      | None => None
                      | Some (Raise e) => Some (Raise e)
                      | Some (Ok (v, r3)) =>
                          match skip_ws r3 with
                          | c :: r4 =>
                              if c =? 125 then Some (Ok ([(key, v)], r4))
                              else if c =? 44 then
                                scan_map (cons (key, v))
                                         (parse_members lim fuel depth (skip_ws r4))
                              else Some (Raise (errmsg depth))
                          | [] => Some (Raise (errmsg depth))
                          end
                      end
                    else Some (Raise (errmsg depth))
                | [] => Some (Raise (errmsg depth))
                end
            end
          else Some (Raise (errmsg depth))
      | [] => Some (Raise (errmsg depth))
      end
  end.

(** [json.loads(s)]: white space, one value, white space, end of text.
    The fuel covers every call the text can cause: [scan_once] does not
    run out of it (lemma [json_loads_fuel]). *)
Definition loads_fuel (s : text) : nat := (2 * length s + 2)%nat.

Definition json_loads (lim : limits) (s : text) : result pyval :=
  match scan_once lim (loads_fuel s) (S (loads_depth lim)) (skip_ws s) with
  | Some (Ok (v, r)) =>
      match skip_ws r with
      | [] => Ok v
      | _ => Raise JSONDecodeError
      end
  | Some (Raise e) => Raise e
  | None => Raise JSONDecodeError
  end.

(** [data.get(k)]: the value under the str key [k], [None] when the dict has
    no such key; a value that is not a dict has no [get]. *)
Definition dict_get (d : list (pyval * pyval)) (k : text) : pyval :=
  match find (fun kv => key_is k (fst kv)) d with
  | Some kv => snd kv
  | None => PNone
  end.

Definition py_get (data : pyval) (k : text) : result pyval :=
  match data with
  | PDict d => Ok (dict_get d k)
  | _ => Raise AttributeError
  end.

Section Host.

(** The byte order of the machine, the text [float.__repr__] prints for
    the float a number literal denotes, and the limits of the interpreter. *)
Variable native : byte_order.
Variable float_repr : text -> text.
Variable lim : limits.

Definition floatstr (f : pyfloat) : text :=
  match f with
  | FNaN => txt_NaN
  | FInf false => txt_Infinity
  | FInf true => txt_neg_Infinity
  | FLit lit => float_repr lit
  end.

(** A dict key as [json.dumps] writes it: a str as it is, the other basic
    types converted; any other key is a [TypeError]. *)
Definition key_text (k : pyval) : result text :=
  match k with
  | PStr s => Ok s
  | PFloat f => Ok (floatstr f)
  | PBool true => Ok txt_true
  | PBool false => Ok txt_false
  | PNone => Ok txt_null
  | PInt n => int_str lim n
  | _ => Raise TypeError
  end.

(** The encoder.  [depth] is the number of nested calls left, one for
    each container entered: a list, tuple or dict met when it is 0 raises
    [RecursionError].  A value of another type goes to [default], whose
    call and [TypeError] take two nested calls.  The items of a container
    are written in order, so the exception raised is that of the first
    item that fails. *)
Fixpoint json_dumps (depth : nat) (v : pyval) {struct v} : result text :=
  match v with
  | PNone => Ok txt_null
  | PBool true => Ok txt_true
  | PBool false => Ok txt_false
  | PInt n => int_str lim n
  | PFloat f => Ok (floatstr f)
  | PStr s => Ok (encode_basestring_ascii s)
  | PBytes _ =>
      match depth with
      | S (S _) => Raise TypeError
      | _ => Raise RecursionError
      end
  | PList l | PTuple l =>
      match depth with
      | O => Raise RecursionError
      | S depth =>
          t <- join_items (map (json_dumps depth) l) ;;
          Ok (91 :: t ++ [93])
      end
  | PDict d =>
      match depth with
      | O => Raise RecursionError
      | S depth =>
          t <- join_items
                 (map (fun kv =>
                         match kv with
                         | (k, x) =>
                             kt <- key_text k ;;
                             t <- json_dumps depth x ;;
                             Ok (encode_basestring_ascii kt ++ 58 :: 32 :: t)
                         end) d) ;;
          Ok (123 :: t ++ [125])
      end
  end.

(** ** [send_message] (test-host.py, lines 10-14)

    The frame is appended to what stdout holds; when one of the calls
    raises, nothing has been written yet. *)
Definition send_message (message : pyval) (stdout : bytes) : result bytes :=
  s <- json_dumps (S (dumps_depth lim)) message ;;
  encoded <- str_encode s ;;
  prefix <- struct_pack_I native (len encoded) ;;
  Ok (stdout ++ prefix ++ encoded).

(** ** The host process (test-host.py)

    The state of a run: what is left to read on stdin, what has been
    written to stdout, and the lines appended to the log file. *)

Inductive log_line :=
| LogStarting            (* "Python host starting..." *)
| LogSentReady           (* "Sent HOST_READY, waiting for messages..." *)
| LogReceived (data : pyval)
| LogError (e : exn)
| LogExiting.            (* "Host exiting" *)

Record host_state := mk_state {
  stdin : bytes;
  stdout : bytes;
  log : list log_line
}.

(** A statement either yields a value or raises, and leaves a state. *)
Definition M (A : Type) := host_state -> result A * host_state.

Definition ret {A} (a : A) : M A := fun st => (Ok a, st).

Definition raise {A} (e : exn) : M A := fun st => (Raise e, st).

Definition mbind {A B} (m : M A) (k : A -> M B) : M B :=
  fun st =>
    match m st with
    | (Ok a, st') => k a st'
    | (Raise e, st') => (Raise e, st')
    end.

Notation "x <~ m ;; k" := (mbind m (fun x => k))
  (at level 61, m at next level, right associativity).

Definition lift {A} (r : result A) : M A := fun st => (r, st).

(** [try: body except Exception as e: handler(e)] *)
Definition try_except {A} (body : M A) (handler : exn -> M A) : M A :=
  fun st =>
    match body st with
    | (Ok a, st') => (Ok a, st')
    | (Raise e, st') => handler e st'
    end.

Definition stdin_read (n : Z) : M bytes :=
  fun st =>
    let (got, rest) := read n (stdin st) in
    (Ok got, mk_state rest (stdout st) (log st)).

(** Appending a line to the log file. *)
Definition log_write (l : log_line) : M unit :=
  fun st => (Ok tt, mk_state (stdin st) (stdout st) (log st ++ [l])).

(** Lines 31-32: [f.write(f"Received: {data}\n")].  The text of a value
    other than a str is its [repr], which is printable ASCII and the
    printable characters of its strs, but a str is written as it is, and
    a surrogate in it cannot be encoded: the write raises
    [UnicodeEncodeError] and the file gets no line. *)
Definition log_received (data : pyval) : M unit :=
  match data with
  | PStr s =>
      if existsb is_surrogate s then raise UnicodeEncodeError
      else log_write (LogReceived data)
  | _ => log_write (LogReceived data)
  end.

Definition stdout_send (message : pyval) : M unit :=
  fun st =>
    match send_message message (stdout st) with
    | Ok out => (Ok tt, mk_state (stdin st) out (log st))
    | Raise e => (Raise e, st)
    end.

(** Lines 25-30: what the loop reads as one message. *)
Inductive decoded :=
| EndOfStream
| Message (data : pyval).

Definition decode : M decoded :=
  length_bytes <~ stdin_read 4 ;;
  if len length_bytes =? 0 then ret EndOfStream
  else
    length <~ lift (struct_unpack_I native length_bytes) ;;
    payload <~ stdin_read length ;;
    message <~ lift (bytes_decode payload) ;;
    data <~ lift (json_loads lim message) ;;
    ret (Message data).

Definition host_ready : pyval := PDict [(PStr txt_type, PStr txt_HOST_READY)].

Definition reply (id : pyval) : pyval :=
  PDict [(PStr txt_id, id); (PStr txt_success, PBool true)].

Inductive flow := Continue | Break.

(** Lines 24-38: one turn of [while True]. *)
Definition loop_body : M flow :=
  try_except
    (d <~ decode ;;
     match d with
     | EndOfStream => ret Break
     | Message data =>
         _ <~ log_received data ;;
         id <~ lift (py_get data txt_id) ;;
         _ <~ stdout_send (reply id) ;;
         ret Continue
     end)
    (fun e => _ <~ log_write (LogError e) ;; ret Break).

(** Lines 23-38.  [None] when the fuel runs out; lemma [read_loop_spec]
    shows that the fuel [run] gives never does. *)
Fixpoint read_loop (fuel : nat) (st : host_state)
  : option (result unit * host_state) :=
  match fuel with
  | O => None
  | S fuel =>
      match loop_body st with
      | (Ok Continue, st') => read_loop fuel st'
      | (Ok Break, st') => Some (Ok tt, st')
      | (Raise e, st') => Some (Raise e, st')
      end
  end.

(** The whole script, started on the bytes its stdin will deliver. *)
Definition run (input : bytes) : option (result unit * host_state) :=
  match (_ <~ log_write LogStarting ;;
         _ <~ stdout_send host_ready ;;
         log_write LogSentReady) (mk_state input [] []) with
  | (Ok _, st) =>
      match read_loop (S (length input)) st with
      | Some (Ok _, st') => Some (log_write LogExiting st')
      | other => other
      end
  | (Raise e, st) => Some (Raise e, st)
  end.

End Host.

(** ** The launcher (host-wrapper.py)

    What the operating system does with the launcher's requests: starting
    the child fails ([Popen] raises [OSError]), or the child runs and
    terminates with a return code, which [proc.wait()] returns. *)

Inductive child_outcome :=
| SpawnFails
| ChildExits (returncode : Z).

(** What [proc.wait()] returns (line 15). *)
Definition proc_wait (o : child_outcome) : option Z :=
  match o with
  | SpawnFails => None
  | ChildExits rc => Some rc
  end.

(** The exit status of the launcher: 1 when an exception ends the script,
    and 0 when the script runs to its end: line 15 is an expression
    statement, its value is dropped, and no [sys.exit] follows. *)
Definition host_wrapper (o : child_outcome) : Z :=
  match proc_wait o with
  | None => 1
  | Some _ => 0
  end.

(** ** Texts used in the statements *)

(** The 22 bytes of the text [{"type": "HOST_READY"}]. *)
Definition ready_payload : bytes :=
  [123; 34; 116; 121; 112; 101; 34; 58; 32;
   34; 72; 79; 83; 84; 95; 82; 69; 65; 68; 89; 34; 125].

(** The frame [send_message] writes for [{"type": "HOST_READY"}]. *)
Definition ready_frame (native : byte_order) : bytes :=
  in_order native [22; 0; 0; 0] ++ ready_payload.

(** The texts [{"id": ] and [, "success": true}] around the id of a reply. *)
Definition reply_head : text := [123; 34; 105; 100; 34; 58; 32].
Definition reply_tail : text :=
  [44; 32; 34; 115; 117; 99; 99; 101; 115; 115; 34; 58; 32;
   116; 114; 117; 101; 125].

(** A str of 2^32 letters [a]: a message whose JSON text does not fit the
    4-byte prefix. *)
Definition oversize_message : pyval := PStr (repeat 97 (Z.to_nat 4294967296)).

Definition is_ascii (c : Z) : Prop := 0 <= c < 128.

(** ** Induction on values, through the lists that lists, tuples and dicts
    hold *)

Section PyvalInduction.

Variable P : pyval -> Prop.
Hypothesis HNone : P PNone.
Hypothesis HBool : forall b, P (PBool b).
Hypothesis HInt : forall n, P (PInt n).
Hypothesis HFloat : forall f, P (PFloat f).
Hypothesis HStr : forall s, P (PStr s).
Hypothesis HBytes : forall b, P (PBytes b).
Hypothesis HList : forall l, Forall P l -> P (PList l).
Hypothesis HTuple : forall l, Forall P l -> P (PTuple l).
Hypothesis HDict :
  forall d, Forall (fun kv => P (fst kv) /\ P (snd kv)) d -> P (PDict d).

Fixpoint pyval_ind (v : pyval) : P v :=
  match v with
  | PNone => HNone
  | PBool b => HBool b
  | PInt n => HInt n
  | PFloat f => HFloat f
  | PStr s => HStr s
  | PBytes b => HBytes b
  | PList l =>
      HList l ((fix all (l : list pyval) : Forall P l :=
                  match l with
                  | [] => Forall_nil P
                  | x :: r => Forall_cons x (pyval_ind x) (all r)
                  end) l)
  | PTuple l =>
      HTuple l ((fix all (l : list pyval) : Forall P l :=
                   match l with
                   | [] => Forall_nil P
                   | x :: r => Forall_cons x (pyval_ind x) (all r)
                   end) l)
  | PDict d =>
      HDict d ((fix all (d : list (pyval * pyval))
                  : Forall (fun kv => P (fst kv) /\ P (snd kv)) d :=
                  match d with
                  | [] => Forall_nil _
                  | (k, x) :: r =>
                      Forall_cons (k, x) (conj (pyval_ind k) (pyval_ind x)) (all r)
                  end) d)
  end.

End PyvalInduction.

(** ** Classes of values *)

Definition is_codepoint (c : Z) : bool := (0 <=? c) && (c <=? 1114111).

Definition codepoints (s : text) : bool := forallb is_codepoint s.

(** The values [json.loads] builds: no tuple, no bytes, str keys only, and
    every str a sequence of code points. *)
Fixpoint loaded (v : pyval) : bool :=
  match v with
  | PNone | PBool _ | PInt _ | PFloat _ => true
  | PStr s => codepoints s
  | PList l => forallb loaded l
  | PDict d =>
      forallb (fun kv => match kv with
                         | (PStr k, x) => codepoints k && loaded x
                         | _ => false
                         end) d
  | PBytes _ | PTuple _ => false
  end.

(** A str (code points only) in which no high surrogate is directly
    followed by a low surrogate. *)
Fixpoint str_ok (s : text) : bool :=
  match s with
  | [] => true
  | c :: r =>
      is_codepoint c
      && negb (is_high_surrogate c
               && match r with
                  | c' :: _ => is_low_surrogate c'
                  | [] => false
                  end)
      && str_ok r
  end.

(** The keys of a dict are pairwise different strs. *)
Fixpoint distinct_keys (d : list (pyval * pyval)) : bool :=
  match d with
  | [] => true
  | (k, _) :: r =>
      match k with
      | PStr s => forallb (fun kv => negb (key_is s (fst kv))) r
      | _ => false
      end && distinct_keys r
  end.

(** The values of the JSON data model as Python holds them: [None], bools,
    ints, strs, lists, and dicts with str keys; no float, tuple or bytes. *)
Fixpoint json_native (v : pyval) : bool :=
  match v with
  | PNone | PBool _ | PInt _ => true
  | PStr s => str_ok s
  | PList l => forallb json_native l
  | PDict d =>
      forallb (fun kv => match kv with
                         | (PStr k, x) => str_ok k && json_native x
                         | _ => false
                         end) d
      && distinct_keys d
  | PFloat _ | PBytes _ | PTuple _ => false
  end.

(** ** The JSON grammar (RFC 8259)

    The texts of the grammar, as predicates on texts.  With [ext] the
    grammar also has the three constants [json.loads] accepts beyond the
    RFC: [NaN], [Infinity] and [-Infinity]. *)

Definition all_ws (w : text) : Prop := Forall (fun c => is_ws c = true) w.

Definition is_hex (c : Z) : Prop :=
  48 <= c <= 57 \/ 97 <= c <= 102 \/ 65 <= c <= 70.

Definition all_digits (ds : text) : Prop := Forall (fun c => 48 <= c <= 57) ds.

(** The characters between the quotes of a string. *)
Inductive json_chars : text -> Prop :=
| chars_nil : json_chars []
| chars_plain c k :
    32 <= c -> c <> 34 -> c <> 92 -> json_chars k -> json_chars (c :: k)
| chars_escape e k :
    In e [34; 92; 47; 98; 102; 110; 114; 116] ->
    json_chars k -> json_chars (92 :: e :: k)
| chars_unicode h1 h2 h3 h4 k :
    is_hex h1 -> is_hex h2 -> is_hex h3 -> is_hex h4 ->
    json_chars k -> json_chars (92 :: 117 :: h1 :: h2 :: h3 :: h4 :: k).

Inductive json_int : text -> Prop :=
| int_zero : json_int [48]
| int_digits d ds : 49 <= d <= 57 -> all_digits ds -> json_int (d :: ds).

Inductive json_frac : text -> Prop :=
| frac_none : json_frac []
| frac_digits ds : ds <> [] -> all_digits ds -> json_frac (46 :: ds).

Inductive json_exp : text -> Prop :=
| exp_none : json_exp []
| exp_digits e sg ds :
    e = 101 \/ e = 69 ->
    sg = [] \/ sg = [43] \/ sg = [45] ->
    ds <> [] -> all_digits ds -> json_exp (e :: sg ++ ds).

Inductive json_number : text -> Prop :=
| number_parts sg i f e :
    sg = [] \/ sg = [45] ->
    json_int i -> json_frac f -> json_exp e ->
    json_number (sg ++ i ++ f ++ e).

Inductive json_value (ext : bool) : text -> Prop :=
| value_null : json_value ext txt_null
| value_true : json_value ext txt_true
| value_false : json_value ext txt_false
| value_constant t :
    ext = true -> In t [txt_NaN; txt_Infinity; txt_neg_Infinity] ->
    json_value ext t
| value_number n : json_number n -> json_value ext n
| value_string k : json_chars k -> json_value ext (34 :: k ++ [34])
| value_array_empty w : all_ws w -> json_value ext (91 :: w ++ [93])
| value_array w es :
    all_ws w -> json_elements ext es -> json_value ext (91 :: w ++ es ++ [93])
| value_object_empty w : all_ws w -> json_value ext (123 :: w ++ [125])
| value_object w ms :
    all_ws w -> json_members ext ms -> json_value ext (123 :: w ++ ms ++ [125])
with json_elements (ext : bool) : text -> Prop :=
| elements_last v w : json_value ext v -> all_ws w -> json_elements ext (v ++ w)
| elements_more v w1 w2 es :
    json_value ext v -> all_ws w1 -> all_ws w2 -> json_elements ext es ->
    json_elements ext (v ++ w1 ++ 44 :: w2 ++ es)
with json_members (ext : bool) : text -> Prop :=
| members_last k w1 w2 v w3 :
    json_chars k -> all_ws w1 -> all_ws w2 -> json_value ext v -> all_ws w3 ->
    json_members ext (34 :: k ++ 34 :: w1 ++ 58 :: w2 ++ v ++ w3)
| members_more k w1 w2 v w3 w4 ms :
    json_chars k -> all_ws w1 -> all_ws w2 -> json_value ext v -> all_ws w3 ->
    all_ws w4 -> json_members ext ms ->
    json_members ext (34 :: k ++ 34 :: w1 ++ 58 :: w2 ++ v ++ w3 ++ 44 :: w4 ++ ms).

(** A JSON text: a value with white space around it. *)
Definition json_text (ext : bool) (s : text) : Prop :=
  exists w1 v w2, s = w1 ++ v ++ w2 /\ all_ws w1 /\ json_value ext v /\ all_ws w2.

(** ** Auxiliary predicates and texts for the properties below *)

(** Printable ASCII apart from the quote and the backslash: the characters
    [json.dumps] writes as they are. *)
Definition plain (c : Z) : Prop := 32 <= c <= 126 /\ c <> 34 /\ c <> 92.

(** The text after a [\uXXXX] escape does not go on with the escape of a
    low surrogate. *)
Definition no_low_escape (tail : text) : Prop :=
  forall g1 g2 g3 g4 r3,
    tail = 92 :: 117 :: g1 :: g2 :: g3 :: g4 :: r3 ->
    exists u2, hex4_value g1 g2 g3 g4 = Some u2 /\ is_low_surrogate u2 = false.

Definition digit_stop (rest : text) : Prop :=
  match rest with
  | c :: _ => is_digit c = false
  | [] => True
  end.

(** The text after a number does not go on with a digit, a fraction or an
    exponent. *)
Definition number_stop (rest : text) : Prop :=
  match rest with
  | c :: _ => is_digit c = false /\ c <> 46 /\ c <> 101 /\ c <> 69
  | [] => True
  end.

Definition str_item (p : text * pyval) : pyval * pyval := (PStr (fst p), snd p).

(** The first character of a text is neither white space nor a closing
    bracket or brace. *)
Definition head_ok (t : text) : Prop :=
  exists c t', t = c :: t' /\ is_ws c = false /\ c <> 93 /\ c <> 125.

(** The text [json.dumps] writes for one item of a dict. *)
Definition member_dumps (float_repr : text -> text) (lim : limits)
    (depth : nat) (kv : pyval * pyval) : result text :=
  match kv with
  | (k, x) =>
      kt <- key_text float_repr lim k ;;
      t <- json_dumps float_repr lim depth x ;;
      Ok (encode_basestring_ascii kt ++ 58 :: 32 :: t)
  end.

(** Whenever [json.dumps] writes a text for [v], the text is ASCII, and
    [scan_once] reads [v] back from it whatever follows, given enough fuel
    and at least the depth the encoder had. *)
Definition reads_back (float_repr : text -> text) (lim : limits) (v : pyval)
  : Prop :=
  forall depth t,
    json_dumps float_repr lim depth v = Ok t ->
    Forall is_ascii t
    /\ head_ok t
    /\ exists F,
         forall f depth' rest,
           (F <= f)%nat -> (depth <= depth')%nat -> number_stop rest ->
           scan_once lim f depth' (t ++ rest) = Some (Ok (v, rest)).

(** More fuel does not change what a scanner yields. *)
Definition fuel_monotone {A} (scan : nat -> nat -> text -> scanned A) (f : nat)
  : Prop :=
  forall depth s r,
    scan f depth s = Some r ->
    forall f', (f <= f')%nat -> scan f' depth s = Some r.

(** With fuel beyond [2 * length s + extra] a scanner yields a result on
    [s], and what it leaves is shorter than [s]. *)
Definition fuel_enough {A} (scan : nat -> nat -> text -> scanned A)
    (extra f : nat) : Prop :=
  forall depth s,
    (2 * length s + extra <= f)%nat ->
    exists r,
      scan f depth s = Some r
      /\ forall a rest, r = Ok (a, rest) -> (length rest < length s)%nat.

Definition item_loaded (p : text * pyval) : bool :=
  codepoints (fst p) && loaded (snd p).

(** What a scanner accepts is a text of the grammar followed by [closing],
    and what it builds from code points is [good]. *)
Definition sound {A} (scan : nat -> nat -> text -> scanned A)
    (closing : text) (grammar : text -> Prop) (good : A -> bool) (f : nat) : Prop :=
  forall depth s a r,
    scan f depth s = Some (Ok (a, r)) ->
    exists t,
      s = t ++ closing ++ r /\ grammar t
      /\ (codepoints s = true -> good a = true).

(** The limits of CPython 3.11 with its default settings: 4300 digits, and
    a recursion limit of 1000 that lets [send_message] write containers
    nested 994 deep and line 30 read them 995 deep. *)
Definition default_limits : limits := mk_limits 4300 993 1.

(** The frame of the request [{"id": 7}] followed by two stray bytes. *)
Definition sample_request : bytes :=
  [9; 0; 0; 0; 123; 34; 105; 100; 34; 58; 32; 55; 125; 1; 2].

(** The frames of replies: each is what [send_message] writes for
    [{"id": id, "success": true}] with some [id]. *)
Definition reply_frames (native : byte_order) (float_repr : text -> text)
    (lim : limits) (frames : list bytes) : Prop :=
  Forall (fun f => exists id, send_message native float_repr lim (reply id) [] = Ok f)
         frames.

(** The frame [send_message] writes for [v] (empty when it raises). *)
Definition frame_of (native : byte_order) (float_repr : text -> text)
    (lim : limits) (v : pyval) : bytes :=
  match send_message native float_repr lim v [] with
  | Ok f => f
  | Raise _ => []
  end.

(** A request the host can answer: an object of the JSON data model (no
    float in it) that [send_message] can write as a frame, and whose reply
    [send_message] can write as a frame. *)
Definition answerable (native : byte_order) (float_repr : text -> text)
    (lim : limits) (d : list (pyval * pyval)) : Prop :=
  json_native (PDict d) = true
  /\ (exists f, send_message native float_repr lim (PDict d) [] = Ok f)
  /\ (exists f, send_message native float_repr lim
                  (reply (dict_get d txt_id)) [] = Ok f).

Definition request_frames (native : byte_order) (float_repr : text -> text)
    (lim : limits) (reqs : list (list (pyval * pyval))) : bytes :=
  flat_map (fun d => frame_of native float_repr lim (PDict d)) reqs.

Definition answer_frames (native : byte_order) (float_repr : text -> text)
    (lim : limits) (reqs : list (list (pyval * pyval))) : bytes :=
  flat_map (fun d => frame_of native float_repr lim (reply (dict_get d txt_id)))
           reqs.

(** What line 32 and the handler leave in the log for a decoded message
    that is not a dict: the write of the Received line fails for a str
    with a surrogate, and [data.get] fails for the others. *)
Definition non_object_log (data : pyval) : list log_line :=
  match data with
  | PStr s =>
      if existsb is_surrogate s then [LogError UnicodeEncodeError]
      else [LogReceived data; LogError AttributeError]
  | _ => [LogReceived data; LogError AttributeError]
  end.

(** Every letter N of a text has a quote somewhere after it. *)
Fixpoint quote_after_N (t : text) : bool :=
  match t with
  | [] => true
  | c :: r => (negb (c =? 78) || existsb (Z.eqb 34) r) && quote_after_N r
  end.

(** The 11 bytes of the text [{"id": NaN}]. *)
Definition nan_payload : bytes :=
  [123; 34; 105; 100; 34; 58; 32; 78; 97; 78; 125].

(** * Properties *)

(** ** Streams and the length prefix *)

Lemma len_nonneg {A} (l : list A) : 0 <= len l.
Proof. unfold len. lia. Qed.

Lemma len_app {A} (a b : list A) : len (a ++ b) = len a + len b.
Proof. unfold len. rewrite length_app. lia. Qed.

Lemma len_cons {A} (x : A) (l : list A) : len (x :: l) = 1 + len l.
Proof. unfold len. simpl length. lia. Qed.

Lemma take_firstn n l : take n l = firstn (Z.to_nat n) l.
Proof.
  revert n. induction l as [|x l IH]; intros n; simpl.
  - now rewrite firstn_nil.
  - destruct (Z.leb_spec n 0) as [Hn|Hn].
    + replace (Z.to_nat n) with O by lia. reflexivity.
    + replace (Z.to_nat n) with (S (Z.to_nat (n - 1))) by lia.
      simpl. now rewrite IH.
Qed.

Lemma drop_skipn n l : drop n l = skipn (Z.to_nat n) l.
Proof.
  revert n. induction l as [|x l IH]; intros n; simpl.
  - now rewrite skipn_nil.
  - destruct (Z.leb_spec n 0) as [Hn|Hn].
    + replace (Z.to_nat n) with O by lia. reflexivity.
    + replace (Z.to_nat n) with (S (Z.to_nat (n - 1))) by lia.
      simpl. now rewrite IH.
Qed.

Lemma take_drop n l : take n l ++ drop n l = l.
Proof. rewrite take_firstn, drop_skipn. apply firstn_skipn. Qed.

Lemma read_app_exact a b : read (len a) (a ++ b) = (a, b).
Proof.
  unfold read, len. rewrite take_firstn, drop_skipn, Nat2Z.id.
  rewrite firstn_app, skipn_app, Nat.sub_diag, firstn_all, skipn_all.
  simpl. now rewrite app_nil_r.
Qed.

Lemma read_short n l : len l <= n -> read n l = (l, []).
Proof.
  unfold read, len. intros H. rewrite take_firstn, drop_skipn.
  rewrite firstn_all2, skipn_all2 by lia. reflexivity.
Qed.

Lemma read_4_short s : len s <= 3 -> read 4 s = (s, []).
Proof. intros H. apply read_short. lia. Qed.

Lemma in_order_length o b : length (in_order o b) = length b.
Proof. destruct o; simpl; [reflexivity | apply length_rev]. Qed.

Lemma in_order_involutive o b : in_order o (in_order o b) = b.
Proof. destruct o; simpl; [reflexivity | apply rev_involutive]. Qed.

Lemma unpack_length o b n : struct_unpack_I o b = Ok n -> length b = 4%nat.
Proof.
  unfold struct_unpack_I. intros H. rewrite <- (in_order_length o).
  destruct (in_order o b) as [|b0 [|b1 [|b2 [|b3 [|b4 r]]]]]; now inversion H.
Qed.

Lemma unpack_wrong_length o b : length b <> 4%nat -> struct_unpack_I o b = Raise StructError.
Proof.
  intros H. destruct (struct_unpack_I o b) as [n|e] eqn:E.
  - apply unpack_length in E. contradiction.
  - unfold struct_unpack_I in E.
    destruct (in_order o b) as [|b0 [|b1 [|b2 [|b3 [|b4 r]]]]]; congruence.
Qed.

Lemma le_bytes_value n :
  0 <= n < 4294967296 ->
  n mod 256 + 256 * ((n / 256) mod 256) + 65536 * ((n / 65536) mod 256)
  + 16777216 * ((n / 16777216) mod 256) = n.
Proof. intros H. Z.div_mod_to_equations. lia. Qed.

Lemma le_bytes_are_bytes n : Forall is_byte (le_bytes n).
Proof.
  unfold le_bytes, is_byte.
  repeat constructor; apply Z.mod_pos_bound; lia.
Qed.

Lemma pack_ok o n :
  0 <= n < 4294967296 -> struct_pack_I o n = Ok (in_order o (le_bytes n)).
Proof.
  intros H. unfold struct_pack_I.
  destruct (Z.leb_spec 0 n); destruct (Z.ltb_spec n 4294967296); simpl; try lia.
  reflexivity.
Qed.

Lemma pack_too_big o n : 4294967296 <= n -> struct_pack_I o n = Raise StructError.
Proof.
  intros H. unfold struct_pack_I.
  destruct (Z.ltb_spec n 4294967296); try lia. now rewrite andb_false_r.
Qed.

Lemma unpack_pack o n :
  0 <= n < 4294967296 -> struct_unpack_I o (in_order o (le_bytes n)) = Ok n.
Proof.
  intros H. unfold struct_unpack_I. rewrite in_order_involutive.
  unfold le_bytes. f_equal. now apply le_bytes_value.
Qed.

Lemma in_order_bytes o b : Forall is_byte b -> Forall is_byte (in_order o b).
Proof.
  destruct o; simpl; [trivial|]. intros H.
  apply Forall_forall. intros x Hx. apply in_rev in Hx.
  revert x Hx. now apply Forall_forall.
Qed.

(** ** The read loop on short streams *)

Section HostProperties.

Variable native : byte_order.
Variable float_repr : text -> text.
Variable lim : limits.

Lemma take_nil_inv n l : 0 < n -> take n l = [] -> l = [].
Proof.
  intros Hn. destruct l as [|x l]; simpl; [reflexivity|].
  destruct (Z.leb_spec n 0); [lia | discriminate].
Qed.

Lemma decode_end_of_stream_inv st st' :
  decode native lim st = (Ok EndOfStream, st') -> stdin st = [].
Proof.
  unfold decode, mbind, stdin_read, read, lift, ret.
  destruct (len (take 4 (stdin st)) =? 0) eqn:E.
  - intros _. apply Z.eqb_eq in E. apply (take_nil_inv 4); [lia|].
    unfold len in E. destruct (take 4 (stdin st)); [reflexivity | simpl in E; lia].
  - cbn [stdin stdout log].
    destruct (struct_unpack_I native (take 4 (stdin st))); [|discriminate].
    cbn [stdin stdout log].
    destruct (bytes_decode _); [|discriminate].
    destruct (json_loads _ _); discriminate.
Qed.

Lemma decode_short s out lg :
  1 <= len s <= 3 ->
  decode native lim (mk_state s out lg) = (Raise StructError, mk_state [] out lg).
Proof.
  intros H. unfold decode, mbind, stdin_read. cbn [stdin stdout log].
  rewrite read_4_short by lia.
  destruct (Z.eqb_spec (len s) 0); [lia|].
  unfold lift. rewrite unpack_wrong_length; [reflexivity|].
  unfold len in H. lia.
Qed.

Lemma send_host_ready out :
  send_message native float_repr lim host_ready out = Ok (out ++ ready_frame native).
Proof. destruct native; reflexivity. Qed.

Lemma run_prelude input :
  run native float_repr lim input =
  match read_loop native float_repr lim (S (length input))
          (mk_state input (ready_frame native) [LogStarting; LogSentReady]) with
  | Some (Ok _, st') => Some (log_write LogExiting st')
  | other => other
  end.
Proof.
  unfold run, mbind, log_write, stdout_send. cbn [stdin stdout log app].
  rewrite send_host_ready. reflexivity.
Qed.

(** C4: on a stream that is closed with no byte to read, [decode] yields
    [EndOfStream] and leaves the state as it was (nothing consumed, nothing
    written, no error logged); the loop breaks, and the run of the host
    ends normally with only the HOST_READY frame written. *)
Theorem decode_empty_stream (out : bytes) (lg : list log_line) :
  decode native lim (mk_state [] out lg) = (Ok EndOfStream, mk_state [] out lg)
  /\ loop_body native float_repr lim (mk_state [] out lg)
     = (Ok Break, mk_state [] out lg)
  /\ run native float_repr lim []
     = Some (Ok tt, mk_state [] (ready_frame native)
                             [LogStarting; LogSentReady; LogExiting]).
Proof.
  split; [reflexivity|]. split; [reflexivity|].
  rewrite run_prelude. reflexivity.
Qed.

(** C9: when the stream closes after 1 to 3 bytes, the 4-byte unpack
    raises [struct.error]: [decode] fails, the loop logs the error and
    breaks, writing nothing; [EndOfStream] comes only from a stream with no
    byte left. *)
Theorem decode_partial_prefix (s out : bytes) (lg : list log_line) :
  1 <= len s <= 3 ->
  decode native lim (mk_state s out lg) = (Raise StructError, mk_state [] out lg)
  /\ loop_body native float_repr lim (mk_state s out lg)
     = (Ok Break, mk_state [] out (lg ++ [LogError StructError]))
  /\ (forall st st', decode native lim st = (Ok EndOfStream, st') -> stdin st = []).
Proof.
  intros H. split; [now apply decode_short|]. split.
  - unfold loop_body, try_except, mbind. now rewrite decode_short.
  - apply decode_end_of_stream_inv.
Qed.

End HostProperties.

Lemma decode_partial_prefix_witness :
  1 <= len [123; 125] <= 3
  /\ decode LittleEndian default_limits (mk_state [123; 125] [] [])
     = (Raise StructError, mk_state [] [] []).
Proof.
  assert (H : 1 <= len [123; 125] <= 3) by (unfold len; simpl; lia).
  split; [exact H|].
  apply (decode_partial_prefix LittleEndian (fun t => t) default_limits
           [123; 125] [] [] H).
Defined.

(** ** ASCII text and UTF-8 *)

Lemma utf8_encode_ascii s : Forall is_ascii s -> utf8_encode s = Some s.
Proof.
  induction 1 as [|c s Hc _ IH]; [reflexivity|].
  simpl. rewrite IH. unfold utf8_encode_char, is_ascii in *.
  destruct (Z.leb_spec 0 c); destruct (Z.ltb_spec c 128); simpl; try lia.
  reflexivity.
Qed.

Lemma utf8_decode_ascii s : Forall is_ascii s -> utf8_decode s = Some s.
Proof.
  induction 1 as [|c s Hc _ IH]; [reflexivity|].
  simpl. rewrite IH. unfold is_ascii in *.
  destruct (Z.leb_spec 0 c); destruct (Z.ltb_spec c 128); simpl; try lia.
  reflexivity.
Qed.

(** ** [send_message] *)

Section SendMessage.

Variable native : byte_order.
Variable float_repr : text -> text.
Variable lim : limits.

Lemma send_message_unfold v s payload out :
  json_dumps float_repr lim (S (dumps_depth lim)) v = Ok s ->
  str_encode s = Ok payload ->
  send_message native float_repr lim v out
  = (prefix <- struct_pack_I native (len payload) ;; Ok (out ++ prefix ++ payload)).
Proof. intros Hs Hp. unfold send_message. rewrite Hs. simpl. rewrite Hp. reflexivity. Qed.

Lemma send_message_too_long v s payload out :
  json_dumps float_repr lim (S (dumps_depth lim)) v = Ok s ->
  str_encode s = Ok payload ->
  4294967296 <= len payload ->
  send_message native float_repr lim v out = Raise StructError.
Proof.
  intros Hs Hp Hl. rewrite (send_message_unfold _ _ _ _ Hs Hp).
  now rewrite pack_too_big.
Qed.

(** C6, amended: for a message that [json.dumps] accepts and whose UTF-8
    JSON payload is shorter than 2^32 bytes, [send_message] appends to
    stdout a prefix of 4 bytes followed by the payload, and the unsigned
    value of the prefix is the byte length of the payload. *)
Theorem send_message_frame (v : pyval) (s : text) (payload out : bytes) :
  json_dumps float_repr lim (S (dumps_depth lim)) v = Ok s ->
  str_encode s = Ok payload ->
  len payload < 4294967296 ->
  exists prefix,
    send_message native float_repr lim v out = Ok (out ++ prefix ++ payload)
    /\ length prefix = 4%nat
    /\ Forall is_byte prefix
    /\ struct_unpack_I native prefix = Ok (len payload).
Proof.
  intros Hs Hp Hl. pose proof (len_nonneg payload) as H0.
  exists (in_order native (le_bytes (len payload))).
  rewrite (send_message_unfold _ _ _ _ Hs Hp), pack_ok by lia.
  split; [reflexivity|]. split; [now rewrite in_order_length|].
  split; [apply in_order_bytes, le_bytes_are_bytes | apply unpack_pack; lia].
Qed.

(** C8: the bytes [send_message] writes for a value do not depend on what
    was written before: one frame (or one exception) per value, so sending
    the same value twice writes the same bytes twice. *)
Theorem send_message_deterministic (v : pyval) :
  exists r : result bytes,
    (forall out,
       send_message native float_repr lim v out = (f <- r ;; Ok (out ++ f)))
    /\ (forall out,
          (out1 <- send_message native float_repr lim v out ;;
           send_message native float_repr lim v out1)
          = (f <- r ;; Ok (out ++ f ++ f))).
Proof.
  exists (send_message native float_repr lim v []).
  assert (H : forall out,
             send_message native float_repr lim v out
             = (f <- send_message native float_repr lim v [] ;; Ok (out ++ f))).
  { intros out. unfold send_message.
    destruct (json_dumps float_repr lim (S (dumps_depth lim)) v) as [s|e];
      [|reflexivity]. cbn [bind].
    destruct (str_encode s) as [p|e]; [|reflexivity]. cbn [bind].
    destruct (struct_pack_I native (len p)) as [q|e]; reflexivity. }
  split; [exact H|]. intros out. rewrite (H out).
  destruct (send_message native float_repr lim v []) as [f|e] eqn:E; [|reflexivity].
  simpl. rewrite (H (out ++ f)). simpl. now rewrite app_assoc.
Qed.

End SendMessage.

Lemma send_message_frame_witness :
  exists prefix,
    send_message LittleEndian (fun t => t) default_limits (PList []) [7]
    = Ok ([7] ++ prefix ++ [91; 93])
    /\ length prefix = 4%nat
    /\ Forall is_byte prefix
    /\ struct_unpack_I LittleEndian prefix = Ok (len [91; 93]).
Proof.
  apply (send_message_frame LittleEndian (fun t => t) default_limits
           (PList []) [91; 93]);
    [reflexivity | reflexivity | unfold len; simpl; lia].
Defined.

(** ** Plain characters *)

Lemma escape_char_plain c : plain c -> escape_char c = [c].
Proof.
  unfold plain, escape_char. intros (H & H1 & H2).
  repeat match goal with
         | |- context [?a =? ?b] => destruct (Z.eqb_spec a b); [lia|]
         end.
  destruct (Z.leb_spec 32 c); [|lia]. destruct (Z.leb_spec c 126); [|lia].
  reflexivity.
Qed.

Lemma flat_map_escape_plain s : Forall plain s -> flat_map escape_char s = s.
Proof.
  induction 1 as [|c s Hc _ IH]; [reflexivity|].
  simpl. now rewrite IH, escape_char_plain.
Qed.

Lemma oversize_message_raises native float_repr lim out :
  send_message native float_repr lim oversize_message out = Raise StructError.
Proof.
  set (s := repeat 97 (Z.to_nat 4294967296)).
  assert (Hplain : Forall plain s).
  { apply Forall_forall. intros x Hx. apply repeat_spec in Hx. subst x.
    unfold plain. lia. }
  assert (Hascii : Forall is_ascii (encode_basestring_ascii s)).
  { unfold encode_basestring_ascii. rewrite flat_map_escape_plain by assumption.
    constructor; [unfold is_ascii; lia|].
    apply Forall_app. split.
    - apply Forall_forall. intros x Hx. apply repeat_spec in Hx. subst x.
      unfold is_ascii. lia.
    - constructor; [unfold is_ascii; lia | constructor]. }
  apply (send_message_too_long native float_repr lim oversize_message
           (encode_basestring_ascii s) (encode_basestring_ascii s)).
  - reflexivity.
  - unfold str_encode. now rewrite utf8_encode_ascii.
  - unfold encode_basestring_ascii. rewrite flat_map_escape_plain by assumption.
    rewrite len_cons, len_app. unfold len at 1. unfold s.
    rewrite repeat_length, Z2Nat.id by lia. unfold len. simpl length. lia.
Qed.

(** C6, counterexample: [json.dumps] accepts the str of 2^32 letters, but
    [send_message] writes no frame for it: [struct.pack] raises. *)
Lemma send_message_oversize_counterexample :
  (forall float_repr lim,
     exists s,
       json_dumps float_repr lim (S (dumps_depth lim)) oversize_message = Ok s)
  /\ (forall native float_repr lim out,
        send_message native float_repr lim oversize_message out = Raise StructError).
Proof.
  split.
  - intros fr lim. eexists. reflexivity.
  - apply oversize_message_raises.
Qed.

(** ** The HOST_READY frame *)

(** C7: [send_message] on [{"type": "HOST_READY"}] writes a 4-byte prefix
    whose value is 22, the byte length of the text
    [{"type": "HOST_READY"}], followed by exactly the bytes of that text;
    [decode] on those bytes yields the same value back and leaves the
    stream empty. *)
Theorem host_ready_round_trip (native : byte_order) (float_repr : text -> text)
    (lim : limits) (out : bytes) (lg : list log_line) :
  send_message native float_repr lim host_ready out
  = Ok (out ++ in_order native [22; 0; 0; 0] ++ ready_payload)
  /\ struct_unpack_I native (in_order native [22; 0; 0; 0]) = Ok (len ready_payload)
  /\ json_dumps float_repr lim (S (dumps_depth lim)) host_ready = Ok ready_payload
  /\ decode native lim (mk_state (in_order native [22; 0; 0; 0] ++ ready_payload) out lg)
     = (Ok (Message host_ready), mk_state [] out lg).
Proof.
  destruct native; repeat split; reflexivity.
Qed.

(** ** The launcher *)

(** C2, amended: once the child has terminated, the launcher exits with
    status 0 whatever the child's return code; the two are equal only when
    the child returned 0. *)
Theorem host_wrapper_exit_status (rc : Z) :
  proc_wait (ChildExits rc) = Some rc
  /\ host_wrapper (ChildExits rc) = 0
  /\ (host_wrapper (ChildExits rc) = rc <-> rc = 0).
Proof.
  unfold host_wrapper. simpl. repeat split; intros; lia.
Qed.

(** C2, counterexample: the child returns 3 and the launcher exits with 0. *)
Lemma host_wrapper_counterexample :
  proc_wait (ChildExits 3) = Some 3
  /\ host_wrapper (ChildExits 3) = 0
  /\ host_wrapper (ChildExits 3) <> 3.
Proof.
  repeat split. unfold host_wrapper. simpl. lia.
Qed.

(** ** Truncated frames *)

(** What [decode] does with a complete frame at the head of the stream: it
    consumes the frame and nothing more, and its outcome is that of decoding
    and parsing the payload. *)
Lemma decode_frame native lim prefix payload rest out lg :
  struct_unpack_I native prefix = Ok (len payload) ->
  decode native lim (mk_state (prefix ++ payload ++ rest) out lg)
  = ((message <- bytes_decode payload ;;
      data <- json_loads lim message ;;
      Ok (Message data)),
     mk_state rest out lg).
Proof.
  intros Hn. pose proof (unpack_length _ _ _ Hn) as H4.
  unfold decode, mbind, stdin_read. cbn [stdin stdout log].
  replace 4 with (len prefix) by (unfold len; lia).
  rewrite read_app_exact.
  destruct (Z.eqb_spec (len prefix) 0) as [H0|_]; [unfold len in H0; lia|].
  unfold lift. rewrite Hn. cbn [stdin stdout log].
  rewrite read_app_exact.
  destruct (bytes_decode payload) as [m|e]; [|reflexivity]. cbn [bind].
  destruct (json_loads lim m); reflexivity.
Qed.

(** C3, amended: when the stream holds a prefix declaring [n] bytes and
    then closes after fewer than [n] bytes, [decode] signals no truncation:
    it takes the bytes that are there as the payload.  Its outcome is that
    of decoding and parsing them, a message when [bytes.decode] and
    [json.loads] accept them and the exception they raise otherwise, and
    the stream is left empty; this is the outcome of [decode] on the
    complete frame that declares as many bytes as there are. *)
Theorem decode_truncated_frame (native : byte_order) (lim : limits)
    (prefix rest out : bytes) (lg : list log_line) (n : Z) :
  struct_unpack_I native prefix = Ok n ->
  len rest < n ->
  decode native lim (mk_state (prefix ++ rest) out lg)
  = ((message <- bytes_decode rest ;;
      data <- json_loads lim message ;;
      Ok (Message data)),
     mk_state [] out lg)
  /\ (len rest < 4294967296 ->
      forall more,
        decode native lim
          (mk_state (in_order native (le_bytes (len rest)) ++ rest ++ more) out lg)
        = (fst (decode native lim (mk_state (prefix ++ rest) out lg)),
           mk_state more out lg)).
Proof.
  intros Hn Hlen.
  assert (E : decode native lim (mk_state (prefix ++ rest) out lg)
              = ((message <- bytes_decode rest ;;
                  data <- json_loads lim message ;;
                  Ok (Message data)),
                 mk_state [] out lg)).
  { pose proof (unpack_length _ _ _ Hn) as H4.
    unfold decode, mbind, stdin_read. cbn [stdin stdout log].
    replace 4 with (len prefix) by (unfold len; lia).
    rewrite read_app_exact.
    destruct (Z.eqb_spec (len prefix) 0) as [H0|_]; [unfold len in H0; lia|].
    unfold lift. rewrite Hn. cbn [stdin stdout log].
    rewrite read_short by lia.
    destruct (bytes_decode rest) as [m|e]; [|reflexivity]. cbn [bind].
    destruct (json_loads lim m); reflexivity. }
  split; [exact E|]. intros Hfit more. rewrite E. cbn [fst].
  apply decode_frame. apply unpack_pack.
  pose proof (len_nonneg rest). lia.
Qed.

Lemma decode_truncated_frame_witness :
  struct_unpack_I LittleEndian [10; 0; 0; 0] = Ok 10
  /\ len [91; 49; 44] < 10
  /\ decode LittleEndian default_limits
       (mk_state ([10; 0; 0; 0] ++ [91; 49; 44]) [] [])
     = (Raise JSONDecodeError, mk_state [] [] []).
Proof.
  assert (H1 : struct_unpack_I LittleEndian [10; 0; 0; 0] = Ok 10) by reflexivity.
  assert (H2 : len [91; 49; 44] < 10) by (unfold len; simpl; lia).
  split; [exact H1|]. split; [exact H2|].
  exact (proj1 (decode_truncated_frame LittleEndian default_limits
                  [10; 0; 0; 0] [91; 49; 44] [] [] 10 H1 H2)).
Defined.

(** C3, counterexample: the prefix declares 10 bytes and the stream closes
    after the 2 bytes of [{}]; [decode] returns the empty object as a
    message, and the host answers it. *)
Lemma truncated_frame_counterexample :
  struct_unpack_I LittleEndian [10; 0; 0; 0] = Ok 10
  /\ len [123; 125] < 10
  /\ (forall lim,
        decode LittleEndian lim (mk_state ([10; 0; 0; 0] ++ [123; 125]) [] [])
        = (Ok (Message (PDict [])), mk_state [] [] []))
  /\ struct_unpack_I BigEndian [0; 0; 0; 10] = Ok 10
  /\ (forall lim,
        decode BigEndian lim (mk_state ([0; 0; 0; 10] ++ [123; 125]) [] [])
        = (Ok (Message (PDict [])), mk_state [] [] []))
  /\ (forall float_repr lim,
        run LittleEndian float_repr lim ([10; 0; 0; 0] ++ [123; 125])
        = Some (Ok tt,
                mk_state []
                  (ready_frame LittleEndian
                   ++ [29; 0; 0; 0] ++ reply_head ++ txt_null ++ reply_tail)
                  [LogStarting; LogSentReady; LogReceived (PDict []);
                   LogExiting])).
Proof.
  repeat split.
Qed.

(** ** Strings: [scanstring] reads back what [encode_basestring_ascii] wrote *)

Ltac bool_cases :=
  repeat match goal with
         | |- context [?a =? ?b] =>
             destruct (Z.eqb_spec a b); try lia
         | |- context [?a <=? ?b] =>
             destruct (Z.leb_spec a b); try lia
         | |- context [?a <? ?b] =>
             destruct (Z.ltb_spec a b); try lia
         end.

Lemma hex_value_hex_digit d : 0 <= d < 16 -> hex_value (hex_digit d) = Some d.
Proof.
  intros H. unfold hex_value, hex_digit, is_digit.
  destruct (Z.ltb_spec d 10); bool_cases; cbn [andb]; f_equal; lia.
Qed.

Lemma hex4_value_hex4 n :
  0 <= n < 65536 ->
  hex4_value (hex_digit (n / 4096)) (hex_digit ((n / 256) mod 16))
             (hex_digit ((n / 16) mod 16)) (hex_digit (n mod 16)) = Some n.
Proof.
  intros H. unfold hex4_value.
  rewrite !hex_value_hex_digit by (Z.div_mod_to_equations; lia).
  f_equal. Z.div_mod_to_equations. lia.
Qed.

Lemma scanstring_u_escape n tail :
  0 <= n < 65536 ->
  is_high_surrogate n = false \/ no_low_escape tail ->
  scanstring (u_escape n ++ tail) = push_char n (scanstring tail).
Proof.
  intros Hn Hcase. unfold u_escape, hex4.
  cbn [app]. cbn [scanstring].
  change (92 =? 34) with false. change (92 =? 92) with true.
  change (117 =? 117) with true. cbv iota.
  rewrite hex4_value_hex4 by assumption.
  destruct (is_high_surrogate n) eqn:Hh; [|reflexivity].
  destruct Hcase as [Hc|Hc]; [discriminate|].
  destruct tail as [|b [|u' [|g1 [|g2 [|g3 [|g4 r3]]]]]]; try reflexivity.
  destruct (Z.eqb_spec b 92) as [->|]; [|reflexivity].
  destruct (Z.eqb_spec u' 117) as [->|]; [|reflexivity].
  cbn [andb].
  destruct (Hc g1 g2 g3 g4 r3 eq_refl) as (u2 & -> & ->). reflexivity.
Qed.

Lemma scanstring_pair hi lo tail :
  is_high_surrogate hi = true -> is_low_surrogate lo = true ->
  scanstring (u_escape hi ++ u_escape lo ++ tail)
  = push_char (65536 + (hi - 55296) * 1024 + (lo - 56320)) (scanstring tail).
Proof.
  intros Hh Hl.
  assert (0 <= hi < 65536)
    by (unfold is_high_surrogate in Hh; apply andb_prop in Hh; lia).
  assert (0 <= lo < 65536)
    by (unfold is_low_surrogate in Hl; apply andb_prop in Hl; lia).
  unfold u_escape, hex4. cbn [app]. cbn [scanstring].
  change (92 =? 34) with false. change (92 =? 92) with true.
  change (117 =? 117) with true. cbv iota. cbn [andb].
  rewrite !hex4_value_hex4 by assumption.
  rewrite Hh, Hl. reflexivity.
Qed.

Lemma scanstring_escape_char c tail :
  is_codepoint c = true ->
  is_high_surrogate c = false \/ no_low_escape tail ->
  scanstring (escape_char c ++ tail) = push_char c (scanstring tail).
Proof.
  intros Hc Hcase. unfold is_codepoint in Hc. apply andb_prop in Hc.
  destruct Hc as [Hc0 Hc1]. apply Z.leb_le in Hc0, Hc1.
  unfold escape_char.
  destruct (Z.eqb_spec c 34) as [->|]; [reflexivity|].
  destruct (Z.eqb_spec c 92) as [->|]; [reflexivity|].
  destruct (Z.eqb_spec c 10) as [->|]; [reflexivity|].
  destruct (Z.eqb_spec c 13) as [->|]; [reflexivity|].
  destruct (Z.eqb_spec c 9) as [->|]; [reflexivity|].
  destruct (Z.eqb_spec c 8) as [->|]; [reflexivity|].
  destruct (Z.eqb_spec c 12) as [->|]; [reflexivity|].
  destruct ((32 <=? c) && (c <=? 126)) eqn:Hp.
  - apply andb_prop in Hp. destruct Hp as [Hp0 Hp1].
    apply Z.leb_le in Hp0, Hp1. cbn [app scanstring].
    bool_cases. reflexivity.
  - destruct (Z.ltb_spec c 65536).
    + apply scanstring_u_escape; [lia | assumption].
    + rewrite <- app_assoc, scanstring_pair.
      * f_equal. Z.div_mod_to_equations. lia.
      * unfold is_high_surrogate. apply andb_true_intro.
        split; [apply Z.leb_le | apply Z.leb_le];
          Z.div_mod_to_equations; lia.
      * unfold is_low_surrogate. apply andb_true_intro.
        split; [apply Z.leb_le | apply Z.leb_le];
          Z.div_mod_to_equations; lia.
Qed.

Lemma hex_value_range c d : hex_value c = Some d -> 0 <= d < 16.
Proof.
  unfold hex_value, is_digit.
  destruct ((48 <=? c) && (c <=? 57)) eqn:E1.
  - apply andb_prop in E1. intros H; inversion H. lia.
  - destruct ((97 <=? c) && (c <=? 102)) eqn:E2.
    + apply andb_prop in E2. intros H; inversion H. lia.
    + destruct ((65 <=? c) && (c <=? 70)) eqn:E3; [|discriminate].
      apply andb_prop in E3. intros H; inversion H. lia.
Qed.

Lemma some_inj {A} (a b : A) : Some a = Some b -> a = b.
Proof. intros H. now injection H. Qed.

Lemma cons_eq_inv {A} (a b : A) (l l' : list A) :
  a :: l = b :: l' -> a = b /\ l = l'.
Proof. intros H. injection H as H1 H2. now split. Qed.

Lemma no_low_escape_tail s rest :
  match s with
  | c' :: _ => is_codepoint c' = true /\ is_low_surrogate c' = false
  | [] => True
  end ->
  no_low_escape (flat_map escape_char s ++ 34 :: rest).
Proof.
  destruct s as [|c s]; intros Hs g1 g2 g3 g4 r3 E.
  - discriminate E.
  - destruct Hs as [Hc Hl]. unfold is_codepoint in Hc. apply andb_prop in Hc.
    destruct Hc as [Hc0 Hc1]. apply Z.leb_le in Hc0, Hc1.
    cbn [flat_map] in E. rewrite <- app_assoc in E. revert E.
    unfold escape_char.
    destruct (Z.eqb_spec c 34) as [->|]; [discriminate|].
    destruct (Z.eqb_spec c 92) as [->|]; [discriminate|].
    destruct (Z.eqb_spec c 10) as [->|]; [discriminate|].
    destruct (Z.eqb_spec c 13) as [->|]; [discriminate|].
    destruct (Z.eqb_spec c 9) as [->|]; [discriminate|].
    destruct (Z.eqb_spec c 8) as [->|]; [discriminate|].
    destruct (Z.eqb_spec c 12) as [->|]; [discriminate|].
    destruct ((32 <=? c) && (c <=? 126)) eqn:Hp.
    + cbn [app]. intros E. apply cons_eq_inv in E. destruct E as [E _].
      contradiction.
    + destruct (Z.ltb_spec c 65536).
      * unfold u_escape, hex4. cbn [app]. intros E.
        do 6 (apply cons_eq_inv in E; destruct E as [? E]). subst g1 g2 g3 g4.
        exists c. split; [apply hex4_value_hex4; lia | assumption].
      * unfold u_escape at 1. unfold hex4 at 1. cbn [app]. intros E.
        do 6 (apply cons_eq_inv in E; destruct E as [? E]). subst g1 g2 g3 g4.
        eexists. split; [apply hex4_value_hex4; Z.div_mod_to_equations; lia|].
        unfold is_low_surrogate. apply andb_false_intro1. apply Z.leb_gt.
        Z.div_mod_to_equations. lia.
Qed.

Lemma str_ok_head c s :
  str_ok (c :: s) = true ->
  is_codepoint c = true
  /\ (is_high_surrogate c = false
      \/ match s with
         | c' :: _ => is_codepoint c' = true /\ is_low_surrogate c' = false
         | [] => True
         end)
  /\ str_ok s = true.
Proof.
  cbn [str_ok]. intros H. apply andb_prop in H. destruct H as [H Hs].
  apply andb_prop in H. destruct H as [Hc Hp].
  split; [assumption|]. split; [|assumption].
  destruct (is_high_surrogate c); [right | now left].
  destruct s as [|c' s']; [trivial|].
  cbn [str_ok] in Hs. apply andb_prop in Hs. destruct Hs as [Hs _].
  apply andb_prop in Hs. destruct Hs as [Hc' _].
  split; [assumption|]. cbn [andb negb] in Hp.
  now destruct (is_low_surrogate c').
Qed.

Lemma scanstring_escaped s rest :
  str_ok s = true ->
  scanstring (flat_map escape_char s ++ 34 :: rest) = Some (s, rest).
Proof.
  induction s as [|c s IH]; intros Hs; [reflexivity|].
  apply str_ok_head in Hs. destruct Hs as (Hc & Hn & Hs).
  cbn [flat_map]. rewrite <- app_assoc, scanstring_escape_char.
  - now rewrite IH.
  - assumption.
  - destruct Hn as [Hn|Hn]; [now left | right].
    now apply no_low_escape_tail.
Qed.

(** ** Numbers: [match_number] reads back what [int.__repr__] wrote *)

Lemma span_digits_app ds rest :
  Forall (fun c => is_digit c = true) ds -> digit_stop rest ->
  span_digits (ds ++ rest) = (ds, rest).
Proof.
  intros Hds Hrest. induction Hds as [|c ds Hc _ IH].
  - destruct rest as [|c r]; [reflexivity|]. cbn [app span_digits].
    cbn [digit_stop] in Hrest. now rewrite Hrest.
  - cbn [app span_digits]. now rewrite Hc, IH.
Qed.

Lemma uint_digits_are_digits u : Forall (fun c => is_digit c = true) (uint_digits u).
Proof. induction u; cbn [uint_digits]; constructor; auto. Qed.

Lemma digits_value_acc u acc :
  fold_left (fun a d => 10 * a + (d - 48)) (uint_digits u) (Z.pos acc)
  = Z.pos (Pos.of_uint_acc u acc).
Proof.
  revert acc. induction u; intros acc; cbn [uint_digits fold_left Pos.of_uint_acc];
    [reflexivity|..];
    match goal with
    | |- fold_left _ _ ?z = Z.pos (Pos.of_uint_acc _ ?q) =>
        replace z with (Z.pos q) by lia; apply IHu
    end.
Qed.

Lemma digits_value_of_uint u : digits_value (uint_digits u) = Z.of_N (Pos.of_uint u).
Proof.
  unfold digits_value.
  induction u; cbn [uint_digits fold_left Pos.of_uint]; [reflexivity | exact IHu |..];
    match goal with
    | |- fold_left _ _ ?z = Z.of_N (N.pos (Pos.of_uint_acc _ ?q)) =>
        replace z with (Z.pos q) by lia; apply digits_value_acc
    end.
Qed.

Lemma digits_value_to_uint p : digits_value (uint_digits (Pos.to_uint p)) = Z.pos p.
Proof. now rewrite digits_value_of_uint, DecimalPos.Unsigned.of_to. Qed.

Lemma nzhead_not_D0 d d' : Decimal.nzhead d <> Decimal.D0 d'.
Proof. induction d; cbn [Decimal.nzhead]; try discriminate. assumption. Qed.

(** The digits of a positive number start with a digit from 1 to 9. *)
Lemma to_uint_digits_head p :
  exists d ds,
    uint_digits (Pos.to_uint p) = d :: ds
    /\ 49 <= d <= 57
    /\ Forall (fun c => is_digit c = true) ds.
Proof.
  pose proof (DecimalPos.Unsigned.to_of (Pos.to_uint p)) as H.
  rewrite DecimalPos.Unsigned.of_to in H. cbn [N.to_uint] in H.
  pose proof (DecimalPos.Unsigned.to_uint_nonnil p) as Hnil.
  pose proof (uint_digits_are_digits (Pos.to_uint p)) as Hd.
  destruct (Pos.to_uint p) as [|u|u|u|u|u|u|u|u|u|u] eqn:E;
    [contradiction | | | | | | | | | |];
    cbn [uint_digits] in *; inversion Hd; subst;
      try (eexists; eexists; split; [reflexivity|]; split; [lia | assumption]).
  exfalso. unfold Decimal.unorm in H. cbn [Decimal.nzhead] in H.
  destruct (Decimal.nzhead u) eqn:En; try discriminate H.
  - inversion H. subst u.
    apply (DecimalPos.Unsigned.to_uint_nonzero p). exact E.
  - now apply (nzhead_not_D0 u u0).
Qed.

Lemma scan_tail_stop rest :
  number_stop rest -> scan_frac rest = ([], rest) /\ scan_exp rest = ([], rest).
Proof.
  destruct rest as [|c r]; [now split|]. cbn [number_stop].
  intros (Hd & H1 & H2 & H3). unfold scan_frac, scan_exp.
  destruct (Z.eqb_spec c 46); [contradiction|].
  destruct (Z.eqb_spec c 101); [contradiction|].
  destruct (Z.eqb_spec c 69); [contradiction|]. now split.
Qed.

Lemma number_stop_digit_stop rest : number_stop rest -> digit_stop rest.
Proof. destruct rest; [trivial|]. cbn. tauto. Qed.

Lemma over_digit_limit_mono lim a b a' b' :
  a' <= a -> b' <= b ->
  over_digit_limit lim a b = false -> over_digit_limit lim a' b' = false.
Proof.
  unfold over_digit_limit. lia.
Qed.

Lemma match_number_int lim s sg s1 int s2 :
  scan_sign s = (sg, s1) ->
  scan_int s1 = Some (int, s2) ->
  number_stop s2 ->
  over_digit_limit lim (len int) (len int) = false ->
  match_number lim s
  = Ok (PInt (match sg with
              | [] => digits_value int
              | _ => - digits_value int
              end), s2).
Proof.
  intros Hs Hi Hstop Hlim. destruct (scan_tail_stop s2 Hstop) as [Hf He].
  unfold match_number. rewrite Hs, Hi, Hf, He. cbn [app]. now rewrite Hlim.
Qed.

Lemma scan_int_digits d ds rest :
  49 <= d <= 57 ->
  Forall (fun c => is_digit c = true) ds ->
  digit_stop rest ->
  scan_int ((d :: ds) ++ rest) = Some (d :: ds, rest).
Proof.
  intros Hd Hds Hrest. cbn [app scan_int].
  destruct (Z.eqb_spec d 48); [lia|]. unfold is_digit at 1.
  destruct (Z.leb_spec 48 d); [|lia]. destruct (Z.leb_spec d 57); [|lia].
  cbn [andb]. now rewrite span_digits_app.
Qed.

Lemma int_str_repr lim n t : int_str lim n = Ok t -> t = int_repr n.
Proof.
  unfold int_str. destruct (over_digit_limit _ _ _); [discriminate|].
  intros H. now injection H.
Qed.

(** A number [int.__repr__] could write is within the digit limit when it
    is read. *)
Lemma int_str_digits lim n t sg ds :
  int_str lim n = Ok t -> int_repr n = sg ++ ds -> (length sg <= 1)%nat ->
  match n with Zneg _ => sg = [45] | _ => sg = [] end ->
  over_digit_limit lim (len ds) (len ds) = false.
Proof.
  unfold int_str. intros H E Hsg Hn.
  destruct (over_digit_limit lim (len (int_repr n))
              match n with
              | Z.neg _ => len (int_repr n) - 1
              | _ => len (int_repr n)
              end) eqn:Ho; [discriminate|].
  refine (over_digit_limit_mono lim _ _ _ _ _ _ Ho);
    rewrite E, len_app; pose proof (len_nonneg sg);
    destruct n; subst sg; unfold len; cbn [length]; lia.
Qed.

Lemma match_number_int_repr lim n t rest :
  int_str lim n = Ok t ->
  number_stop rest -> match_number lim (t ++ rest) = Ok (PInt n, rest).
Proof.
  intros Ht Hstop. pose proof (number_stop_digit_stop rest Hstop) as Hds.
  pose proof (int_str_repr _ _ _ Ht) as ->.
  destruct n as [|p|p]; cbn [int_repr] in *.
  - apply (match_number_int lim ([48] ++ rest) [] ([48] ++ rest) [48] rest);
      [reflexivity | reflexivity | assumption | reflexivity].
  - destruct (to_uint_digits_head p) as (d & ds & E & Hd & Hrest).
    pose proof (digits_value_to_uint p) as Hv.
    pose proof (int_str_digits lim (Z.pos p) _ [] (uint_digits (Pos.to_uint p))
                  Ht eq_refl (Nat.le_0_l 1) eq_refl) as Hlim.
    rewrite E in *.
    rewrite (match_number_int lim ((d :: ds) ++ rest) [] ((d :: ds) ++ rest)
               (d :: ds) rest).
    + now rewrite Hv.
    + cbn [app scan_sign]. now destruct (Z.eqb_spec d 45); [lia|].
    + now apply scan_int_digits.
    + assumption.
    + assumption.
  - destruct (to_uint_digits_head p) as (d & ds & E & Hd & Hrest).
    pose proof (digits_value_to_uint p) as Hv.
    pose proof (int_str_digits lim (Z.neg p) _ [45] (uint_digits (Pos.to_uint p))
                  Ht eq_refl (Nat.le_refl 1) eq_refl) as Hlim.
    rewrite E in *.
    rewrite (match_number_int lim ((45 :: d :: ds) ++ rest) [45]
               ((d :: ds) ++ rest) (d :: ds) rest).
    + now rewrite Hv.
    + reflexivity.
    + now apply scan_int_digits.
    + assumption.
    + assumption.
Qed.

(** ** Dicts built from distinct keys *)

Lemma text_eqb_eq a b : text_eqb a b = true <-> a = b.
Proof.
  revert b. induction a as [|x a IH]; intros [|y b]; cbn [text_eqb];
    try (split; [discriminate | discriminate]); [tauto|].
  rewrite andb_true_iff, Z.eqb_eq, IH. split.
  - intros [-> ->]. reflexivity.
  - intros H. inversion H. tauto.
Qed.

Lemma text_eqb_refl a : text_eqb a a = true.
Proof. now apply text_eqb_eq. Qed.

Lemma dict_set_fresh d k v :
  forallb (fun kv => negb (key_is k (fst kv))) d = true ->
  dict_set d k v = d ++ [(PStr k, v)].
Proof.
  induction d as [|[k' v'] d IH]; cbn [dict_set forallb app fst]; [reflexivity|].
  intros H. apply andb_prop in H. destruct H as [H1 H2].
  destruct (key_is k k'); [discriminate|]. now rewrite IH.
Qed.

Lemma key_is_sym a b : key_is a (PStr b) = key_is b (PStr a).
Proof.
  cbn [key_is]. destruct (text_eqb b a) eqn:E.
  - apply text_eqb_eq in E. subst. now rewrite text_eqb_refl.
  - destruct (text_eqb a b) eqn:E'; [|reflexivity].
    apply text_eqb_eq in E'. subst. now rewrite text_eqb_refl in E.
Qed.

Lemma dict_of_pairs_distinct pairs acc :
  distinct_keys (acc ++ map str_item pairs) = true ->
  fold_left (fun d kv => dict_set d (fst kv) (snd kv)) pairs acc
  = acc ++ map str_item pairs.
Proof.
  revert acc. induction pairs as [|[k v] pairs IH]; intros acc H;
    cbn [fold_left map fst snd].
  - now rewrite app_nil_r.
  - assert (Hfresh : forallb (fun kv => negb (key_is k (fst kv))) acc = true).
    { clear IH. induction acc as [|[k' v'] acc IHa]; [reflexivity|].
      cbn [app distinct_keys] in H. apply andb_prop in H. destruct H as [H1 H2].
      destruct k' as [| | | |s| | | |]; try discriminate H1.
      cbn [forallb fst]. rewrite (IHa H2), andb_true_r.
      rewrite forallb_app in H1. apply andb_prop in H1. destruct H1 as [_ H1].
      cbn [map forallb str_item fst] in H1. apply andb_prop in H1.
      destruct H1 as [H1 _]. now rewrite key_is_sym. }
    rewrite dict_set_fresh by assumption.
    rewrite IH; rewrite <- app_assoc; [reflexivity | exact H].
Qed.

Lemma dict_of_pairs_items pairs :
  distinct_keys (map str_item pairs) = true ->
  dict_of_pairs pairs = map str_item pairs.
Proof. intros H. unfold dict_of_pairs. now rewrite dict_of_pairs_distinct. Qed.

(** ** Scalars read back *)

Lemma scan_scalar_int lim depth n t rest :
  int_str lim n = Ok t ->
  number_stop rest -> scan_scalar lim depth (t ++ rest) = Ok (PInt n, rest).
Proof.
  intros Ht Hstop. pose proof (match_number_int_repr lim n t rest Ht Hstop) as Hm.
  pose proof (int_str_repr _ _ _ Ht) as ->. clear Ht.
  unfold scan_scalar. destruct n as [|p|p]; cbn [int_repr] in *.
  - exact Hm.
  - destruct (to_uint_digits_head p) as (d & ds & E & Hd & _). rewrite E in *.
    cbn [app] in *. bool_cases.
    cbn [txt_neg_Infinity strip_prefix]. now destruct (Z.eqb_spec d 45); [lia|].
  - destruct (to_uint_digits_head p) as (d & ds & E & Hd & _). rewrite E in *.
    cbn [app] in *. change (45 =? 34) with false. change (45 =? 110) with false.
    change (45 =? 116) with false. change (45 =? 102) with false.
    change (45 =? 78) with false. change (45 =? 73) with false. cbv iota.
    unfold txt_neg_Infinity, txt_Infinity. cbn [strip_prefix].
    change (45 =? 45) with true. cbv iota.
    now destruct (Z.eqb_spec d 73); [lia|].
Qed.

Lemma scan_scalar_str lim depth s rest :
  str_ok s = true ->
  scan_scalar lim depth (encode_basestring_ascii s ++ rest) = Ok (PStr s, rest).
Proof.
  intros Hs. unfold encode_basestring_ascii, scan_scalar. cbn [app].
  change (34 =? 34) with true. cbv iota.
  rewrite <- app_assoc. cbn [app]. now rewrite scanstring_escaped.
Qed.

Lemma scan_once_scalar lim f depth c r :
  c <> 123 -> c <> 91 ->
  scan_once lim (S f) depth (c :: r) = Some (scan_scalar lim depth (c :: r)).
Proof.
  intros H1 H2. cbn [scan_once].
  destruct (Z.eqb_spec c 123); [contradiction|].
  destruct (Z.eqb_spec c 91); [contradiction|]. reflexivity.
Qed.

(** ** Values read back: [scan_once] on the text [json.dumps] wrote *)

Lemma skip_ws_head_ok t rest : head_ok t -> skip_ws (t ++ rest) = t ++ rest.
Proof.
  intros (c & t' & -> & Hc & _). cbn [app skip_ws]. now rewrite Hc.
Qed.

Lemma skip_ws_space s : skip_ws (32 :: s) = skip_ws s.
Proof. reflexivity. Qed.

Lemma int_repr_head n :
  exists c t', int_repr n = c :: t' /\ (c = 45 \/ 48 <= c <= 57).
Proof.
  destruct n as [|p|p]; cbn [int_repr].
  - eexists; eexists; split; [reflexivity | lia].
  - destruct (to_uint_digits_head p) as (d & ds & -> & Hd & _).
    eexists; eexists; split; [reflexivity | lia].
  - eexists; eexists; split; [reflexivity | lia].
Qed.

Lemma digits_ascii ds : Forall (fun c => is_digit c = true) ds -> Forall is_ascii ds.
Proof.
  apply Forall_impl. intros c H. unfold is_digit in H. apply andb_prop in H.
  unfold is_ascii. lia.
Qed.

Lemma int_repr_ascii n : Forall is_ascii (int_repr n).
Proof.
  destruct n as [|p|p]; cbn [int_repr].
  - repeat constructor; unfold is_ascii; lia.
  - apply digits_ascii, uint_digits_are_digits.
  - constructor; [unfold is_ascii; lia|].
    apply digits_ascii, uint_digits_are_digits.
Qed.

Lemma hex_digit_ascii d : 0 <= d < 16 -> is_ascii (hex_digit d).
Proof. unfold hex_digit, is_ascii. destruct (Z.ltb_spec d 10); lia. Qed.

Lemma u_escape_ascii n : 0 <= n < 65536 -> Forall is_ascii (u_escape n).
Proof.
  intros H. unfold u_escape, hex4.
  repeat constructor; try (unfold is_ascii; lia);
    apply hex_digit_ascii; Z.div_mod_to_equations; lia.
Qed.

Lemma escape_char_ascii c : is_codepoint c = true -> Forall is_ascii (escape_char c).
Proof.
  intros Hc. unfold is_codepoint in Hc. apply andb_prop in Hc.
  destruct Hc as [Hc0 Hc1]. apply Z.leb_le in Hc0, Hc1.
  unfold escape_char.
  repeat match goal with
         | |- context [?a =? ?b] =>
             destruct (Z.eqb_spec a b);
             [repeat constructor; unfold is_ascii; lia|]
         end.
  destruct ((32 <=? c) && (c <=? 126)) eqn:Hp.
  - apply andb_prop in Hp. destruct Hp as [Hp0 Hp1].
    apply Z.leb_le in Hp0, Hp1. repeat constructor; unfold is_ascii; lia.
  - destruct (Z.ltb_spec c 65536).
    + apply u_escape_ascii. lia.
    + apply Forall_app. split; apply u_escape_ascii;
        Z.div_mod_to_equations; lia.
Qed.

Lemma str_ok_codepoints s : str_ok s = true -> Forall (fun c => is_codepoint c = true) s.
Proof.
  induction s as [|c s IH]; [constructor|]. intros H.
  apply str_ok_head in H. destruct H as (Hc & _ & Hs). constructor; auto.
Qed.

Lemma encode_basestring_ascii_ascii s :
  str_ok s = true -> Forall is_ascii (encode_basestring_ascii s).
Proof.
  intros Hs. apply str_ok_codepoints in Hs. unfold encode_basestring_ascii.
  constructor; [unfold is_ascii; lia|]. apply Forall_app. split.
  - induction Hs as [|c s Hc _ IH]; [constructor|]. cbn [flat_map].
    apply Forall_app. split; [now apply escape_char_ascii | exact IH].
  - repeat constructor. unfold is_ascii. lia.
Qed.

Lemma join_items_cons r r' rest :
  join_items (r :: r' :: rest)
  = (t <- r ;; ts <- join_items (r' :: rest) ;; Ok (t ++ 44 :: 32 :: ts)).
Proof. reflexivity. Qed.

Lemma bind_ok_inv {A B} (r : result A) (k : A -> result B) (b : B) :
  bind r k = Ok b -> exists a, r = Ok a /\ k a = Ok b.
Proof.
  destruct r as [a|e]; cbn [bind]; [|discriminate]. intros H. now exists a.
Qed.

Lemma ok_inj {A} (a b : A) : Ok a = Ok b -> a = b.
Proof. intros H. now injection H. Qed.

Section ReadBack.

Variable float_repr : text -> text.
Variable lim : limits.

Lemma number_stop_punct c rest :
  c = 44 \/ c = 93 \/ c = 125 -> number_stop (c :: rest).
Proof.
  intros H. cbn [number_stop]. unfold is_digit.
  destruct H as [-> | [-> | ->]]; repeat split; try reflexivity; lia.
Qed.

Lemma json_dumps_list depth l :
  json_dumps float_repr lim (S depth) (PList l)
  = (t <- join_items (map (json_dumps float_repr lim depth) l) ;;
     Ok (91 :: t ++ [93])).
Proof. reflexivity. Qed.

Lemma json_dumps_tuple depth l :
  json_dumps float_repr lim depth (PTuple l)
  = json_dumps float_repr lim depth (PList l).
Proof. destruct depth; reflexivity. Qed.

Lemma json_dumps_dict depth d :
  json_dumps float_repr lim (S depth) (PDict d)
  = (t <- join_items (map (member_dumps float_repr lim depth) d) ;;
     Ok (123 :: t ++ [125])).
Proof. reflexivity. Qed.

Lemma elements_read_back depth l :
  Forall (reads_back float_repr lim) l ->
  forall ts,
    l <> [] ->
    join_items (map (json_dumps float_repr lim depth) l) = Ok ts ->
    Forall is_ascii ts
    /\ head_ok ts
    /\ exists F,
         forall f depth' rest,
           (F <= f)%nat -> (depth <= depth')%nat ->
           parse_elements lim f depth' (ts ++ 93 :: rest) = Some (Ok (l, rest)).
Proof.
  induction 1 as [|x l Hx Hl IH]; intros ts Hne Hts; [contradiction|]. clear Hne.
  destruct l as [|y l].
  - cbn [map join_items] in Hts.
    destruct (Hx depth ts Hts) as (Hascii & Hhead & Fx & Hscan).
    split; [exact Hascii|]. split; [exact Hhead|]. exists (S Fx).
    intros f depth' rest Hf Hd. destruct f as [|f]; [lia|]. cbn [parse_elements].
    rewrite Hscan by (try lia; apply number_stop_punct; tauto).
    cbn [skip_ws]. change (is_ws 93) with false. cbv iota.
    change (93 =? 93) with true. reflexivity.
  - cbn [map] in Hts, IH. rewrite join_items_cons in Hts.
    apply bind_ok_inv in Hts. destruct Hts as (t & Ht & Hts).
    apply bind_ok_inv in Hts. destruct Hts as (ts' & Hts' & Hts).
    apply ok_inj in Hts. subst ts.
    destruct (Hx depth t Ht) as (Hascii & Hhead & Fx & Hscan).
    destruct (IH ts') as (Hasciis & Hheads & Fl & Hparse);
      [discriminate | exact Hts' |].
    split; [|split].
    + apply Forall_app. split; [assumption|].
      constructor; [unfold is_ascii; lia|].
      constructor; [unfold is_ascii; lia | assumption].
    + destruct Hhead as (c & t' & -> & Hc). exists c. eexists.
      split; [reflexivity | exact Hc].
    + exists (S (Nat.max Fx Fl)).
      intros f depth' rest Hf Hd. destruct f as [|f]; [lia|]. cbn [parse_elements].
      rewrite <- app_assoc. cbn [app].
      rewrite Hscan by (try lia; apply number_stop_punct; tauto).
      cbn [skip_ws]. change (is_ws 44) with false. cbv iota.
      change (44 =? 93) with false. change (44 =? 44) with true. cbv iota.
      rewrite skip_ws_space, skip_ws_head_ok by assumption.
      rewrite Hparse by lia. reflexivity.
Qed.

Lemma members_read_back depth (pairs : list (text * pyval)) :
  Forall (fun p => str_ok (fst p) = true /\ reads_back float_repr lim (snd p))
         pairs ->
  forall ts,
    pairs <> [] ->
    join_items (map (member_dumps float_repr lim depth) (map str_item pairs))
    = Ok ts ->
    Forall is_ascii ts
    /\ head_ok ts
    /\ exists F,
         forall f depth' rest,
           (F <= f)%nat -> (depth <= depth')%nat ->
           parse_members lim f depth' (ts ++ 125 :: rest) = Some (Ok (pairs, rest)).
Proof.
  induction 1 as [|[k x] l Hx Hl IH]; intros ts Hne Hts; [contradiction|].
  clear Hne. cbn [fst snd] in Hx. destruct Hx as (Hk & Hx).
  assert (Hitem : forall m,
             member_dumps float_repr lim depth (str_item (k, x)) = Ok m ->
             exists t Fx,
               m = encode_basestring_ascii k ++ 58 :: 32 :: t
               /\ Forall is_ascii m
               /\ (forall more, head_ok (m ++ more))
               /\ forall f depth' tail,
                    (Fx <= f)%nat -> (depth <= depth')%nat -> number_stop tail ->
                    parse_members lim (S f) depth' (m ++ tail)
                    = match skip_ws tail with
                      | c :: r4 =>
                          if c =? 125 then Some (Ok ([(k, x)], r4))
                          else if c =? 44 then
                            scan_map (cons (k, x))
                                     (parse_members lim f depth' (skip_ws r4))
                          else Some (Raise (errmsg depth'))
                      | [] => Some (Raise (errmsg depth'))
                      end).
  { intros m Hm. cbn [str_item fst snd member_dumps key_text bind] in Hm.
    apply bind_ok_inv in Hm. destruct Hm as (t & Ht & Hm).
    apply ok_inj in Hm. subst m.
    destruct (Hx depth t Ht) as (Hascii & Hhead & Fx & Hscan).
    exists t, Fx. split; [reflexivity|]. split; [|split].
    - apply Forall_app. split; [now apply encode_basestring_ascii_ascii|].
      constructor; [unfold is_ascii; lia|].
      constructor; [unfold is_ascii; lia | assumption].
    - intros more. unfold encode_basestring_ascii. cbn [app].
      eexists; eexists. split; [reflexivity|].
      split; [reflexivity | split; lia].
    - intros f depth' tail Hf Hd Htail. unfold encode_basestring_ascii.
      rewrite <- !app_assoc. cbn [app]. cbn [parse_members].
      change (34 =? 34) with true. cbv iota.
      rewrite <- app_assoc. cbn [app]. rewrite scanstring_escaped by assumption.
      cbn [skip_ws]. change (is_ws 58) with false. cbv iota.
      change (58 =? 58) with true. cbv iota.
      rewrite skip_ws_space, skip_ws_head_ok by assumption.
      rewrite Hscan by assumption. reflexivity. }
  destruct l as [|y l].
  - cbn [map join_items] in Hts.
    destruct (Hitem ts Hts) as (t & Fx & -> & Hma & Hmh & Hstep).
    split; [exact Hma|].
    split; [rewrite <- (app_nil_r (_ ++ _)); apply Hmh|].
    exists (S Fx). intros f depth' rest Hf Hd. destruct f as [|f]; [lia|].
    rewrite Hstep by (try lia; apply number_stop_punct; tauto).
    cbn [skip_ws]. change (is_ws 125) with false. cbv iota.
    change (125 =? 125) with true. reflexivity.
  - cbn [map] in Hts, IH. rewrite join_items_cons in Hts.
    apply bind_ok_inv in Hts. destruct Hts as (m & Hm & Hts).
    apply bind_ok_inv in Hts. destruct Hts as (ts' & Hts' & Hts).
    apply ok_inj in Hts. subst ts.
    destruct (Hitem m Hm) as (t & Fx & Em & Hma & Hmh & Hstep).
    destruct (IH ts') as (Hasciis & Hheads & Fl & Hparse);
      [discriminate | exact Hts' |].
    split; [|split].
    + apply Forall_app. split; [assumption|].
      constructor; [unfold is_ascii; lia|].
      constructor; [unfold is_ascii; lia | assumption].
    + apply Hmh.
    + exists (S (Nat.max Fx Fl)).
      intros f depth' rest Hf Hd. destruct f as [|f]; [lia|].
      rewrite <- app_assoc.
      rewrite Hstep by (try lia; apply number_stop_punct; tauto).
      cbn [app skip_ws]. change (is_ws 44) with false. cbv iota.
      change (44 =? 125) with false. change (44 =? 44) with true. cbv iota.
      rewrite skip_ws_space, skip_ws_head_ok by assumption.
      rewrite Hparse by lia. reflexivity.
Qed.

End ReadBack.

Section NativeValues.

Variable float_repr : text -> text.
Variable lim : limits.

Lemma native_items d :
  forallb (fun kv : pyval * pyval =>
             match kv with
             | (PStr k, x) => str_ok k && json_native x
             | _ => false
             end) d = true ->
  exists pairs,
    d = map str_item pairs
    /\ Forall (fun p => str_ok (fst p) = true /\ json_native (snd p) = true) pairs.
Proof.
  induction d as [|[k x] d IH]; cbn [forallb]; intros H.
  - exists []. split; [reflexivity | constructor].
  - apply andb_prop in H. destruct H as [H1 H2].
    destruct k as [| | | |s| | | |]; try discriminate H1.
    apply andb_prop in H1. destruct (IH H2) as (pairs & -> & Hp).
    exists ((s, x) :: pairs). split; [reflexivity|].
    constructor; [exact H1 | exact Hp].
Qed.

Lemma scalar_reads_back v :
  (forall depth t,
     json_dumps float_repr lim depth v = Ok t ->
     Forall is_ascii t
     /\ (exists c t', t = c :: t' /\ is_ws c = false /\ c <> 93 /\ c <> 125
                      /\ c <> 123 /\ c <> 91)
     /\ forall depth' rest,
          number_stop rest -> scan_scalar lim depth' (t ++ rest) = Ok (v, rest)) ->
  reads_back float_repr lim v.
Proof.
  intros H depth t Ht.
  destruct (H depth t Ht) as (Ha & (c & t' & -> & Hc & H1 & H2 & H3 & H4) & Hs).
  split; [exact Ha|]. split; [exists c, t'; tauto|].
  exists 1%nat. intros f depth' rest Hf _ Hstop. destruct f as [|f]; [lia|].
  cbn [app]. rewrite scan_once_scalar by assumption. f_equal. now apply Hs.
Qed.

Lemma literal_reads_back v t :
  (forall depth, json_dumps float_repr lim depth v = Ok t) ->
  Forall is_ascii t ->
  (exists c t', t = c :: t' /\ is_ws c = false /\ c <> 93 /\ c <> 125
                /\ c <> 123 /\ c <> 91) ->
  (forall depth' rest, scan_scalar lim depth' (t ++ rest) = Ok (v, rest)) ->
  reads_back float_repr lim v.
Proof.
  intros Hd Ha Hh Hs. apply scalar_reads_back. intros depth t' Ht'.
  rewrite Hd in Ht'. apply ok_inj in Ht'. subst t'.
  split; [exact Ha|]. split; [exact Hh|]. intros depth' rest _. apply Hs.
Qed.

Lemma native_reads_back v : json_native v = true -> reads_back float_repr lim v.
Proof.
  induction v as [|b|n|f|s|b|l IH|l IH|d IH] using pyval_ind;
    cbn [json_native]; intros Hv; try discriminate Hv.
  - apply (literal_reads_back PNone txt_null); [reflexivity | | | reflexivity].
    + repeat constructor; unfold is_ascii; lia.
    + eexists; eexists. split; [reflexivity|].
      split; [reflexivity | repeat split; lia].
  - destruct b.
    + apply (literal_reads_back (PBool true) txt_true);
        [reflexivity | | | reflexivity].
      * repeat constructor; unfold is_ascii; lia.
      * eexists; eexists. split; [reflexivity|].
        split; [reflexivity | repeat split; lia].
    + apply (literal_reads_back (PBool false) txt_false);
        [reflexivity | | | reflexivity].
      * repeat constructor; unfold is_ascii; lia.
      * eexists; eexists. split; [reflexivity|].
        split; [reflexivity | repeat split; lia].
  - apply scalar_reads_back. intros depth t Ht.
    assert (Hi : int_str lim n = Ok t) by (destruct depth; exact Ht).
    pose proof (int_str_repr _ _ _ Hi) as E. split; [|split].
    + rewrite E. apply int_repr_ascii.
    + destruct (int_repr_head n) as (c & t' & E' & Hc). exists c, t'.
      split; [now rewrite E|]. unfold is_ws.
      split; [|repeat split; lia].
      destruct (Z.eqb_spec c 32); [lia|]. destruct (Z.eqb_spec c 9); [lia|].
      destruct (Z.eqb_spec c 10); [lia|]. destruct (Z.eqb_spec c 13); [lia|].
      reflexivity.
    + intros depth' rest. now apply scan_scalar_int.
  - apply (literal_reads_back (PStr s) (encode_basestring_ascii s));
      [reflexivity | | | ].
    + now apply encode_basestring_ascii_ascii.
    + unfold encode_basestring_ascii. eexists; eexists.
      split; [reflexivity|]. split; [reflexivity | repeat split; lia].
    + intros depth' rest. now apply scan_scalar_str.
  - (* list *)
    intros depth t Ht. destruct depth as [|depth]; [discriminate Ht|].
    rewrite json_dumps_list in Ht.
    apply bind_ok_inv in Ht. destruct Ht as (ts & Hts & Ht).
    apply ok_inj in Ht. subst t.
    destruct l as [|x l].
    + cbn [map join_items] in Hts. apply ok_inj in Hts. subst ts.
      split; [repeat constructor; unfold is_ascii; lia|].
      split; [eexists; eexists; split;
              [reflexivity | split; [reflexivity | split; lia]]|].
      exists 1%nat. intros f depth' rest Hf Hd _.
      destruct f as [|f]; [lia|]. destruct depth' as [|depth']; [lia|].
      reflexivity.
    + assert (Hall : Forall (reads_back float_repr lim) (x :: l)).
      { apply Forall_forall. intros y Hy.
        rewrite Forall_forall in IH. apply (IH y Hy).
        rewrite forallb_forall in Hv. now apply Hv. }
      destruct (elements_read_back float_repr lim depth (x :: l) Hall ts)
        as (Ha & Hh & F & Hp); [discriminate | exact Hts |].
      split; [|split].
      * constructor; [unfold is_ascii; lia|]. apply Forall_app.
        split; [assumption | repeat constructor; unfold is_ascii; lia].
      * eexists; eexists. split; [reflexivity|].
        split; [reflexivity | split; lia].
      * exists (S F). intros f depth' rest Hf Hd _.
        destruct f as [|f]; [lia|]. destruct depth' as [|depth']; [lia|].
        cbn [app]. rewrite <- app_assoc. cbn [app scan_once].
        change (91 =? 123) with false. change (91 =? 91) with true. cbv iota.
        rewrite skip_ws_head_ok by assumption.
        destruct Hh as (c & t' & E & _ & Hc & _). rewrite E in *. cbn [app].
        destruct (Z.eqb_spec c 93); [contradiction|].
        cbn [app] in Hp. rewrite Hp by lia. reflexivity.
  - (* dict *)
    apply andb_prop in Hv. destruct Hv as [Hitems Hkeys].
    destruct (native_items d Hitems) as (pairs & -> & Hpairs).
    intros depth t Ht. destruct depth as [|depth]; [discriminate Ht|].
    rewrite json_dumps_dict in Ht.
    apply bind_ok_inv in Ht. destruct Ht as (ts & Hts & Ht).
    apply ok_inj in Ht. subst t.
    destruct pairs as [|p pairs].
    + cbn [map join_items] in Hts. apply ok_inj in Hts. subst ts.
      split; [repeat constructor; unfold is_ascii; lia|].
      split; [eexists; eexists; split;
              [reflexivity | split; [reflexivity | split; lia]]|].
      exists 1%nat. intros f depth' rest Hf Hd _.
      destruct f as [|f]; [lia|]. destruct depth' as [|depth']; [lia|].
      reflexivity.
    + assert (Hall : Forall (fun q => str_ok (fst q) = true
                                      /\ reads_back float_repr lim (snd q))
                            (p :: pairs)).
      { apply Forall_forall. intros q Hq.
        rewrite Forall_forall in Hpairs. destruct (Hpairs q Hq) as [Hk Hn].
        split; [exact Hk|].
        rewrite Forall_forall in IH.
        apply (IH (str_item q)); [now apply in_map | exact Hn]. }
      destruct (members_read_back float_repr lim depth (p :: pairs) Hall ts)
        as (Ha & Hh & F & Hp); [discriminate | exact Hts |].
      split; [|split].
      * constructor; [unfold is_ascii; lia|]. apply Forall_app.
        split; [assumption | repeat constructor; unfold is_ascii; lia].
      * eexists; eexists. split; [reflexivity|].
        split; [reflexivity | split; lia].
      * exists (S F). intros f depth' rest Hf Hd _.
        destruct f as [|f]; [lia|]. destruct depth' as [|depth']; [lia|].
        cbn [app]. rewrite <- app_assoc. cbn [app scan_once].
        change (123 =? 123) with true. cbv iota.
        rewrite skip_ws_head_ok by assumption.
        destruct Hh as (c & t' & E & _ & _ & Hc). rewrite E in *. cbn [app].
        destruct (Z.eqb_spec c 125); [contradiction|].
        cbn [app] in Hp. rewrite Hp by lia. cbn [scan_map].
        now rewrite dict_of_pairs_items.
Qed.

End NativeValues.

(** ** The fuel of [json_loads] is enough *)

Lemma skip_ws_length s : (length (skip_ws s) <= length s)%nat.
Proof.
  induction s as [|c s IH]; cbn [skip_ws]; [lia|].
  destruct (is_ws c); cbn [length]; lia.
Qed.

Lemma push_char_inv c o str r :
  push_char c o = Some (str, r) ->
  exists str', o = Some (str', r) /\ str = c :: str'.
Proof.
  destruct o as [[str' r']|]; cbn; [|discriminate].
  intros H. inversion H. subst. now exists str'.
Qed.

Lemma scanstring_length s str r :
  scanstring s = Some (str, r) -> (length r < length s)%nat.
Proof.
  remember (length s) as n eqn:En. revert s str r En.
  induction n as [n IH] using lt_wf_ind. intros s str r En. subst n.
  destruct s as [|c s1]; [discriminate|]. cbn [scanstring].
  assert (Hrec : forall c' t str0,
             (length t <= length s1)%nat ->
             push_char c' (scanstring t) = Some (str0, r) ->
             (length r < length (c :: s1))%nat).
  { intros c' t str0 Hle H. apply push_char_inv in H.
    destruct H as (str' & H & _).
    apply (IH (length t)) in H; cbn [length] in *; try lia; reflexivity. }
  destruct (c =? 34). { intros H. inversion H. subst. cbn [length]. lia. }
  destruct (c =? 92).
  - destruct s1 as [|e r1]; [discriminate|].
    destruct (e =? 117).
    + destruct r1 as [|h1 [|h2 [|h3 [|h4 r2]]]]; try discriminate.
      destruct (hex4_value h1 h2 h3 h4) as [u|]; [|discriminate].
      assert (Hr2 : forall str0, push_char u (scanstring r2) = Some (str0, r) ->
                                 (length r < length (c :: e :: h1 :: h2 :: h3 :: h4 :: r2))%nat).
      { intros str0. apply Hrec. cbn [length]. lia. }
      destruct (is_high_surrogate u); [|apply Hr2].
      destruct r2 as [|b [|u' [|g1 [|g2 [|g3 [|g4 r3]]]]]]; try apply Hr2.
      destruct ((b =? 92) && (u' =? 117)); [|apply Hr2].
      destruct (hex4_value g1 g2 g3 g4) as [u2|]; [|discriminate].
      destruct (is_low_surrogate u2); [|apply Hr2].
      apply Hrec. cbn [length]. lia.
    + destruct (unescape e) as [c'|]; [|discriminate].
      apply Hrec. cbn [length]. lia.
  - destruct (c <? 32); [discriminate|]. apply Hrec. lia.
Qed.

Lemma strip_prefix_length p s r :
  strip_prefix p s = Some r -> (length r + length p = length s)%nat.
Proof.
  revert s. induction p as [|a p IH]; intros s; cbn [strip_prefix].
  - intros H. inversion H. cbn [length]. lia.
  - destruct s as [|c s]; [discriminate|].
    destruct (c =? a); [|discriminate]. intros H. apply IH in H.
    cbn [length]. lia.
Qed.

Lemma span_digits_length s : (length (snd (span_digits s)) <= length s)%nat.
Proof.
  induction s as [|c s IH]; cbn [span_digits]; [cbn; lia|].
  destruct (is_digit c); [|cbn; lia].
  destruct (span_digits s) as [ds r']. cbn [snd length] in *. lia.
Qed.

Lemma scan_frac_length s : (length (snd (scan_frac s)) <= length s)%nat.
Proof.
  unfold scan_frac. destruct s as [|p r]; [cbn; lia|].
  destruct (p =? 46); [|cbn; lia].
  pose proof (span_digits_length r) as H.
  destruct (span_digits r) as [[|d ds] r']; cbn [snd length] in *; lia.
Qed.

Lemma scan_exp_length s : (length (snd (scan_exp s)) <= length s)%nat.
Proof.
  unfold scan_exp. destruct s as [|e r]; [cbn; lia|].
  destruct ((e =? 101) || (e =? 69)); [|cbn; lia].
  destruct r as [|c r'].
  - cbn. lia.
  - destruct ((c =? 43) || (c =? 45)).
    + pose proof (span_digits_length r') as H.
      destruct (span_digits r') as [[|d ds] r'']; cbn [snd length] in *; lia.
    + pose proof (span_digits_length (c :: r')) as H.
      destruct (span_digits (c :: r')) as [[|d ds] r'']; cbn [snd length] in *; lia.
Qed.

Lemma match_number_length lim s v r :
  match_number lim s = Ok (v, r) -> (length r < length s)%nat.
Proof.
  unfold match_number.
  assert (Hsign : (length (snd (scan_sign s)) <= length s)%nat).
  { unfold scan_sign. destruct s as [|c s']; [cbn; lia|].
    destruct (c =? 45); cbn [snd length]; lia. }
  destruct (scan_sign s) as [sg s1]. cbn [snd] in Hsign.
  assert (Hint : forall int s2, scan_int s1 = Some (int, s2) ->
                                (length s2 < length s1)%nat).
  { unfold scan_int. destruct s1 as [|d r1]; [discriminate|]. intros int s2.
    destruct (d =? 48); [intros H; inversion H; cbn [length]; lia|].
    destruct (is_digit d); [|discriminate].
    pose proof (span_digits_length r1) as H.
    destruct (span_digits r1) as [ds r']. intros H'. inversion H'. subst.
    cbn [snd length] in *. lia. }
  destruct (scan_int s1) as [[int s2]|]; [|discriminate].
  specialize (Hint int s2 eq_refl).
  pose proof (scan_frac_length s2) as Hf.
  destruct (scan_frac s2) as [frac s3]. cbn [snd] in Hf.
  pose proof (scan_exp_length s3) as He.
  destruct (scan_exp s3) as [exp s4]. cbn [snd] in He.
  destruct (frac ++ exp).
  - destruct (over_digit_limit lim (len int) (len int)); [discriminate|].
    intros H; inversion H; subst; lia.
  - intros H; inversion H; subst; lia.
Qed.

Lemma literal_inv w p s v r :
  literal w p s = Ok (v, r) -> v = w /\ strip_prefix p s = Some r.
Proof.
  unfold literal. destruct (strip_prefix p s) as [r'|]; [|discriminate].
  intros H. apply ok_inj in H. injection H as <- <-. now split.
Qed.

Lemma constant_inv depth w r' v r :
  constant depth w r' = Ok (v, r) -> v = w /\ r = r'.
Proof.
  unfold constant. destruct depth; [discriminate|].
  intros H. apply ok_inj in H. injection H as <- <-. now split.
Qed.

Lemma scan_scalar_length lim depth s v r :
  scan_scalar lim depth s = Ok (v, r) -> (length r < length s)%nat.
Proof.
  unfold scan_scalar. destruct s as [|c s']; [discriminate|].
  assert (Hlit : forall p (w : pyval),
             p <> [] ->
             literal w p (c :: s') = Ok (v, r) ->
             (length r < length (c :: s'))%nat).
  { intros p w Hp H. apply literal_inv in H. destruct H as [_ E].
    apply strip_prefix_length in E. destruct p; [contradiction|].
    cbn [length] in *. lia. }
  destruct (c =? 34).
  { destruct (scanstring s') as [[str r']|] eqn:E; [|discriminate].
    intros H. apply ok_inj in H. injection H as <- <-.
    apply scanstring_length in E. cbn [length]. lia. }
  destruct (c =? 110); [apply Hlit; discriminate|].
  destruct (c =? 116); [apply Hlit; discriminate|].
  destruct (c =? 102); [apply Hlit; discriminate|].
  assert (Hconst : forall p (w : pyval) r',
             p <> [] -> strip_prefix p (c :: s') = Some r' ->
             constant depth w r' = Ok (v, r) ->
             (length r < length (c :: s'))%nat).
  { intros p w r' Hp E H. apply constant_inv in H. destruct H as [_ ->].
    apply strip_prefix_length in E. destruct p; [contradiction|].
    cbn [length] in *. lia. }
  destruct (c =? 78).
  { destruct (strip_prefix txt_NaN (c :: s')) as [r'|] eqn:E; [|discriminate].
    apply (Hconst txt_NaN _ _ ltac:(discriminate) E). }
  destruct (c =? 73).
  { destruct (strip_prefix txt_Infinity (c :: s')) as [r'|] eqn:E;
      [|discriminate].
    apply (Hconst txt_Infinity _ _ ltac:(discriminate) E). }
  destruct (strip_prefix txt_neg_Infinity (c :: s')) as [r'|] eqn:E.
  - apply (Hconst txt_neg_Infinity _ _ ltac:(discriminate) E).
  - apply match_number_length.
Qed.

Ltac same := let H := fresh in intros H; exact H.

(** What a scanner yields with some fuel, it yields with any more. *)
Lemma scan_fuel_monotone lim f :
  fuel_monotone (scan_once lim) f
  /\ fuel_monotone (parse_elements lim) f
  /\ fuel_monotone (parse_members lim) f.
Proof.
  induction f as [|f (IHv & IHe & IHm)];
    [split; [|split]; intros d s r H; discriminate H|].
  split; [|split].
  - (* scan_once *)
    intros d s r H f' Hf. destruct f' as [|f']; [lia|]. revert H.
    cbn [scan_once]. destruct s as [|c r0]; [same|].
    destruct (c =? 123); [|destruct (c =? 91)].
    + destruct d as [|d]; [same|].
      destruct (skip_ws r0) as [|c' r']; [same|].
      destruct (c' =? 125); [same|].
      destruct (parse_members lim f d (c' :: r')) as [rm|] eqn:Ep;
        [|discriminate].
      rewrite (IHm _ _ _ Ep f') by lia. same.
    + destruct d as [|d]; [same|].
      destruct (skip_ws r0) as [|c' r']; [same|].
      destruct (c' =? 93); [same|].
      destruct (parse_elements lim f d (c' :: r')) as [re|] eqn:Ep;
        [|discriminate].
      rewrite (IHe _ _ _ Ep f') by lia. same.
    + same.
  - (* parse_elements *)
    intros d s r H f' Hf. destruct f' as [|f']; [lia|]. revert H.
    cbn [parse_elements].
    destruct (scan_once lim f d s) as [rv|] eqn:Ev; [|discriminate].
    rewrite (IHv _ _ _ Ev f') by lia.
    destruct rv as [[v r1]|e]; [|same].
    destruct (skip_ws r1) as [|c r']; [same|].
    destruct (c =? 93); [same|]. destruct (c =? 44); [|same].
    destruct (parse_elements lim f d (skip_ws r')) as [re|] eqn:Ep;
      [|discriminate].
    rewrite (IHe _ _ _ Ep f') by lia. same.
  - (* parse_members *)
    intros d s r H f' Hf. destruct f' as [|f']; [lia|]. revert H.
    cbn [parse_members]. destruct s as [|q r0]; [same|].
    destruct (q =? 34); [|same].
    destruct (scanstring r0) as [[key r1]|]; [|same].
    destruct (skip_ws r1) as [|col r2]; [same|].
    destruct (col =? 58); [|same].
    destruct (scan_once lim f d (skip_ws r2)) as [rv|] eqn:Ev; [|discriminate].
    rewrite (IHv _ _ _ Ev f') by lia.
    destruct rv as [[v r3]|e]; [|same].
    destruct (skip_ws r3) as [|c r4]; [same|].
    destruct (c =? 125); [same|]. destruct (c =? 44); [|same].
    destruct (parse_members lim f d (skip_ws r4)) as [rm|] eqn:Ep;
      [|discriminate].
    rewrite (IHm _ _ _ Ep f') by lia. same.
Qed.

Ltac raised :=
  eexists; split; [reflexivity|];
  let a := fresh in let rest := fresh in let H := fresh in
  intros a rest H; discriminate H.

(** The scanners do not run out of fuel when they have more than twice
    the length of the text. *)
Lemma scan_fuel_enough lim f :
  fuel_enough (scan_once lim) 1 f
  /\ fuel_enough (parse_elements lim) 2 f
  /\ fuel_enough (parse_members lim) 2 f.
Proof.
  induction f as [|f (IHv & IHe & IHm)];
    [split; [|split]; intros d s H; lia|].
  split; [|split].
  - (* scan_once *)
    intros d s Hf. cbn [scan_once]. destruct s as [|c r0]; [raised|].
    cbn [length] in Hf. pose proof (skip_ws_length r0) as Hws.
    destruct (c =? 123); [|destruct (c =? 91)].
    + destruct d as [|d]; [raised|].
      destruct (skip_ws r0) as [|c' r'] eqn:Es; [raised|].
      destruct (c' =? 125).
      * eexists. split; [reflexivity|]. intros a rest H.
        apply ok_inj in H. injection H as <- <-. cbn [length] in *. lia.
      * destruct (IHm d (c' :: r')) as (rm & Hm & Hlen); [lia|].
        rewrite Hm. destruct rm as [[pairs r1]|e]; cbn [scan_map]; [|raised].
        eexists. split; [reflexivity|]. intros a rest H.
        apply ok_inj in H. injection H as <- <-.
        specialize (Hlen _ _ eq_refl). cbn [length] in *. lia.
    + destruct d as [|d]; [raised|].
      destruct (skip_ws r0) as [|c' r'] eqn:Es; [raised|].
      destruct (c' =? 93).
      * eexists. split; [reflexivity|]. intros a rest H.
        apply ok_inj in H. injection H as <- <-. cbn [length] in *. lia.
      * destruct (IHe d (c' :: r')) as (re & He & Hlen); [lia|].
        rewrite He. destruct re as [[vs r1]|e]; cbn [scan_map]; [|raised].
        eexists. split; [reflexivity|]. intros a rest H.
        apply ok_inj in H. injection H as <- <-.
        specialize (Hlen _ _ eq_refl). cbn [length] in *. lia.
    + eexists. split; [reflexivity|]. intros a rest H.
      now apply scan_scalar_length in H.
  - (* parse_elements *)
    intros d s Hf. cbn [parse_elements].
    destruct (IHv d s) as (rv & Hv & Hlenv); [lia|]. rewrite Hv.
    destruct rv as [[v r1]|e]; [|raised].
    specialize (Hlenv _ _ eq_refl). pose proof (skip_ws_length r1) as Hws.
    destruct (skip_ws r1) as [|c r'] eqn:Es; [raised|]. cbn [length] in Hws.
    destruct (c =? 93).
    + eexists. split; [reflexivity|]. intros a rest H.
      apply ok_inj in H. injection H as <- <-. lia.
    + destruct (c =? 44); [|raised].
      pose proof (skip_ws_length r') as Hws'.
      destruct (IHe d (skip_ws r')) as (re & He & Hlen); [lia|].
      rewrite He. destruct re as [[vs r2]|e]; cbn [scan_map]; [|raised].
      eexists. split; [reflexivity|]. intros a rest H.
      apply ok_inj in H. injection H as <- <-.
      specialize (Hlen _ _ eq_refl). lia.
  - (* parse_members *)
    intros d s Hf. cbn [parse_members]. destruct s as [|q r0]; [raised|].
    destruct (q =? 34); [|raised].
    destruct (scanstring r0) as [[key r1]|] eqn:Ek; [|raised].
    pose proof (scanstring_length _ _ _ Ek) as Hk.
    pose proof (skip_ws_length r1) as Hws1.
    destruct (skip_ws r1) as [|col r2] eqn:Es1; [raised|].
    destruct (col =? 58); [|raised].
    pose proof (skip_ws_length r2) as Hws2. cbn [length] in *.
    destruct (IHv d (skip_ws r2)) as (rv & Hv & Hlenv); [lia|]. rewrite Hv.
    destruct rv as [[v r3]|e]; [|raised].
    specialize (Hlenv _ _ eq_refl). pose proof (skip_ws_length r3) as Hws3.
    destruct (skip_ws r3) as [|c r4] eqn:Es3; [raised|]. cbn [length] in Hws3.
    destruct (c =? 125).
    + eexists. split; [reflexivity|]. intros a rest H.
      apply ok_inj in H. injection H as <- <-. lia.
    + destruct (c =? 44); [|raised].
      pose proof (skip_ws_length r4) as Hws4.
      destruct (IHm d (skip_ws r4)) as (rm & Hm & Hlen); [lia|].
      rewrite Hm. destruct rm as [[pairs r5]|e]; cbn [scan_map]; [|raised].
      eexists. split; [reflexivity|]. intros a rest H.
      apply ok_inj in H. injection H as <- <-.
      specialize (Hlen _ _ eq_refl). lia.
Qed.

(** [json_loads] gives its scanner enough fuel. *)
Lemma json_loads_fuel lim s depth :
  exists r, scan_once lim (loads_fuel s) depth (skip_ws s) = Some r.
Proof.
  pose proof (skip_ws_length s) as Hws.
  destruct (proj1 (scan_fuel_enough lim (loads_fuel s)) depth (skip_ws s))
    as (r & Hr & _); [unfold loads_fuel; lia|].
  now exists r.
Qed.

(** [json_loads] finds every value some amount of fuel finds. *)
Lemma json_loads_any_fuel lim f s v r :
  scan_once lim f (S (loads_depth lim)) (skip_ws s) = Some (Ok (v, r)) ->
  skip_ws r = [] ->
  json_loads lim s = Ok v.
Proof.
  intros Hscan Hr. unfold json_loads.
  destruct (json_loads_fuel lim s (S (loads_depth lim))) as (r0 & Hr0).
  pose proof (proj1 (scan_fuel_monotone lim _) _ _ _ Hscan
                (Nat.max f (loads_fuel s)) (Nat.le_max_l _ _)) as H1.
  pose proof (proj1 (scan_fuel_monotone lim _) _ _ _ Hr0
                (Nat.max f (loads_fuel s)) (Nat.le_max_r _ _)) as H2.
  rewrite H1 in H2. apply some_inj in H2. subst r0.
  rewrite Hr0. now rewrite Hr.
Qed.

(** ** Round trip *)

(** What [json.dumps] writes for a value of the JSON data model, when it
    writes something, is ASCII text from which [json.loads] builds the
    value. *)
Lemma json_loads_dumps float_repr lim v t :
  json_native v = true ->
  json_dumps float_repr lim (S (dumps_depth lim)) v = Ok t ->
  Forall is_ascii t /\ json_loads lim t = Ok v.
Proof.
  intros Hv Ht.
  destruct (native_reads_back float_repr lim v Hv _ _ Ht) as (Ha & Hh & F & Hscan).
  split; [exact Ha|].
  apply (json_loads_any_fuel lim F t v []); [|reflexivity].
  pose proof (skip_ws_head_ok t [] Hh) as Hws. rewrite app_nil_r in Hws.
  rewrite Hws.
  assert (Hd : (S (dumps_depth lim) <= S (loads_depth lim))%nat)
    by (unfold loads_depth; lia).
  specialize (Hscan F (S (loads_depth lim)) [] (Nat.le_refl F) Hd I).
  now rewrite app_nil_r in Hscan.
Qed.

Lemma pack_inv native n q :
  struct_pack_I native n = Ok q ->
  0 <= n < 4294967296 /\ q = in_order native (le_bytes n).
Proof.
  unfold struct_pack_I.
  destruct (Z.leb_spec 0 n); destruct (Z.ltb_spec n 4294967296); cbn [andb];
    try discriminate.
  intros Hq. apply ok_inj in Hq. subst q. split; [lia | reflexivity].
Qed.

(** The frame [send_message] writes for a value of the JSON data model:
    the prefix of the length of a text, and the text, which is ASCII and
    from which [json.loads] builds the value. *)
Lemma sent_frame native float_repr lim v f :
  json_native v = true ->
  send_message native float_repr lim v [] = Ok f ->
  exists t,
    Forall is_ascii t
    /\ json_loads lim t = Ok v
    /\ 0 <= len t < 4294967296
    /\ f = in_order native (le_bytes (len t)) ++ t.
Proof.
  intros Hv Hsend. unfold send_message in Hsend.
  apply bind_ok_inv in Hsend. destruct Hsend as (t & Ht & Hsend).
  destruct (json_loads_dumps float_repr lim v t Hv Ht) as [Ha Hl].
  unfold str_encode in Hsend. rewrite utf8_encode_ascii in Hsend by assumption.
  cbn [of_option bind] in Hsend.
  apply bind_ok_inv in Hsend. destruct Hsend as (q & Hq & Hsend).
  apply ok_inj in Hsend. cbn [app] in Hsend. subst f.
  destruct (pack_inv _ _ _ Hq) as [Hr ->]. exists t. tauto.
Qed.

Lemma decode_ascii_frame native lim t v rest out lg :
  Forall is_ascii t -> json_loads lim t = Ok v -> 0 <= len t < 4294967296 ->
  decode native lim
    (mk_state ((in_order native (le_bytes (len t)) ++ t) ++ rest) out lg)
  = (Ok (Message v), mk_state rest out lg).
Proof.
  intros Ha Hl Hr. rewrite <- app_assoc.
  rewrite decode_frame by (now apply unpack_pack).
  unfold bytes_decode. rewrite utf8_decode_ascii by assumption.
  cbn [of_option bind]. now rewrite Hl.
Qed.

Lemma round_trip_frame native float_repr lim v f :
  json_native v = true ->
  send_message native float_repr lim v [] = Ok f ->
  (4 <= length f)%nat
  /\ forall rest out lg,
       decode native lim (mk_state (f ++ rest) out lg)
       = (Ok (Message v), mk_state rest out lg).
Proof.
  intros Hv Hsend.
  destruct (sent_frame _ _ _ _ _ Hv Hsend) as (t & Ha & Hl & Hr & ->). split.
  - rewrite length_app, in_order_length. cbn [le_bytes length]. lia.
  - intros rest out lg. now apply decode_ascii_frame.
Qed.


(** ** What the scanners accept is in the grammar *)

Lemma skip_ws_sound s : exists w, s = w ++ skip_ws s /\ all_ws w.
Proof.
  induction s as [|c s (w & Hw & Hall)]; cbn [skip_ws].
  - exists []. split; [reflexivity | constructor].
  - destruct (is_ws c) eqn:E.
    + exists (c :: w). split; [cbn [app]; now f_equal | now constructor].
    + exists []. split; [reflexivity | constructor].
Qed.

Lemma hex_value_is_hex c d : hex_value c = Some d -> is_hex c.
Proof.
  unfold hex_value, is_digit, is_hex.
  destruct ((48 <=? c) && (c <=? 57)) eqn:E1.
  - apply andb_prop in E1. intros _. lia.
  - destruct ((97 <=? c) && (c <=? 102)) eqn:E2.
    + apply andb_prop in E2. intros _. lia.
    + destruct ((65 <=? c) && (c <=? 70)) eqn:E3; [|discriminate].
      apply andb_prop in E3. intros _. lia.
Qed.

Lemma hex4_value_sound h1 h2 h3 h4 u :
  hex4_value h1 h2 h3 h4 = Some u ->
  is_hex h1 /\ is_hex h2 /\ is_hex h3 /\ is_hex h4 /\ 0 <= u < 65536.
Proof.
  unfold hex4_value.
  destruct (hex_value h1) as [a|] eqn:E1; [|discriminate].
  destruct (hex_value h2) as [b|] eqn:E2; [|discriminate].
  destruct (hex_value h3) as [c|] eqn:E3; [|discriminate].
  destruct (hex_value h4) as [d|] eqn:E4; [|discriminate].
  intros H. injection H as <-.
  pose proof (hex_value_range _ _ E1). pose proof (hex_value_range _ _ E2).
  pose proof (hex_value_range _ _ E3). pose proof (hex_value_range _ _ E4).
  repeat split; eauto using hex_value_is_hex; lia.
Qed.

Lemma unescape_sound e c :
  unescape e = Some c ->
  In e [34; 92; 47; 98; 102; 110; 114; 116] /\ is_codepoint c = true.
Proof.
  unfold unescape.
  repeat match goal with
         | |- context [e =? ?b] =>
             destruct (Z.eqb_spec e b);
             [subst e; intros H; injection H as <-;
              split; [cbn [In]; tauto | reflexivity]|]
         end.
  discriminate.
Qed.

Lemma codepoints_app a b : codepoints (a ++ b) = codepoints a && codepoints b.
Proof. apply forallb_app. Qed.

Lemma codepoints_suffix pre t : codepoints (pre ++ t) = true -> codepoints t = true.
Proof. rewrite codepoints_app. intros H. now apply andb_prop in H. Qed.

Lemma is_codepoint_range c : 0 <= c <= 1114111 -> is_codepoint c = true.
Proof.
  intros H. unfold is_codepoint. apply andb_true_intro.
  split; apply Z.leb_le; lia.
Qed.

(** [scanstring] consumes the characters of a JSON string up to its
    closing quote, and builds code points from code points. *)
Lemma scanstring_sound s str r :
  scanstring s = Some (str, r) ->
  exists k,
    s = k ++ 34 :: r /\ json_chars k
    /\ (codepoints s = true -> codepoints str = true).
Proof.
  remember (length s) as n eqn:En. revert s str r En.
  induction n as [n IH] using lt_wf_ind. intros s str r En. subst n.
  assert (Hrec : forall pre c' t,
             s = pre ++ t -> (length t < length s)%nat ->
             (forall k', json_chars k' -> json_chars (pre ++ k')) ->
             (codepoints s = true -> is_codepoint c' = true) ->
             push_char c' (scanstring t) = Some (str, r) ->
             exists k,
               s = k ++ 34 :: r /\ json_chars k
               /\ (codepoints s = true -> codepoints str = true)).
  { intros pre c' t Hs Hlen Hpre Hc' H. apply push_char_inv in H.
    destruct H as (str' & H & ->).
    destruct (IH (length t) Hlen t str' r eq_refl H) as (k' & Ht & Hk' & Hcp).
    exists (pre ++ k'). split; [rewrite Hs, Ht; now rewrite app_assoc|].
    split; [now apply Hpre|]. intros Hall. cbn [codepoints forallb].
    rewrite (Hc' Hall). cbn [andb]. apply Hcp. rewrite Hs in Hall.
    now apply codepoints_suffix in Hall. }
  destruct s as [|c s1]; [discriminate|]. cbn [scanstring].
  destruct (Z.eqb_spec c 34) as [->|Hq].
  { intros H. injection H as <- <-. exists []. split; [reflexivity|].
    split; [constructor | reflexivity]. }
  destruct (Z.eqb_spec c 92) as [->|Hb].
  - destruct s1 as [|e r1]; [discriminate|].
    destruct (Z.eqb_spec e 117) as [->|He].
    + destruct r1 as [|h1 [|h2 [|h3 [|h4 r2]]]]; try discriminate.
      destruct (hex4_value h1 h2 h3 h4) as [u|] eqn:Eu; [|discriminate].
      destruct (hex4_value_sound _ _ _ _ _ Eu) as (X1 & X2 & X3 & X4 & Hu).
      assert (Hone : push_char u (scanstring r2) = Some (str, r) ->
                     exists k,
                       92 :: 117 :: h1 :: h2 :: h3 :: h4 :: r2 = k ++ 34 :: r
                       /\ json_chars k
                       /\ (codepoints (92 :: 117 :: h1 :: h2 :: h3 :: h4 :: r2) = true ->
                           codepoints str = true)).
      { apply (Hrec [92; 117; h1; h2; h3; h4] u r2);
          [reflexivity | cbn [length]; lia | | ].
        - intros k' Hk'. cbn [app]. now apply chars_unicode.
        - intros _. apply is_codepoint_range. lia. }
      destruct (is_high_surrogate u) eqn:Ehigh; [|exact Hone].
      destruct r2 as [|b [|u' [|g1 [|g2 [|g3 [|g4 r3]]]]]]; try exact Hone.
      destruct (Z.eqb_spec b 92) as [->|]; [|exact Hone].
      destruct (Z.eqb_spec u' 117) as [->|]; [|exact Hone].
      cbn [andb].
      destruct (hex4_value g1 g2 g3 g4) as [u2|] eqn:Eu2; [|discriminate].
      destruct (hex4_value_sound _ _ _ _ _ Eu2) as (Y1 & Y2 & Y3 & Y4 & Hu2).
      destruct (is_low_surrogate u2) eqn:Elow; [|exact Hone].
      apply (Hrec [92; 117; h1; h2; h3; h4; 92; 117; g1; g2; g3; g4] _ r3);
        [reflexivity | cbn [length]; lia | | ].
      * intros k' Hk'. cbn [app].
        apply chars_unicode; try assumption. now apply chars_unicode.
      * intros _. unfold is_high_surrogate in Ehigh.
        unfold is_low_surrogate in Elow.
        apply andb_prop in Ehigh. apply andb_prop in Elow.
        apply is_codepoint_range. lia.
    + destruct (unescape e) as [c'|] eqn:Ee; [|discriminate].
      destruct (unescape_sound _ _ Ee) as [Hin Hc'].
      apply (Hrec [92; e] c' r1); [reflexivity | cbn [length]; lia | | ].
      * intros k' Hk'. cbn [app]. now apply chars_escape.
      * intros _. exact Hc'.
  - destruct (Z.ltb_spec c 32) as [|Hc]; [discriminate|].
    apply (Hrec [c] c s1); [reflexivity | cbn [length]; lia | | ].
    + intros k' Hk'. cbn [app]. apply chars_plain; [lia | assumption..].
    + cbn [codepoints forallb]. intros H. now apply andb_prop in H.
Qed.

Lemma is_digit_range c : is_digit c = true -> 48 <= c <= 57.
Proof. unfold is_digit. intros H. apply andb_prop in H. lia. Qed.

Lemma span_digits_sound s ds r :
  span_digits s = (ds, r) -> s = ds ++ r /\ all_digits ds.
Proof.
  revert ds r. induction s as [|c s IH]; intros ds r; cbn [span_digits].
  - intros H. injection H as <- <-. split; [reflexivity | constructor].
  - destruct (is_digit c) eqn:E.
    + destruct (span_digits s) as [ds' r'] eqn:Es.
      intros H. injection H as <- <-.
      destruct (IH ds' r' eq_refl) as [-> Hall].
      split; [reflexivity|]. constructor; [now apply is_digit_range | exact Hall].
    + intros H. injection H as <- <-. split; [reflexivity | constructor].
Qed.

Lemma scan_sign_sound s sg r :
  scan_sign s = (sg, r) -> s = sg ++ r /\ (sg = [] \/ sg = [45]).
Proof.
  unfold scan_sign. destruct s as [|c s'].
  - intros H. injection H as <- <-. split; [reflexivity | now left].
  - destruct (Z.eqb_spec c 45) as [->|]; intros H; injection H as <- <-.
    + split; [reflexivity | now right].
    + split; [reflexivity | now left].
Qed.

Lemma scan_int_sound s i r : scan_int s = Some (i, r) -> s = i ++ r /\ json_int i.
Proof.
  unfold scan_int. destruct s as [|d s']; [discriminate|].
  destruct (Z.eqb_spec d 48) as [->|Hd].
  - intros H. injection H as <- <-. split; [reflexivity | constructor].
  - destruct (is_digit d) eqn:E; [|discriminate].
    destruct (span_digits s') as [ds r'] eqn:Es. intros H. injection H as <- <-.
    destruct (span_digits_sound _ _ _ Es) as [-> Hall].
    split; [reflexivity|]. apply is_digit_range in E.
    constructor; [lia | exact Hall].
Qed.

Lemma scan_frac_sound s f r : scan_frac s = (f, r) -> s = f ++ r /\ json_frac f.
Proof.
  unfold scan_frac. destruct s as [|p s'].
  - intros H. injection H as <- <-. split; [reflexivity | constructor].
  - destruct (Z.eqb_spec p 46) as [->|].
    + destruct (span_digits s') as [[|d ds] r'] eqn:Es;
        intros H; injection H as <- <-.
      * split; [reflexivity | constructor].
      * destruct (span_digits_sound _ _ _ Es) as [-> Hall].
        split; [reflexivity|]. constructor; [discriminate | exact Hall].
    + intros H. injection H as <- <-. split; [reflexivity | constructor].
Qed.

Lemma scan_exp_sound s e r : scan_exp s = (e, r) -> s = e ++ r /\ json_exp e.
Proof.
  unfold scan_exp. destruct s as [|c s'].
  - intros H. injection H as <- <-. split; [reflexivity | constructor].
  - destruct ((c =? 101) || (c =? 69)) eqn:Ec.
    + assert (Hc : c = 101 \/ c = 69).
      { apply orb_prop in Ec. destruct Ec as [Ec|Ec]; apply Z.eqb_eq in Ec; lia. }
      assert (Hsign : forall sg r1,
                 s' = sg ++ r1 -> sg = [] \/ sg = [43] \/ sg = [45] ->
                 match span_digits r1 with
                 | ([], _) => ([], c :: s')
                 | (ds, r') => (c :: sg ++ ds, r')
                 end = (e, r) ->
                 c :: s' = e ++ r /\ json_exp e).
      { intros sg r1 Hs Hsg.
        destruct (span_digits r1) as [[|d ds] r'] eqn:Es;
          intros H; injection H as <- <-.
        - split; [reflexivity | constructor].
        - destruct (span_digits_sound _ _ _ Es) as [-> Hall].
          split; [cbn [app]; rewrite Hs, <- app_assoc; reflexivity|].
          constructor; [assumption | assumption | discriminate | exact Hall]. }
      destruct s' as [|x r0].
      * apply (Hsign [] []); [reflexivity | now left].
      * destruct ((x =? 43) || (x =? 45)) eqn:Ex.
        -- apply (Hsign [x] r0); [reflexivity|].
           apply orb_prop in Ex. destruct Ex as [Ex|Ex]; apply Z.eqb_eq in Ex;
             subst x; tauto.
        -- apply (Hsign [] (x :: r0)); [reflexivity | now left].
    + intros H. injection H as <- <-. split; [reflexivity | constructor].
Qed.

Lemma match_number_sound lim s v r :
  match_number lim s = Ok (v, r) ->
  exists n, s = n ++ r /\ json_number n /\ loaded v = true.
Proof.
  unfold match_number.
  destruct (scan_sign s) as [sg s1] eqn:Esg.
  destruct (scan_sign_sound _ _ _ Esg) as [-> Hsg].
  destruct (scan_int s1) as [[i s2]|] eqn:Ei; [|discriminate].
  destruct (scan_int_sound _ _ _ Ei) as [-> Hi].
  destruct (scan_frac s2) as [f s3] eqn:Ef.
  destruct (scan_frac_sound _ _ _ Ef) as [-> Hf].
  destruct (scan_exp s3) as [e s4] eqn:Ee.
  destruct (scan_exp_sound _ _ _ Ee) as [-> He].
  assert (Hn : exists n, sg ++ i ++ f ++ e ++ s4 = n ++ s4 /\ json_number n).
  { exists (sg ++ i ++ f ++ e). split; [now rewrite <- !app_assoc|].
    now constructor. }
  destruct Hn as (n & Hn & Hnum).
  destruct (f ++ e).
  - destruct (over_digit_limit lim (len i) (len i)); [discriminate|].
    intros H. apply ok_inj in H. injection H as <- <-.
    exists n. repeat split; assumption.
  - intros H. apply ok_inj in H. injection H as <- <-.
    exists n. repeat split; assumption.
Qed.

Lemma strip_prefix_sound p s r : strip_prefix p s = Some r -> s = p ++ r.
Proof.
  revert s. induction p as [|a p IH]; intros s; cbn [strip_prefix].
  - intros H. now injection H as <-.
  - destruct s as [|c s]; [discriminate|].
    destruct (Z.eqb_spec c a) as [->|]; [|discriminate].
    intros H. cbn [app]. f_equal. now apply IH.
Qed.

Lemma scan_scalar_sound lim depth s v r :
  scan_scalar lim depth s = Ok (v, r) ->
  exists t,
    s = t ++ r /\ json_value true t
    /\ (codepoints s = true -> loaded v = true).
Proof.
  unfold scan_scalar. destruct s as [|c s']; [discriminate|].
  assert (Hlit : forall p (w : pyval),
             json_value true p -> loaded w = true ->
             literal w p (c :: s') = Ok (v, r) ->
             exists t,
               c :: s' = t ++ r /\ json_value true t
               /\ (codepoints (c :: s') = true -> loaded v = true)).
  { intros p w Hp Hw H. apply literal_inv in H. destruct H as [-> E].
    apply strip_prefix_sound in E. exists p.
    split; [exact E | split; [exact Hp | intros _; exact Hw]]. }
  destruct (Z.eqb_spec c 34) as [->|].
  { destruct (scanstring s') as [[str r']|] eqn:E; [|discriminate].
    intros H. apply ok_inj in H. injection H as <- <-.
    destruct (scanstring_sound _ _ _ E) as (k & -> & Hk & Hcp).
    exists (34 :: k ++ [34]).
    split; [cbn [app]; now rewrite <- app_assoc|].
    split; [now apply value_string|].
    intros Hall. cbn [loaded]. apply Hcp.
    cbn [codepoints forallb] in Hall. now apply andb_prop in Hall. }
  destruct (c =? 110); [apply Hlit; [constructor | reflexivity]|].
  destruct (c =? 116); [apply Hlit; [constructor | reflexivity]|].
  destruct (c =? 102); [apply Hlit; [constructor | reflexivity]|].
  assert (Hconst : forall p f r',
             In p [txt_NaN; txt_Infinity; txt_neg_Infinity] ->
             strip_prefix p (c :: s') = Some r' ->
             constant depth (PFloat f) r' = Ok (v, r) ->
             exists t,
               c :: s' = t ++ r /\ json_value true t
               /\ (codepoints (c :: s') = true -> loaded v = true)).
  { intros p f r' Hp E H. apply constant_inv in H. destruct H as [-> ->].
    apply strip_prefix_sound in E. exists p. split; [exact E|].
    split; [now apply value_constant | reflexivity]. }
  destruct (c =? 78).
  { destruct (strip_prefix txt_NaN (c :: s')) as [r'|] eqn:E; [|discriminate].
    apply (Hconst txt_NaN _ _ ltac:(cbn [In]; tauto) E). }
  destruct (c =? 73).
  { destruct (strip_prefix txt_Infinity (c :: s')) as [r'|] eqn:E;
      [|discriminate].
    apply (Hconst txt_Infinity _ _ ltac:(cbn [In]; tauto) E). }
  destruct (strip_prefix txt_neg_Infinity (c :: s')) as [r'|] eqn:E.
  - apply (Hconst txt_neg_Infinity _ _ ltac:(cbn [In]; tauto) E).
  - intros H. destruct (match_number_sound _ _ _ _ H) as (num & Hn & Hnum & Hl).
    exists num. split; [exact Hn|]. split; [now apply value_number | now intros _].
Qed.

Lemma dict_set_loaded d k v :
  loaded (PDict d) = true -> codepoints k = true -> loaded v = true ->
  loaded (PDict (dict_set d k v)) = true.
Proof.
  cbn [loaded]. intros Hd Hk Hv.
  induction d as [|[k' v'] d IH]; cbn [dict_set forallb].
  - now rewrite Hk, Hv.
  - cbn [forallb] in Hd. apply andb_prop in Hd. destruct Hd as [H1 H2].
    destruct (key_is k k') eqn:E; cbn [forallb].
    + destruct k'; try discriminate H1. apply andb_prop in H1.
      destruct H1 as [H1 _]. now rewrite H1, Hv, H2.
    + now rewrite H1, IH.
Qed.

Lemma dict_of_pairs_loaded pairs :
  forallb item_loaded pairs = true -> loaded (PDict (dict_of_pairs pairs)) = true.
Proof.
  unfold dict_of_pairs.
  assert (H : forall acc,
             loaded (PDict acc) = true -> forallb item_loaded pairs = true ->
             loaded (PDict (fold_left (fun d kv => dict_set d (fst kv) (snd kv))
                                      pairs acc)) = true).
  { induction pairs as [|[k v] pairs IH]; intros acc Hacc Hp; cbn [fold_left].
    - exact Hacc.
    - cbn [forallb] in Hp. apply andb_prop in Hp. destruct Hp as [Hkv Hp].
      unfold item_loaded in Hkv. cbn [fst snd] in Hkv |- *.
      apply andb_prop in Hkv. destruct Hkv as [Hk Hv].
      apply IH; [now apply dict_set_loaded | exact Hp]. }
  apply H. reflexivity.
Qed.

Ltac list_eq :=
  repeat first [progress cbn [app] | rewrite <- app_assoc]; reflexivity.

Lemma scan_map_inv {A B} (g : A -> B) (o : scanned A) (b : B) (r : text) :
  scan_map g o = Some (Ok (b, r)) -> exists a, o = Some (Ok (a, r)) /\ b = g a.
Proof.
  destruct o as [[[a r']|e]|]; cbn [scan_map]; try discriminate.
  intros H. apply some_inj, ok_inj in H. injection H as <- <-. now exists a.
Qed.

Lemma scan_sound lim f :
  sound (scan_once lim) [] (json_value true) loaded f
  /\ sound (parse_elements lim) [93] (json_elements true) (forallb loaded) f
  /\ sound (parse_members lim) [125] (json_members true) (forallb item_loaded) f.
Proof.
  induction f as [|f (IHv & IHe & IHm)];
    [split; [|split]; intros d s a r H; discriminate H|].
  split; [|split].
  - (* scan_once *)
    intros d s v r. destruct s as [|c r0]; [discriminate|]. cbn [scan_once].
    destruct (Z.eqb_spec c 123) as [->|H123];
      [|destruct (Z.eqb_spec c 91) as [->|H91]].
    + destruct d as [|d]; [discriminate|].
      destruct (skip_ws_sound r0) as (w & Hw & Hall).
      destruct (skip_ws r0) as [|c' r'] eqn:Es; [discriminate|].
      destruct (Z.eqb_spec c' 125) as [->|].
      * intros H. apply some_inj, ok_inj in H. injection H as <- <-.
        exists (123 :: w ++ [125]).
        split; [rewrite Hw; list_eq|].
        split; [now apply value_object_empty | reflexivity].
      * intros H. apply scan_map_inv in H. destruct H as (pairs & Ep & ->).
        destruct (IHm _ _ _ _ Ep) as (t & Ht & Hg & Hl).
        exists (123 :: w ++ t ++ [125]).
        split; [rewrite Hw, Ht; list_eq|].
        split; [now apply value_object|].
        intros Hcp. apply dict_of_pairs_loaded, Hl.
        rewrite Hw in Hcp. apply (codepoints_suffix (123 :: w)). exact Hcp.
    + destruct d as [|d]; [discriminate|].
      destruct (skip_ws_sound r0) as (w & Hw & Hall).
      destruct (skip_ws r0) as [|c' r'] eqn:Es; [discriminate|].
      destruct (Z.eqb_spec c' 93) as [->|].
      * intros H. apply some_inj, ok_inj in H. injection H as <- <-.
        exists (91 :: w ++ [93]).
        split; [rewrite Hw; list_eq|].
        split; [now apply value_array_empty | reflexivity].
      * intros H. apply scan_map_inv in H. destruct H as (vs & Ep & ->).
        destruct (IHe _ _ _ _ Ep) as (t & Ht & Hg & Hl).
        exists (91 :: w ++ t ++ [93]).
        split; [rewrite Hw, Ht; list_eq|].
        split; [now apply value_array|].
        intros Hcp. cbn [loaded]. apply Hl.
        rewrite Hw in Hcp. apply (codepoints_suffix (91 :: w)). exact Hcp.
    + intros H. apply some_inj in H.
      destruct (scan_scalar_sound _ _ _ _ _ H) as (t & Ht & Hg & Hl).
      exists t. split; [exact Ht | split; assumption].
  - (* parse_elements *)
    intros d s vs r. cbn [parse_elements].
    destruct (scan_once lim f d s) as [[[v r1]|e]|] eqn:Ev; try discriminate.
    destruct (IHv _ _ _ _ Ev) as (tv & Htv & Hgv & Hlv). cbn [app] in Htv.
    destruct (skip_ws_sound r1) as (w & Hw & Hall).
    destruct (skip_ws r1) as [|c r'] eqn:Es; [discriminate|].
    destruct (Z.eqb_spec c 93) as [->|].
    + intros H. apply some_inj, ok_inj in H. injection H as <- <-.
      exists (tv ++ w).
      split; [rewrite Htv, Hw; list_eq|].
      split; [now apply elements_last|].
      intros Hcp. cbn [forallb]. now rewrite (Hlv Hcp).
    + destruct (Z.eqb_spec c 44) as [->|]; [|discriminate].
      destruct (skip_ws_sound r') as (w2 & Hw2 & Hall2).
      intros H. apply scan_map_inv in H. destruct H as (vs' & Ep & ->).
      destruct (IHe _ _ _ _ Ep) as (t & Ht & Hg & Hl).
      exists (tv ++ w ++ 44 :: w2 ++ t).
      assert (Hs : s = (tv ++ w ++ 44 :: w2) ++ skip_ws r')
        by (rewrite Htv, Hw; rewrite Hw2 at 1; list_eq).
      split; [rewrite Hs, Ht; list_eq|].
      split; [now apply elements_more|].
      intros Hcp. cbn [forallb]. rewrite (Hlv Hcp). cbn [andb]. apply Hl.
      rewrite Hs in Hcp. now apply codepoints_suffix in Hcp.
  - (* parse_members *)
    intros d s pairs r. cbn [parse_members].
    destruct s as [|q r0]; [discriminate|].
    destruct (Z.eqb_spec q 34) as [->|]; [|discriminate].
    destruct (scanstring r0) as [[key r1]|] eqn:Ek; [|discriminate].
    destruct (scanstring_sound _ _ _ Ek) as (k & Hk & Hgk & Hlk).
    destruct (skip_ws_sound r1) as (w1 & Hw1 & Hall1).
    destruct (skip_ws r1) as [|col r2] eqn:Es1; [discriminate|].
    destruct (Z.eqb_spec col 58) as [->|]; [|discriminate].
    destruct (skip_ws_sound r2) as (w2 & Hw2 & Hall2).
    destruct (scan_once lim f d (skip_ws r2)) as [[[v r3]|e]|] eqn:Ev;
      try discriminate.
    destruct (IHv _ _ _ _ Ev) as (tv & Htv & Hgv & Hlv). cbn [app] in Htv.
    destruct (skip_ws_sound r3) as (w3 & Hw3 & Hall3).
    destruct (skip_ws r3) as [|c r4] eqn:Es3; [discriminate|].
    assert (Hs : 34 :: r0
                 = (34 :: k ++ 34 :: w1 ++ 58 :: w2) ++ skip_ws r2)
      by (rewrite Hk, Hw1; rewrite Hw2 at 1; list_eq).
    assert (Hs3 : skip_ws r2 = (tv ++ w3) ++ c :: r4)
      by (rewrite Htv, Hw3; list_eq).
    assert (Hitem : codepoints (34 :: r0) = true -> item_loaded (key, v) = true).
    { intros Hcp. unfold item_loaded. cbn [fst snd].
      rewrite Hlk by (apply (codepoints_suffix [34]); exact Hcp).
      rewrite Hs in Hcp. apply codepoints_suffix in Hcp.
      now rewrite (Hlv Hcp). }
    destruct (Z.eqb_spec c 125) as [->|].
    + intros H. apply some_inj, ok_inj in H. injection H as <- <-.
      exists (34 :: k ++ 34 :: w1 ++ 58 :: w2 ++ tv ++ w3).
      split; [rewrite Hs, Hs3; list_eq|].
      split; [now apply members_last|].
      intros Hcp. cbn [forallb]. now rewrite (Hitem Hcp).
    + destruct (Z.eqb_spec c 44) as [->|]; [|discriminate].
      destruct (skip_ws_sound r4) as (w4 & Hw4 & Hall4).
      intros H. apply scan_map_inv in H. destruct H as (pairs' & Ep & ->).
      destruct (IHm _ _ _ _ Ep) as (t & Ht & Hg & Hl).
      exists (34 :: k ++ 34 :: w1 ++ 58 :: w2 ++ tv ++ w3 ++ 44 :: w4 ++ t).
      assert (Hs4 : 34 :: r0
                    = (34 :: k ++ 34 :: w1 ++ 58 :: w2 ++ tv ++ w3 ++ 44 :: w4)
                      ++ skip_ws r4)
        by (rewrite Hs, Hs3; rewrite Hw4 at 1; list_eq).
      split; [rewrite Hs4, Ht; list_eq|].
      split; [now apply members_more|].
      intros Hcp. cbn [forallb]. rewrite (Hitem Hcp). cbn [andb]. apply Hl.
      rewrite Hs4 in Hcp. now apply codepoints_suffix in Hcp.
Qed.

(** ** UTF-8: the decoder inverts the encoder *)

Lemma is_cont_range b : is_cont b = true -> 128 <= b <= 191.
Proof. unfold is_cont. intros H. apply andb_prop in H. lia. Qed.

Lemma encode_char_2 b0 b1 :
  194 <= b0 <= 223 -> 128 <= b1 <= 191 ->
  utf8_encode_char ((b0 - 192) * 64 + (b1 - 128)) = Some [b0; b1].
Proof.
  intros H0 H1. remember ((b0 - 192) * 64 + (b1 - 128)) as c eqn:Ec.
  unfold utf8_encode_char.
  destruct (Z.ltb_spec c 128); [lia|]. rewrite andb_false_r.
  destruct (Z.leb_spec 128 c); [|lia]. destruct (Z.ltb_spec c 2048); [|lia].
  cbn [andb]. do 2 f_equal; [|f_equal]; Z.div_mod_to_equations; lia.
Qed.

Lemma encode_char_3 b0 b1 b2 :
  224 <= b0 <= 239 -> 128 <= b1 <= 191 -> 128 <= b2 <= 191 ->
  2048 <= (b0 - 224) * 4096 + (b1 - 128) * 64 + (b2 - 128) ->
  is_surrogate ((b0 - 224) * 4096 + (b1 - 128) * 64 + (b2 - 128)) = false ->
  utf8_encode_char ((b0 - 224) * 4096 + (b1 - 128) * 64 + (b2 - 128))
  = Some [b0; b1; b2].
Proof.
  intros H0 H1 H2. remember ((b0 - 224) * 4096 + (b1 - 128) * 64 + (b2 - 128)) as c eqn:Ec.
  intros Hc Hs. unfold utf8_encode_char. rewrite Hs.
  destruct (Z.ltb_spec c 128); [lia|]. rewrite andb_false_r.
  destruct (Z.ltb_spec c 2048); [lia|]. rewrite andb_false_r.
  destruct (Z.leb_spec 2048 c); [|lia]. destruct (Z.ltb_spec c 65536); [|lia].
  cbn [andb]. do 2 f_equal; [|f_equal; [|f_equal]];
    Z.div_mod_to_equations; lia.
Qed.

Lemma encode_char_4 b0 b1 b2 b3 :
  240 <= b0 <= 244 -> 128 <= b1 <= 191 -> 128 <= b2 <= 191 -> 128 <= b3 <= 191 ->
  65536 <= (b0 - 240) * 262144 + (b1 - 128) * 4096 + (b2 - 128) * 64 + (b3 - 128)
           <= 1114111 ->
  utf8_encode_char ((b0 - 240) * 262144 + (b1 - 128) * 4096
                    + (b2 - 128) * 64 + (b3 - 128))
  = Some [b0; b1; b2; b3].
Proof.
  intros H0 H1 H2 H3.
  remember ((b0 - 240) * 262144 + (b1 - 128) * 4096 + (b2 - 128) * 64 + (b3 - 128))
    as c eqn:Ec.
  intros Hc. unfold utf8_encode_char.
  destruct (Z.ltb_spec c 128); [lia|]. rewrite andb_false_r.
  destruct (Z.ltb_spec c 2048); [lia|]. rewrite andb_false_r.
  destruct (Z.ltb_spec c 65536); [lia|]. rewrite andb_false_r.
  destruct (Z.leb_spec 65536 c); [|lia]. destruct (Z.leb_spec c 1114111); [|lia].
  cbn [andb]. do 2 f_equal; [|f_equal; [|f_equal; [|f_equal]]];
    Z.div_mod_to_equations; lia.
Qed.

Lemma omap_cons_inv (c : Z) o (s : text) :
  omap (cons c) o = Some s -> exists s', o = Some s' /\ s = c :: s'.
Proof.
  destruct o as [s'|]; cbn [omap]; [|discriminate].
  intros H. injection H as <-. now exists s'.
Qed.

(** What [bytes.decode] accepts is the UTF-8 encoding of what it returns,
    a sequence of code points. *)
Lemma utf8_decode_sound b s :
  utf8_decode b = Some s -> utf8_encode s = Some b /\ codepoints s = true.
Proof.
  remember (length b) as n eqn:En. revert b s En.
  induction n as [n IH] using lt_wf_ind. intros b s En. subst n.
  assert (Hrec : forall c pre t,
             b = pre ++ t -> (length t < length b)%nat ->
             utf8_encode_char c = Some pre -> is_codepoint c = true ->
             omap (cons c) (utf8_decode t) = Some s ->
             utf8_encode s = Some b /\ codepoints s = true).
  { intros c pre t Hb Hlen Hc Hcp H. apply omap_cons_inv in H.
    destruct H as (s' & H & ->).
    destruct (IH (length t) Hlen t s' eq_refl H) as [He Hs'].
    cbn [utf8_encode codepoints forallb]. rewrite Hc, He, Hcp.
    split; [now rewrite Hb | exact Hs']. }
  destruct b as [|b0 r]; cbn [utf8_decode].
  { intros H. injection H as <-. now split. }
  destruct ((0 <=? b0) && (b0 <? 128)) eqn:E1.
  { apply andb_prop in E1. destruct E1 as [Ea Eb].
    apply Z.leb_le in Ea. apply Z.ltb_lt in Eb.
    apply (Hrec b0 [b0] r); [reflexivity | cbn [length]; lia | |].
    - unfold utf8_encode_char.
      destruct (Z.leb_spec 0 b0); [|lia]. destruct (Z.ltb_spec b0 128); [|lia].
      reflexivity.
    - apply is_codepoint_range. lia. }
  destruct ((194 <=? b0) && (b0 <=? 223)) eqn:E2.
  { apply andb_prop in E2. destruct E2 as [Ea Eb].
    apply Z.leb_le in Ea, Eb.
    destruct r as [|b1 r1]; [discriminate|].
    destruct (is_cont b1) eqn:C1; [|discriminate]. apply is_cont_range in C1.
    apply (Hrec _ [b0; b1] r1); [reflexivity | cbn [length]; lia | |].
    - apply encode_char_2; lia.
    - apply is_codepoint_range. lia. }
  destruct ((224 <=? b0) && (b0 <=? 239)) eqn:E3.
  { apply andb_prop in E3. destruct E3 as [Ea Eb].
    apply Z.leb_le in Ea, Eb.
    destruct r as [|b1 [|b2 r2]]; try discriminate. cbv zeta.
    destruct (is_cont b1 && is_cont b2
              && (2048 <=? (b0 - 224) * 4096 + (b1 - 128) * 64 + (b2 - 128))
              && negb (is_surrogate ((b0 - 224) * 4096 + (b1 - 128) * 64 + (b2 - 128))))
      eqn:C; [|discriminate].
    apply andb_prop in C. destruct C as [C Cs].
    apply andb_prop in C. destruct C as [C Cmin].
    apply andb_prop in C. destruct C as [C1 C2].
    apply is_cont_range in C1, C2. apply Z.leb_le in Cmin.
    apply negb_true_iff in Cs.
    apply (Hrec _ [b0; b1; b2] r2); [reflexivity | cbn [length]; lia | |].
    - apply encode_char_3; (lia || assumption).
    - apply is_codepoint_range. lia. }
  destruct ((240 <=? b0) && (b0 <=? 244)) eqn:E4; [|discriminate].
  apply andb_prop in E4. destruct E4 as [Ea Eb]. apply Z.leb_le in Ea, Eb.
  destruct r as [|b1 [|b2 [|b3 r3]]]; try discriminate. cbv zeta.
  destruct (is_cont b1 && is_cont b2 && is_cont b3
            && (65536 <=? (b0 - 240) * 262144 + (b1 - 128) * 4096
                          + (b2 - 128) * 64 + (b3 - 128))
            && ((b0 - 240) * 262144 + (b1 - 128) * 4096
                + (b2 - 128) * 64 + (b3 - 128) <=? 1114111))
    eqn:C; [|discriminate].
  apply andb_prop in C. destruct C as [C Cmax].
  apply andb_prop in C. destruct C as [C Cmin].
  apply andb_prop in C. destruct C as [C C3].
  apply andb_prop in C. destruct C as [C1 C2].
  apply is_cont_range in C1, C2, C3. apply Z.leb_le in Cmin, Cmax.
  apply (Hrec _ [b0; b1; b2; b3] r3); [reflexivity | cbn [length]; lia | |].
  - apply encode_char_4; lia.
  - apply is_codepoint_range. lia.
Qed.

Lemma is_cont_true b : 128 <= b <= 191 -> is_cont b = true.
Proof.
  intros H. unfold is_cont. apply andb_true_intro.
  split; apply Z.leb_le; lia.
Qed.

Lemma not_ascii_lead b0 : 128 <= b0 -> (0 <=? b0) && (b0 <? 128) = false.
Proof. intros H. destruct (Z.ltb_spec b0 128); [lia|]. apply andb_false_r. Qed.

Lemma decode_2 b0 b1 rest :
  194 <= b0 <= 223 -> 128 <= b1 <= 191 ->
  utf8_decode (b0 :: b1 :: rest)
  = omap (cons ((b0 - 192) * 64 + (b1 - 128))) (utf8_decode rest).
Proof.
  intros H0 H1. cbn [utf8_decode]. rewrite not_ascii_lead by lia.
  destruct (Z.leb_spec 194 b0); [|lia]. destruct (Z.leb_spec b0 223); [|lia].
  cbn [andb]. now rewrite is_cont_true.
Qed.

Lemma decode_3 b0 b1 b2 rest :
  224 <= b0 <= 239 -> 128 <= b1 <= 191 -> 128 <= b2 <= 191 ->
  2048 <= (b0 - 224) * 4096 + (b1 - 128) * 64 + (b2 - 128) ->
  is_surrogate ((b0 - 224) * 4096 + (b1 - 128) * 64 + (b2 - 128)) = false ->
  utf8_decode (b0 :: b1 :: b2 :: rest)
  = omap (cons ((b0 - 224) * 4096 + (b1 - 128) * 64 + (b2 - 128)))
         (utf8_decode rest).
Proof.
  intros H0 H1 H2 Hmin Hs. cbn [utf8_decode]. cbv zeta.
  rewrite not_ascii_lead by lia.
  destruct (Z.leb_spec 194 b0); [|lia]. destruct (Z.leb_spec b0 223); [lia|].
  cbn [andb].
  destruct (Z.leb_spec 224 b0); [|lia]. destruct (Z.leb_spec b0 239); [|lia].
  cbn [andb]. rewrite !is_cont_true, Hs by assumption. cbn [andb negb].
  destruct (Z.leb_spec 2048 ((b0 - 224) * 4096 + (b1 - 128) * 64 + (b2 - 128)));
    [reflexivity | lia].
Qed.

Lemma decode_4 b0 b1 b2 b3 rest :
  240 <= b0 <= 244 -> 128 <= b1 <= 191 -> 128 <= b2 <= 191 -> 128 <= b3 <= 191 ->
  65536 <= (b0 - 240) * 262144 + (b1 - 128) * 4096 + (b2 - 128) * 64 + (b3 - 128)
           <= 1114111 ->
  utf8_decode (b0 :: b1 :: b2 :: b3 :: rest)
  = omap (cons ((b0 - 240) * 262144 + (b1 - 128) * 4096
                + (b2 - 128) * 64 + (b3 - 128)))
         (utf8_decode rest).
Proof.
  intros H0 H1 H2 H3 Hc. cbn [utf8_decode]. cbv zeta.
  rewrite not_ascii_lead by lia.
  destruct (Z.leb_spec 194 b0); [|lia]. destruct (Z.leb_spec b0 223); [lia|].
  cbn [andb].
  destruct (Z.leb_spec 224 b0); [|lia]. destruct (Z.leb_spec b0 239); [lia|].
  cbn [andb].
  destruct (Z.leb_spec 240 b0); [|lia]. destruct (Z.leb_spec b0 244); [|lia].
  cbn [andb]. rewrite !is_cont_true by assumption. cbn [andb].
  destruct (Z.leb_spec 65536 ((b0 - 240) * 262144 + (b1 - 128) * 4096
                              + (b2 - 128) * 64 + (b3 - 128))); [|lia].
  destruct (Z.leb_spec ((b0 - 240) * 262144 + (b1 - 128) * 4096
                        + (b2 - 128) * 64 + (b3 - 128)) 1114111); [|lia].
  reflexivity.
Qed.

Lemma utf8_decode_char c bs rest :
  utf8_encode_char c = Some bs ->
  utf8_decode (bs ++ rest) = omap (cons c) (utf8_decode rest).
Proof.
  unfold utf8_encode_char.
  destruct ((0 <=? c) && (c <? 128)) eqn:E1.
  { intros H. apply some_inj in H. subst bs. cbn [app utf8_decode]. now rewrite E1. }
  destruct ((128 <=? c) && (c <? 2048)) eqn:E2.
  { apply andb_prop in E2. destruct E2 as [Ea Eb].
    apply Z.leb_le in Ea. apply Z.ltb_lt in Eb.
    intros H. apply some_inj in H. subst bs. cbn [app].
    rewrite decode_2 by (Z.div_mod_to_equations; lia).
    do 2 f_equal. Z.div_mod_to_equations. lia. }
  destruct ((2048 <=? c) && (c <? 65536)) eqn:E3.
  { apply andb_prop in E3. destruct E3 as [Ea Eb].
    apply Z.leb_le in Ea. apply Z.ltb_lt in Eb.
    destruct (is_surrogate c) eqn:Es; [discriminate|].
    intros H. apply some_inj in H. subst bs. cbn [app].
    assert (Hv : (224 + c / 4096 - 224) * 4096 + (128 + (c / 64) mod 64 - 128) * 64
                 + (128 + c mod 64 - 128) = c)
      by (Z.div_mod_to_equations; lia).
    rewrite decode_3; rewrite ?Hv; try assumption;
      try (Z.div_mod_to_equations; lia). reflexivity. }
  destruct ((65536 <=? c) && (c <=? 1114111)) eqn:E4; [|discriminate].
  apply andb_prop in E4. destruct E4 as [Ea Eb]. apply Z.leb_le in Ea, Eb.
  intros H. apply some_inj in H. subst bs. cbn [app].
  assert (Hv : (240 + c / 262144 - 240) * 262144
               + (128 + (c / 4096) mod 64 - 128) * 4096
               + (128 + (c / 64) mod 64 - 128) * 64 + (128 + c mod 64 - 128) = c)
    by (Z.div_mod_to_equations; lia).
  rewrite decode_4; rewrite ?Hv; try (Z.div_mod_to_equations; lia). reflexivity.
Qed.

Lemma utf8_decode_complete s b : utf8_encode s = Some b -> utf8_decode b = Some s.
Proof.
  revert b. induction s as [|c s IH]; intros b; cbn [utf8_encode].
  - intros H. now injection H as <-.
  - destruct (utf8_encode_char c) as [bs|] eqn:Ec; [|discriminate].
    destruct (utf8_encode s) as [br|]; [|discriminate].
    intros H. injection H as <-.
    rewrite (utf8_decode_char _ _ _ Ec), (IH br eq_refl). reflexivity.
Qed.

(** [bytes.decode('utf-8')] accepts exactly the byte strings that
    [str.encode('utf-8')] produces, and returns the str they encode. *)
Theorem utf8_decode_iff (b : bytes) (s : text) :
  bytes_decode b = Ok s <-> str_encode s = Ok b.
Proof.
  unfold bytes_decode, str_encode. split; intros H.
  - destruct (utf8_decode b) as [s'|] eqn:E; [|discriminate H].
    injection H as ->. now rewrite (proj1 (utf8_decode_sound _ _ E)).
  - destruct (utf8_encode s) as [b'|] eqn:E; [|discriminate H].
    injection H as ->. now rewrite (utf8_decode_complete _ _ E).
Qed.

(** ** What [json_loads] accepts and returns *)

Lemma json_loads_sound lim s v :
  json_loads lim s = Ok v ->
  json_text true s /\ (codepoints s = true -> loaded v = true).
Proof.
  unfold json_loads. destruct (skip_ws_sound s) as (w1 & Hw1 & Hall1).
  destruct (scan_once lim (loads_fuel s) (S (loads_depth lim)) (skip_ws s))
    as [[[v' r]|e]|] eqn:E; try discriminate.
  destruct (proj1 (scan_sound lim _) _ _ _ _ E) as (t & Ht & Hg & Hl).
  cbn [app] in Ht. destruct (skip_ws_sound r) as (w2 & Hw2 & Hall2).
  destruct (skip_ws r) as [|c r'] eqn:Er; [|discriminate].
  intros H. apply ok_inj in H. subst v'. rewrite app_nil_r in Hw2. subst r. split.
  - exists w1, t, w2. split; [rewrite Hw1 at 1; now rewrite Ht|]. tauto.
  - intros Hcp. apply Hl. rewrite Hw1 in Hcp. now apply codepoints_suffix in Hcp.
Qed.

Lemma codepoints_ascii s : codepoints s = true -> Forall is_ascii (encode_basestring_ascii s).
Proof.
  intros Hs. unfold encode_basestring_ascii.
  constructor; [unfold is_ascii; lia|]. apply Forall_app. split.
  - induction s as [|c s IH]; [constructor|]. cbn [flat_map].
    cbn [codepoints forallb] in Hs. apply andb_prop in Hs.
    apply Forall_app. split; [now apply escape_char_ascii | now apply IH].
  - repeat constructor. unfold is_ascii. lia.
Qed.

Lemma join_items_ascii (items : list (result text)) (ts : text) :
  Forall (fun r : result text => forall t : text, r = Ok t -> Forall is_ascii t)
         items ->
  join_items items = Ok ts -> Forall is_ascii ts.
Proof.
  intros H. revert ts. induction H as [|r items Hr Hitems IH]; intros ts Hts.
  - cbn [join_items] in Hts. apply ok_inj in Hts. subst ts. constructor.
  - destruct items as [|r' items].
    + cbn [join_items] in Hts. now apply Hr.
    + rewrite join_items_cons in Hts.
      apply bind_ok_inv in Hts. destruct Hts as (t & Ht & Hts).
      apply bind_ok_inv in Hts. destruct Hts as (ts' & Hts' & Hts).
      apply ok_inj in Hts. subst ts.
      apply Forall_app. split; [now apply Hr|].
      constructor; [unfold is_ascii; lia|].
      constructor; [unfold is_ascii; lia | now apply IH].
Qed.

Section LoadedValues.

Variable float_repr : text -> text.
Variable lim : limits.
Hypothesis float_repr_ascii : forall lit, Forall is_ascii (float_repr lit).

Lemma floatstr_ascii f : Forall is_ascii (floatstr float_repr f).
Proof.
  destruct f as [|[|]|lit]; cbn [floatstr]; try apply float_repr_ascii;
    repeat constructor; unfold is_ascii; lia.
Qed.

(** What [json.dumps] writes for a value [json.loads] built is ASCII. *)
Lemma loaded_dumps_ascii v :
  loaded v = true ->
  forall depth t, json_dumps float_repr lim depth v = Ok t -> Forall is_ascii t.
Proof.
  induction v as [|b|n|f|s|b|l IH|l IH|d IH] using pyval_ind;
    cbn [loaded]; intros Hv depth t Ht; try discriminate Hv.
  - apply ok_inj in Ht. subst t. repeat constructor; unfold is_ascii; lia.
  - destruct b; apply ok_inj in Ht; subst t;
      repeat constructor; unfold is_ascii; lia.
  - change (int_str lim n = Ok t) in Ht.
    rewrite (int_str_repr _ _ _ Ht). apply int_repr_ascii.
  - apply ok_inj in Ht. subst t. apply floatstr_ascii.
  - apply ok_inj in Ht. subst t. now apply codepoints_ascii.
  - destruct depth as [|depth]; [discriminate Ht|].
    rewrite json_dumps_list in Ht.
    apply bind_ok_inv in Ht. destruct Ht as (ts & Hts & Ht).
    apply ok_inj in Ht. subst t.
    constructor; [unfold is_ascii; lia|]. apply Forall_app.
    split; [|repeat constructor; unfold is_ascii; lia].
    refine (join_items_ascii _ _ _ Hts).
    apply Forall_forall. intros r Hr. apply in_map_iff in Hr.
    destruct Hr as (x & <- & Hx). rewrite Forall_forall in IH.
    apply (IH x Hx). rewrite forallb_forall in Hv. now apply Hv.
  - destruct depth as [|depth]; [discriminate Ht|].
    rewrite json_dumps_dict in Ht.
    apply bind_ok_inv in Ht. destruct Ht as (ts & Hts & Ht).
    apply ok_inj in Ht. subst t.
    constructor; [unfold is_ascii; lia|]. apply Forall_app.
    split; [|repeat constructor; unfold is_ascii; lia].
    refine (join_items_ascii _ _ _ Hts).
    apply Forall_forall. intros r Hr. apply in_map_iff in Hr.
    destruct Hr as ([k x] & <- & Hx). rewrite Forall_forall in IH.
    rewrite forallb_forall in Hv. specialize (Hv _ Hx).
    destruct k as [| | | |s| | | |]; try discriminate Hv.
    apply andb_prop in Hv. destruct Hv as [Hk Hx'].
    destruct (IH _ Hx) as [_ IHx]. cbn [snd] in IHx.
    intros m Hm. cbn [member_dumps key_text bind] in Hm.
    apply bind_ok_inv in Hm. destruct Hm as (t & Ht & Hm).
    apply ok_inj in Hm. subst m.
    apply Forall_app. split; [now apply codepoints_ascii|].
    constructor; [unfold is_ascii; lia|].
    constructor; [unfold is_ascii; lia | exact (IHx Hx' _ _ Ht)].
Qed.

Lemma dict_get_loaded d k : loaded (PDict d) = true -> loaded (dict_get d k) = true.
Proof.
  cbn [loaded]. intros Hd. unfold dict_get.
  destruct (find (fun kv => key_is k (fst kv)) d) as [[k' x]|] eqn:E;
    [|reflexivity].
  apply find_some in E. destruct E as [Hin _].
  rewrite forallb_forall in Hd. specialize (Hd _ Hin).
  destruct k'; try discriminate Hd. apply andb_prop in Hd. now cbn [snd].
Qed.

End LoadedValues.

(** ** One turn of the loop *)

Section Decoding.

Variable native : byte_order.
Variable lim : limits.

(** [decode] reads from stdin only: it writes nothing and logs nothing. *)
Lemma decode_unfold st :
  decode native lim st
  = let length_bytes := take 4 (stdin st) in
    let rest := drop 4 (stdin st) in
    if len length_bytes =? 0
    then (Ok EndOfStream, mk_state rest (stdout st) (log st))
    else
      match struct_unpack_I native length_bytes with
      | Raise e => (Raise e, mk_state rest (stdout st) (log st))
      | Ok n =>
          ((message <- bytes_decode (take n rest) ;;
            data <- json_loads lim message ;;
            Ok (Message data)),
           mk_state (drop n rest) (stdout st) (log st))
      end.
Proof.
  unfold decode, mbind, stdin_read, read, lift, ret. cbv zeta.
  destruct (len (take 4 (stdin st)) =? 0); [reflexivity|].
  destruct (struct_unpack_I native (take 4 (stdin st))) as [n|e]; [|reflexivity].
  cbn [stdin stdout log].
  destruct (bytes_decode _) as [m|e]; [|reflexivity]. cbn [bind].
  destruct (json_loads lim m); reflexivity.
Qed.

Lemma pair_inv {A B} (a a' : A) (b b' : B) : (a, b) = (a', b') -> a = a' /\ b = b'.
Proof. intros H. injection H as H1 H2. now split. Qed.

Lemma decode_keeps_output st r st1 :
  decode native lim st = (r, st1) -> stdout st1 = stdout st /\ log st1 = log st.
Proof.
  rewrite decode_unfold. cbv zeta.
  destruct (len (take 4 (stdin st)) =? 0);
    [|destruct (struct_unpack_I native (take 4 (stdin st)))];
    intros H; apply pair_inv in H; destruct H as [_ <-]; now split.
Qed.

Lemma decode_message_inv st data st1 :
  decode native lim st = (Ok (Message data), st1) ->
  exists n message,
    struct_unpack_I native (take 4 (stdin st)) = Ok n
    /\ utf8_decode (take n (drop 4 (stdin st))) = Some message
    /\ json_loads lim message = Ok data
    /\ st1 = mk_state (drop n (drop 4 (stdin st))) (stdout st) (log st).
Proof.
  rewrite decode_unfold. cbv zeta.
  destruct (len (take 4 (stdin st)) =? 0); [discriminate|].
  destruct (struct_unpack_I native (take 4 (stdin st))) as [n|e]; [|discriminate].
  unfold bytes_decode.
  destruct (utf8_decode (take n (drop 4 (stdin st)))) as [m|] eqn:Em;
    [|discriminate].
  cbn [of_option bind]. destruct (json_loads lim m) as [v|e] eqn:El; [|discriminate].
  cbn [bind]. intros H. apply pair_inv in H. destruct H as [H <-].
  apply ok_inj in H. injection H as <-. exists n, m. tauto.
Qed.

(** What [decode] takes as a message is a value [json.loads] builds. *)
Lemma decode_message_loaded st data st1 :
  decode native lim st = (Ok (Message data), st1) -> loaded data = true.
Proof.
  intros H. destruct (decode_message_inv _ _ _ H) as (n & m & _ & Hm & Hl & _).
  destruct (utf8_decode_sound _ _ Hm) as [_ Hcp].
  now apply (json_loads_sound _ _ _ Hl).
Qed.

(** A payload is taken as a message only when it is the UTF-8 encoding of
    a JSON text (the grammar of RFC 8259 with the constants [NaN],
    [Infinity] and [-Infinity]); the message is then a value
    [json.loads] builds, and the frame is what [decode] consumed. *)
Theorem accepted_payload_is_json (st st1 : host_state) (data : pyval) :
  decode native lim st = (Ok (Message data), st1) ->
  exists prefix payload message,
    stdin st = prefix ++ payload ++ stdin st1
    /\ length prefix = 4%nat
    /\ str_encode message = Ok payload
    /\ json_text true message
    /\ loaded data = true
    /\ stdout st1 = stdout st /\ log st1 = log st.
Proof.
  intros H. destruct (decode_message_inv _ _ _ H) as (n & m & Hn & Hm & Hl & ->).
  cbn [stdin stdout log].
  exists (take 4 (stdin st)), (take n (drop 4 (stdin st))), m.
  destruct (utf8_decode_sound _ _ Hm) as [He Hcp].
  destruct (json_loads_sound _ _ _ Hl) as [Hg Hld].
  split; [now rewrite !take_drop|].
  split; [exact (unpack_length _ _ _ Hn)|].
  split; [unfold str_encode; now rewrite He|].
  split; [exact Hg|]. split; [now apply Hld|]. now split.
Qed.

End Decoding.

Section LoopBody.

Variable native : byte_order.
Variable float_repr : text -> text.
Variable lim : limits.

Lemma decode_failure_breaks st st1 e :
  decode native lim st = (Raise e, st1) ->
  loop_body native float_repr lim st
  = (Ok Break, mk_state (stdin st1) (stdout st) (log st ++ [LogError e])).
Proof.
  intros H. destruct (decode_keeps_output _ _ _ _ _ H) as [Hout Hlog].
  unfold loop_body, try_except, mbind. rewrite H.
  unfold log_write, ret. cbn [stdin stdout log]. now rewrite Hout, Hlog.
Qed.

(** A failure of [decode] ends the loop: the error is logged, nothing is
    written, and nothing more is read, whatever the stream still holds. *)
Theorem decode_failure_is_fatal (st st1 : host_state) (e : exn) :
  decode native lim st = (Raise e, st1) ->
  loop_body native float_repr lim st
  = (Ok Break, mk_state (stdin st1) (stdout st) (log st ++ [LogError e]))
  /\ (forall fuel,
        read_loop native float_repr lim (S fuel) st
        = Some (Ok tt, mk_state (stdin st1) (stdout st) (log st ++ [LogError e]))).
Proof.
  intros H. pose proof (decode_failure_breaks _ _ _ H) as Hbody.
  split; [exact Hbody|]. intros fuel. cbn [read_loop]. now rewrite Hbody.
Qed.

(** C5, amended: for a frame whose payload [bytes.decode] does not accept,
    or that is not a JSON text of the grammar [json.loads] reads (RFC 8259
    and the constants [NaN], [Infinity], [-Infinity]), [decode] fails with
    the exception raised, [UnicodeDecodeError] when the bytes are not
    UTF-8, and the failure is fatal: the error is logged, nothing is
    written, and the loop ends with the rest of the stream unread. *)
Theorem malformed_payload_is_fatal (prefix payload rest out : bytes)
    (lg : list log_line) :
  struct_unpack_I native prefix = Ok (len payload) ->
  (forall message, bytes_decode payload = Ok message -> ~ json_text true message) ->
  exists e,
    decode native lim (mk_state (prefix ++ payload ++ rest) out lg)
    = (Raise e, mk_state rest out lg)
    /\ loop_body native float_repr lim (mk_state (prefix ++ payload ++ rest) out lg)
       = (Ok Break, mk_state rest out (lg ++ [LogError e]))
    /\ (forall fuel,
          read_loop native float_repr lim (S fuel)
            (mk_state (prefix ++ payload ++ rest) out lg)
          = Some (Ok tt, mk_state rest out (lg ++ [LogError e])))
    /\ ((forall message, bytes_decode payload <> Ok message) ->
        e = UnicodeDecodeError).
Proof.
  intros Hn Hbad.
  assert (Hdec : exists e,
             decode native lim (mk_state (prefix ++ payload ++ rest) out lg)
             = (Raise e, mk_state rest out lg)
             /\ ((forall message, bytes_decode payload <> Ok message) ->
                 e = UnicodeDecodeError)).
  { rewrite decode_frame by assumption.
    destruct (bytes_decode payload) as [m|e0] eqn:Em; cbn [bind].
    - destruct (json_loads lim m) as [v|e1] eqn:El; cbn [bind].
      + exfalso. apply (Hbad m eq_refl). now apply (json_loads_sound _ _ _ El).
      + exists e1. split; [reflexivity|]. intros Hno. now destruct (Hno m).
    - exists e0. split; [reflexivity|]. intros _.
      unfold bytes_decode in Em. destruct (utf8_decode payload); [discriminate|].
      cbn [of_option] in Em. now injection Em. }
  destruct Hdec as (e & Hdec & Hutf). exists e.
  pose proof (decode_failure_breaks _ _ _ Hdec) as Hbody.
  cbn [stdin stdout log] in Hbody.
  split; [exact Hdec|]. split; [exact Hbody|]. split; [|exact Hutf].
  intros fuel. cbn [read_loop]. now rewrite Hbody.
Qed.

Lemma loop_body_non_object st st1 data :
  decode native lim st = (Ok (Message data), st1) ->
  (forall d, data <> PDict d) ->
  loop_body native float_repr lim st
  = (Ok Break,
     mk_state (stdin st1) (stdout st) (log st ++ non_object_log data)).
Proof.
  intros H Hd. destruct (decode_keeps_output _ _ _ _ _ H) as [Hout Hlog].
  unfold loop_body, try_except, mbind. rewrite H.
  destruct data as [| | | |s| | | |d];
    try (cbv [log_received log_write lift ret py_get non_object_log];
         cbn [stdin stdout log]; rewrite <- app_assoc, Hout, Hlog; reflexivity).
  - cbv [log_received non_object_log].
    destruct (existsb is_surrogate s);
      cbv [raise log_write lift ret py_get]; cbn [stdin stdout log];
      rewrite <- ?app_assoc, Hout, Hlog; reflexivity.
  - now destruct (Hd d).
Qed.

(** A message that is not an object gets no reply, and the loop ends:
    [data.get] raises [AttributeError], which is logged after the Received
    line; for a str with a surrogate the Received line cannot be written
    and the [UnicodeEncodeError] of that write is logged instead. *)
Theorem non_object_request (st st1 : host_state) (data : pyval) :
  decode native lim st = (Ok (Message data), st1) ->
  (forall d, data <> PDict d) ->
  loop_body native float_repr lim st
  = (Ok Break,
     mk_state (stdin st1) (stdout st) (log st ++ non_object_log data))
  /\ (forall fuel,
        read_loop native float_repr lim (S fuel) st
        = Some (Ok tt,
                mk_state (stdin st1) (stdout st) (log st ++ non_object_log data))).
Proof.
  intros H Hd. pose proof (loop_body_non_object _ _ _ H Hd) as Hbody.
  split; [exact Hbody|]. intros fuel. cbn [read_loop]. now rewrite Hbody.
Qed.

Lemma loop_body_object st st1 d :
  decode native lim st = (Ok (Message (PDict d)), st1) ->
  loop_body native float_repr lim st
  = match send_message native float_repr lim (reply (dict_get d txt_id))
            (stdout st) with
    | Ok out =>
        (Ok Continue,
         mk_state (stdin st1) out (log st ++ [LogReceived (PDict d)]))
    | Raise e =>
        (Ok Break,
         mk_state (stdin st1) (stdout st)
                  (log st ++ [LogReceived (PDict d); LogError e]))
    end.
Proof.
  intros H. destruct (decode_keeps_output _ _ _ _ _ H) as [Hout Hlog].
  unfold loop_body, try_except, mbind. rewrite H.
  cbv [log_received log_write lift ret stdout_send py_get].
  cbn [stdin stdout log]. rewrite Hout, Hlog.
  destruct (send_message native float_repr lim (reply (dict_get d txt_id))
              (stdout st)) as [out|e];
    cbn [stdin stdout log]; [reflexivity|].
  rewrite <- app_assoc. reflexivity.
Qed.

Lemma reply_dumps depth id t :
  json_dumps float_repr lim depth id = Ok t ->
  json_dumps float_repr lim (S depth) (reply id)
  = Ok (reply_head ++ t ++ reply_tail).
Proof.
  intros Ht. unfold reply. rewrite json_dumps_dict. cbn [map].
  rewrite join_items_cons. cbn [member_dumps key_text bind]. rewrite Ht.
  cbn [join_items json_dumps bind]. f_equal.
  change (encode_basestring_ascii txt_id) with [34; 105; 100; 34].
  change (encode_basestring_ascii txt_success)
    with [34; 115; 117; 99; 99; 101; 115; 115; 34].
  unfold reply_head, reply_tail, txt_true. list_eq.
Qed.

Lemma reply_dumps_inv depth id s :
  json_dumps float_repr lim (S depth) (reply id) = Ok s ->
  exists t,
    json_dumps float_repr lim depth id = Ok t
    /\ s = reply_head ++ t ++ reply_tail.
Proof.
  intros Hs.
  destruct (json_dumps float_repr lim depth id) as [t|e] eqn:Ht.
  - exists t. split; [reflexivity|].
    rewrite (reply_dumps _ _ _ Ht) in Hs. now apply ok_inj in Hs.
  - exfalso. revert Hs. unfold reply. rewrite json_dumps_dict. cbn [map].
    rewrite join_items_cons. cbn [member_dumps key_text bind]. rewrite Ht.
    discriminate.
Qed.

End LoopBody.

Section Replies.

Variable native : byte_order.
Variable float_repr : text -> text.
Variable lim : limits.
Hypothesis float_repr_ascii : forall lit, Forall is_ascii (float_repr lit).

(** What [send_message] writes for the reply to a decoded object: the
    text [{"id": <text of the id>, "success": true}] behind the prefix of
    its length. *)
Lemma reply_frame d f :
  loaded (PDict d) = true ->
  send_message native float_repr lim (reply (dict_get d txt_id)) [] = Ok f ->
  exists t,
    json_dumps float_repr lim (dumps_depth lim) (dict_get d txt_id) = Ok t
    /\ f = in_order native (le_bytes (len (reply_head ++ t ++ reply_tail)))
           ++ reply_head ++ t ++ reply_tail.
Proof.
  intros Hld Hsend.
  destruct (json_dumps float_repr lim (S (dumps_depth lim))
              (reply (dict_get d txt_id))) as [s|e] eqn:Hs.
  2: { unfold send_message in Hsend. rewrite Hs in Hsend. discriminate Hsend. }
  destruct (reply_dumps_inv _ _ _ _ _ Hs) as (t & Ht & ->).
  exists t. split; [exact Ht|].
  pose proof (loaded_dumps_ascii float_repr lim float_repr_ascii _
                (dict_get_loaded d txt_id Hld) _ _ Ht) as Ha.
  assert (Hascii : Forall is_ascii (reply_head ++ t ++ reply_tail)).
  { apply Forall_app. split; [repeat constructor; unfold is_ascii; lia|].
    apply Forall_app. split; [exact Ha|].
    repeat constructor; unfold is_ascii; lia. }
  assert (He : str_encode (reply_head ++ t ++ reply_tail)
               = Ok (reply_head ++ t ++ reply_tail))
    by (unfold str_encode; now rewrite utf8_encode_ascii).
  rewrite (send_message_unfold native float_repr lim _ _ _ [] Hs He) in Hsend.
  destruct (struct_pack_I native (len (reply_head ++ t ++ reply_tail)))
    as [q|e] eqn:Ep; [|discriminate Hsend].
  cbn [bind] in Hsend. apply ok_inj in Hsend. subst f.
  destruct (pack_inv _ _ _ Ep) as [_ ->]. reflexivity.
Qed.


End Replies.



Lemma accepted_payload_is_json_witness :
  decode LittleEndian default_limits (mk_state sample_request [] [])
  = (Ok (Message (PDict [(PStr txt_id, PInt 7)])), mk_state [1; 2] [] [])
  /\ exists prefix payload message,
       stdin (mk_state sample_request [] [])
       = prefix ++ payload ++ stdin (mk_state [1; 2] [] [])
       /\ length prefix = 4%nat
       /\ str_encode message = Ok payload
       /\ json_text true message
       /\ loaded (PDict [(PStr txt_id, PInt 7)]) = true
       /\ stdout (mk_state [1; 2] [] []) = stdout (mk_state sample_request [] [])
       /\ log (mk_state [1; 2] [] []) = log (mk_state sample_request [] []).
Proof.
  assert (H : decode LittleEndian default_limits (mk_state sample_request [] [])
              = (Ok (Message (PDict [(PStr txt_id, PInt 7)])),
                 mk_state [1; 2] [] [])) by reflexivity.
  split; [exact H|].
  exact (accepted_payload_is_json LittleEndian default_limits _ _ _ H).
Defined.

Lemma decode_failure_is_fatal_witness :
  decode LittleEndian default_limits (mk_state [1; 0; 0; 0; 255; 7; 7] [9] [])
  = (Raise UnicodeDecodeError, mk_state [7; 7] [9] [])
  /\ loop_body LittleEndian (fun t => t) default_limits
       (mk_state [1; 0; 0; 0; 255; 7; 7] [9] [])
     = (Ok Break, mk_state [7; 7] [9] [LogError UnicodeDecodeError]).
Proof.
  assert (H : decode LittleEndian default_limits
                (mk_state [1; 0; 0; 0; 255; 7; 7] [9] [])
              = (Raise UnicodeDecodeError, mk_state [7; 7] [9] []))
    by reflexivity.
  split; [exact H|].
  exact (proj1 (decode_failure_is_fatal LittleEndian (fun t => t) default_limits
                  _ _ _ H)).
Defined.

Lemma malformed_payload_is_fatal_witness :
  struct_unpack_I LittleEndian [1; 0; 0; 0] = Ok (len [255])
  /\ bytes_decode [255] = Raise UnicodeDecodeError
  /\ exists e,
       decode LittleEndian default_limits
         (mk_state ([1; 0; 0; 0] ++ [255] ++ [7; 7]) [9] [])
       = (Raise e, mk_state [7; 7] [9] [])
       /\ loop_body LittleEndian (fun t => t) default_limits
            (mk_state ([1; 0; 0; 0] ++ [255] ++ [7; 7]) [9] [])
          = (Ok Break, mk_state [7; 7] [9] ([] ++ [LogError e]))
       /\ (forall fuel,
             read_loop LittleEndian (fun t => t) default_limits (S fuel)
               (mk_state ([1; 0; 0; 0] ++ [255] ++ [7; 7]) [9] [])
             = Some (Ok tt, mk_state [7; 7] [9] ([] ++ [LogError e])))
       /\ ((forall message, bytes_decode [255] <> Ok message) ->
           e = UnicodeDecodeError).
Proof.
  assert (H1 : struct_unpack_I LittleEndian [1; 0; 0; 0] = Ok (len [255]))
    by reflexivity.
  assert (H2 : bytes_decode [255] = Raise UnicodeDecodeError) by reflexivity.
  split; [exact H1|]. split; [exact H2|].
  apply (malformed_payload_is_fatal LittleEndian (fun t => t) default_limits
           [1; 0; 0; 0] [255] [7; 7] [9] [] H1).
  intros message H. rewrite H2 in H. discriminate H.
Defined.

Lemma non_object_request_witness :
  decode LittleEndian default_limits (mk_state [2; 0; 0; 0; 91; 93] [9] [])
  = (Ok (Message (PList [])), mk_state [] [9] [])
  /\ loop_body LittleEndian (fun t => t) default_limits
       (mk_state [2; 0; 0; 0; 91; 93] [9] [])
     = (Ok Break,
        mk_state [] [9] [LogReceived (PList []); LogError AttributeError]).
Proof.
  assert (H : decode LittleEndian default_limits
                (mk_state [2; 0; 0; 0; 91; 93] [9] [])
              = (Ok (Message (PList [])), mk_state [] [9] [])) by reflexivity.
  split; [exact H|].
  refine (proj1 (non_object_request LittleEndian (fun t => t) default_limits
                   _ _ _ H _)).
  intros d. discriminate.
Defined.



(** ** Texts outside the grammar of RFC 8259 *)

Scheme json_value_min := Minimality for json_value Sort Prop
  with json_elements_min := Minimality for json_elements Sort Prop
  with json_members_min := Minimality for json_members Sort Prop.

Combined Scheme json_grammar_ind
  from json_value_min, json_elements_min, json_members_min.

Lemma quote_after_N_app a b :
  quote_after_N a = true -> quote_after_N b = true ->
  quote_after_N (a ++ b) = true.
Proof.
  intros Ha Hb. induction a as [|c a IH]; [exact Hb|].
  cbn [app quote_after_N] in *. apply andb_prop in Ha. destruct Ha as [Hc Ha].
  rewrite (IH Ha), andb_true_r. rewrite existsb_app.
  destruct (negb (c =? 78)); [reflexivity|]. cbn [orb] in *. now rewrite Hc.
Qed.

Lemma quote_after_N_free t :
  Forall (fun c => c <> 78) t -> quote_after_N t = true.
Proof.
  induction 1 as [|c t Hc _ IH]; [reflexivity|]. cbn [quote_after_N].
  rewrite IH, andb_true_r. destruct (Z.eqb_spec c 78); [contradiction|reflexivity].
Qed.

Lemma quote_after_N_quoted k : quote_after_N (34 :: k ++ [34]) = true.
Proof.
  cbn [quote_after_N]. change (34 =? 78) with false. cbn [negb orb andb].
  induction k as [|c k IH]; [reflexivity|]. cbn [app quote_after_N].
  rewrite IH, andb_true_r, existsb_app. cbn [existsb].
  change (34 =? 34) with true. now rewrite !orb_true_r.
Qed.

Lemma quote_after_N_ws w : all_ws w -> quote_after_N w = true.
Proof.
  intros H. apply quote_after_N_free. revert H. apply Forall_impl.
  intros c Hc ->. discriminate Hc.
Qed.

Lemma quote_after_N_digits ds : all_digits ds -> quote_after_N ds = true.
Proof.
  intros H. apply quote_after_N_free. revert H. apply Forall_impl.
  intros c Hc. lia.
Qed.

Lemma quote_after_N_number n : json_number n -> quote_after_N n = true.
Proof.
  intros [sg i f e Hsg Hi Hf He].
  repeat apply quote_after_N_app.
  - destruct Hsg as [-> | ->]; reflexivity.
  - destruct Hi as [|d ds Hd Hds]; [reflexivity|].
    apply (quote_after_N_app [d] ds); [|now apply quote_after_N_digits].
    apply quote_after_N_free. constructor; [lia | constructor].
  - destruct Hf as [|ds _ Hds]; [reflexivity|].
    apply (quote_after_N_app [46] ds); [reflexivity|].
    now apply quote_after_N_digits.
  - destruct He as [|c sg' ds Hc Hsg' _ Hds]; [reflexivity|].
    apply (quote_after_N_app [c] (sg' ++ ds)).
    + apply quote_after_N_free. constructor; [lia | constructor].
    + apply quote_after_N_app; [|now apply quote_after_N_digits].
      destruct Hsg' as [-> | [-> | ->]]; reflexivity.
Qed.

Ltac quote_after_N_parts :=
  repeat first
    [ assumption
    | reflexivity
    | apply quote_after_N_quoted
    | apply quote_after_N_ws; assumption
    | apply quote_after_N_app ].

(** In a text of the grammar of RFC 8259 a letter N occurs inside strings
    only: a quote follows it. *)
Lemma json_grammar_quote_after_N :
  (forall t, json_value false t -> quote_after_N t = true)
  /\ (forall t, json_elements false t -> quote_after_N t = true)
  /\ (forall t, json_members false t -> quote_after_N t = true).
Proof.
  apply json_grammar_ind.
  - reflexivity.
  - reflexivity.
  - reflexivity.
  - intros t H. discriminate H.
  - intros n Hn. now apply quote_after_N_number.
  - intros k _. apply quote_after_N_quoted.
  - intros w Hw. apply (quote_after_N_app [91] (w ++ [93])); quote_after_N_parts.
  - intros w es Hw _ Hes.
    apply (quote_after_N_app [91] (w ++ es ++ [93])); quote_after_N_parts.
  - intros w Hw. apply (quote_after_N_app [123] (w ++ [125])); quote_after_N_parts.
  - intros w ms Hw _ Hms.
    apply (quote_after_N_app [123] (w ++ ms ++ [125])); quote_after_N_parts.
  - intros v w _ Hv Hw. quote_after_N_parts.
  - intros v w1 w2 es _ Hv Hw1 Hw2 _ Hes.
    apply quote_after_N_app; [assumption|].
    apply quote_after_N_app; [now apply quote_after_N_ws|].
    apply (quote_after_N_app [44] (w2 ++ es)); quote_after_N_parts.
  - intros k w1 w2 v w3 _ Hw1 Hw2 _ Hv Hw3.
    change (34 :: k ++ 34 :: w1 ++ 58 :: w2 ++ v ++ w3)
      with ((34 :: k) ++ [34] ++ w1 ++ [58] ++ w2 ++ v ++ w3).
    rewrite app_assoc. quote_after_N_parts.
  - intros k w1 w2 v w3 w4 ms _ Hw1 Hw2 _ Hv Hw3 Hw4 _ Hms.
    change (34 :: k ++ 34 :: w1 ++ 58 :: w2 ++ v ++ w3 ++ 44 :: w4 ++ ms)
      with ((34 :: k) ++ [34] ++ w1 ++ [58] ++ w2 ++ v ++ w3 ++ [44] ++ w4 ++ ms).
    rewrite app_assoc. quote_after_N_parts.
Qed.

Lemma json_text_quote_after_N s : json_text false s -> quote_after_N s = true.
Proof.
  intros (w1 & v & w2 & -> & Hw1 & Hv & Hw2).
  apply quote_after_N_app; [now apply quote_after_N_ws|].
  apply quote_after_N_app; [|now apply quote_after_N_ws].
  now apply (proj1 json_grammar_quote_after_N).
Qed.

(** C5, counterexample: the payload [{"id": NaN}] is not a JSON text (RFC
    8259 has no [NaN]), but [decode] signals no failure for it: it returns
    a message, which the host answers before it goes on to the next
    frame. *)
Lemma malformed_payload_counterexample :
  ~ json_text false nan_payload
  /\ str_encode nan_payload = Ok nan_payload
  /\ (forall out lg,
        decode LittleEndian default_limits
          (mk_state ([11; 0; 0; 0] ++ nan_payload ++ [2; 0; 0; 0; 123; 125]) out lg)
        = (Ok (Message (PDict [(PStr txt_id, PFloat FNaN)])),
           mk_state [2; 0; 0; 0; 123; 125] out lg))
  /\ (forall float_repr,
        run LittleEndian float_repr default_limits
          ([11; 0; 0; 0] ++ nan_payload ++ [2; 0; 0; 0; 123; 125])
        = Some (Ok tt,
                mk_state []
                  (ready_frame LittleEndian
                   ++ ([28; 0; 0; 0] ++ reply_head ++ txt_NaN ++ reply_tail)
                   ++ [29; 0; 0; 0] ++ reply_head ++ txt_null ++ reply_tail)
                  [LogStarting; LogSentReady;
                   LogReceived (PDict [(PStr txt_id, PFloat FNaN)]);
                   LogReceived (PDict []); LogExiting])).
Proof.
  split.
  - intros H. apply json_text_quote_after_N in H. discriminate H.
  - split; [reflexivity|]. split; reflexivity.
Qed.

(** ** The whole loop *)

Section WholeLoop.

Variable native : byte_order.
Variable float_repr : text -> text.
Variable lim : limits.

Lemma send_message_app v out :
  send_message native float_repr lim v out
  = (f <- send_message native float_repr lim v [] ;; Ok (out ++ f)).
Proof.
  unfold send_message.
  destruct (json_dumps float_repr lim (S (dumps_depth lim)) v) as [s|e];
    [|reflexivity]. cbn [bind].
  destruct (str_encode s) as [p|e]; [|reflexivity]. cbn [bind].
  destruct (struct_pack_I native (len p)) as [q|e]; reflexivity.
Qed.

Lemma drop_length n l : (length (drop n l) <= length l)%nat.
Proof. rewrite drop_skipn, length_skipn. lia. Qed.

Lemma drop_4_length l :
  length (take 4 l) = 4%nat -> (length (drop 4 l) + 4 = length l)%nat.
Proof.
  rewrite take_firstn, drop_skipn, length_firstn, length_skipn.
  change (Z.to_nat 4) with 4%nat. lia.
Qed.

(** One turn either ends the loop, having written nothing, or goes on,
    having consumed at least 4 bytes and written one reply frame. *)
Lemma loop_body_step st :
  exists fl st' lg,
    loop_body native float_repr lim st = (Ok fl, st')
    /\ log st' = log st ++ lg
    /\ match fl with
       | Break => stdout st' = stdout st
       | Continue =>
           (length (stdin st') + 4 <= length (stdin st))%nat
           /\ exists id f,
                send_message native float_repr lim (reply id) [] = Ok f
                /\ stdout st' = stdout st ++ f
       end.
Proof.
  destruct (decode native lim st) as [[[|data]|e] st1] eqn:H.
  - exists Break, st1, []. rewrite app_nil_r.
    destruct (decode_keeps_output _ _ _ _ _ H) as [Hout Hlog].
    split; [|tauto]. unfold loop_body, try_except, mbind. now rewrite H.
  - assert (Hd : (exists d, data = PDict d) \/ forall d, data <> PDict d).
    { destruct data; try (right; discriminate). left. now eexists. }
    destruct Hd as [(d & ->) | Hd].
    + rewrite (loop_body_object native float_repr lim _ _ _ H).
      destruct (decode_message_inv native lim _ _ _ H) as (n & m & Hn & _ & _ & ->).
      cbn [stdin stdout log]. rewrite send_message_app.
      destruct (send_message native float_repr lim (reply (dict_get d txt_id)) [])
        as [f|e] eqn:Es; cbn [bind].
      * exists Continue. eexists. exists [LogReceived (PDict d)].
        split; [reflexivity|]. cbn [stdin stdout log]. split; [reflexivity|].
        split.
        -- pose proof (drop_4_length (stdin st) (unpack_length _ _ _ Hn)).
           pose proof (drop_length n (drop 4 (stdin st))). lia.
        -- exists (dict_get d txt_id), f. now split.
      * exists Break. eexists. eexists. split; [reflexivity|].
        cbn [stdin stdout log]. now split.
    + rewrite (loop_body_non_object native float_repr lim _ _ _ H Hd).
      exists Break. eexists. eexists. split; [reflexivity|].
      cbn [stdin stdout log]. now split.
  - rewrite (decode_failure_breaks native float_repr lim _ _ _ H).
    exists Break. eexists. eexists. split; [reflexivity|].
    cbn [stdin stdout log]. now split.
Qed.

Lemma read_loop_spec fuel st :
  (length (stdin st) < fuel)%nat ->
  exists st' frames lg,
    read_loop native float_repr lim fuel st = Some (Ok tt, st')
    /\ reply_frames native float_repr lim frames
    /\ stdout st' = stdout st ++ concat frames
    /\ log st' = log st ++ lg.
Proof.
  revert st. induction fuel as [|fuel IH]; intros st Hfuel; [lia|].
  cbn [read_loop].
  destruct (loop_body_step st) as (fl & st1 & lg & Hbody & Hlog & Hfl).
  rewrite Hbody. destruct fl.
  - destruct Hfl as (Hlen & id & f & Hsend & Hout).
    destruct (IH st1) as (st' & frames & lg' & Hloop & Hframes & Hout' & Hlog');
      [lia|].
    exists st', (f :: frames), (lg ++ lg'). split; [exact Hloop|].
    split; [constructor; [now exists id | exact Hframes]|].
    split; [rewrite Hout', Hout; cbn [concat]; now rewrite app_assoc|].
    rewrite Hlog', Hlog. now rewrite app_assoc.
  - exists st1, [], lg. split; [reflexivity|]. split; [constructor|].
    split; [cbn [concat]; now rewrite app_nil_r | exact Hlog].
Qed.

(** The host always terminates, and normally: whatever bytes stdin
    delivers, the script runs to its end without an uncaught exception.
    What it has written is the HOST_READY frame followed by frames of
    replies [{"id": ..., "success": true}] and nothing else, and its log
    starts with the two start-up lines and ends with "Host exiting". *)
Theorem run_terminates (input : bytes) :
  exists st frames lg,
    run native float_repr lim input = Some (Ok tt, st)
    /\ reply_frames native float_repr lim frames
    /\ stdout st = ready_frame native ++ concat frames
    /\ log st = LogStarting :: LogSentReady :: lg ++ [LogExiting].
Proof.
  rewrite run_prelude.
  destruct (read_loop_spec (S (length input))
              (mk_state input (ready_frame native) [LogStarting; LogSentReady]))
    as (st' & frames & lg & Hloop & Hframes & Hout & Hlog);
    [cbn [stdin]; lia|].
  rewrite Hloop. cbn [stdout log] in Hout, Hlog.
  eexists. exists frames, lg. split; [reflexivity|].
  unfold log_write. cbn [stdin stdout log].
  split; [exact Hframes|]. split; [exact Hout|]. now rewrite Hlog.
Qed.

End WholeLoop.

(** ** A stream of requests *)

Section Requests.

Variable native : byte_order.
Variable float_repr : text -> text.
Variable lim : limits.

Lemma read_loop_requests reqs :
  Forall (answerable native float_repr lim) reqs ->
  forall fuel out lg,
    (length (request_frames native float_repr lim reqs) < fuel)%nat ->
    read_loop native float_repr lim fuel
      (mk_state (request_frames native float_repr lim reqs) out lg)
    = Some (Ok tt,
            mk_state [] (out ++ answer_frames native float_repr lim reqs)
                     (lg ++ map (fun d => LogReceived (PDict d)) reqs)).
Proof.
  induction 1 as [|d reqs (Hn & (f & Hf) & (g & Hg)) _ IH];
    intros fuel out lg Hfuel.
  - destruct fuel as [|fuel]; [lia|]. cbn [request_frames answer_frames flat_map map].
    rewrite !app_nil_r. reflexivity.
  - destruct fuel as [|fuel]; [lia|].
    destruct (round_trip_frame native float_repr lim _ _ Hn Hf) as [Hlen Hdec].
    unfold request_frames, answer_frames in *. cbn [flat_map map] in *.
    unfold frame_of at 1 in Hfuel. unfold frame_of at 1 3.
    rewrite Hf in *. rewrite Hg. cbn [read_loop].
    rewrite (loop_body_object native float_repr lim _ _ _ (Hdec _ out lg)).
    cbn [stdin stdout log]. rewrite send_message_app, Hg. cbn [bind].
    rewrite IH by (rewrite length_app in Hfuel; lia).
    now rewrite <- !app_assoc.
Qed.


End Requests.


(** ** Tuples *)



(** ** Requests without an id *)

(** A request object that has no ["id"] key is answered with the frame of
    the text [{"id": null, "success": true}], 29 bytes behind their
    prefix, and the loop goes on. *)
Theorem reply_without_id (native : byte_order) (float_repr : text -> text)
    (lim : limits) (st st1 : host_state) (d : list (pyval * pyval)) :
  decode native lim st = (Ok (Message (PDict d)), st1) ->
  forallb (fun kv => negb (key_is txt_id (fst kv))) d = true ->
  loop_body native float_repr lim st
  = (Ok Continue,
     mk_state (stdin st1)
       (stdout st ++ in_order native [29; 0; 0; 0]
        ++ reply_head ++ txt_null ++ reply_tail)
       (log st ++ [LogReceived (PDict d)])).
Proof.
  intros H Hd.
  assert (Hget : dict_get d txt_id = PNone).
  { unfold dict_get.
    destruct (find (fun kv => key_is txt_id (fst kv)) d) as [kv|] eqn:E;
      [|reflexivity].
    apply find_some in E. destruct E as [Hin Hk].
    rewrite forallb_forall in Hd. specialize (Hd _ Hin).
    now rewrite Hk in Hd. }
  rewrite (loop_body_object native float_repr lim _ _ _ H).
  rewrite Hget, send_message_app.
  assert (Hs : send_message native float_repr lim (reply PNone) []
               = Ok (in_order native [29; 0; 0; 0]
                     ++ reply_head ++ txt_null ++ reply_tail))
    by (destruct native; reflexivity).
  rewrite Hs. reflexivity.
Qed.

Lemma reply_without_id_witness :
  decode BigEndian default_limits (mk_state [0; 0; 0; 2; 123; 125; 8] [5] [])
  = (Ok (Message (PDict [])), mk_state [8] [5] [])
  /\ loop_body BigEndian (fun t => t) default_limits
       (mk_state [0; 0; 0; 2; 123; 125; 8] [5] [])
     = (Ok Continue,
        mk_state [8]
          ([5] ++ in_order BigEndian [29; 0; 0; 0]
           ++ reply_head ++ txt_null ++ reply_tail)
          ([] ++ [LogReceived (PDict [])])).
Proof.
  assert (H : decode BigEndian default_limits
                (mk_state [0; 0; 0; 2; 123; 125; 8] [5] [])
              = (Ok (Message (PDict [])), mk_state [8] [5] [])) by reflexivity.
  split; [exact H|].
  exact (reply_without_id BigEndian (fun t => t) default_limits _ _ _ H eq_refl).
Defined.
